(** * FnordMetric: the document key and the HTTP connection engine

    A shallow embedding of

    - [fnordmetric-core/src/ffs/documentkey.cc] (the tagged int/string key),
    - [libfnord/net/http/httpconnection.cc] (the reference counted,
      callback driven HTTP connection),

    together with the properties the design document states about them. *)

From Stdlib.Strings Require Import String Byte.
From Stdlib Require Import ZArith List Bool Lia Arith.
Import ListNotations.

Open Scope string_scope.
Open Scope list_scope.

(* ===================================================================== *)
(** * documentkey.cc *)
(* ===================================================================== *)

Module DocumentKey.

Local Open Scope Z_scope.

(** [uint64_t]: a value [k] with [0 <= k < 2^64]. *)
Definition uint64_max : Z := 2 ^ 64.
Definition is_uint64 (k : Z) : Prop := 0 <= k < uint64_max.

(** The free store holding the [std::string] objects made by [new].
    An address is an index; a deleted cell is [None]. *)
Definition addr := nat.
Definition Heap := list (option string).

Definition new_string (s : string) (h : Heap) : addr * Heap :=
  (length h, h ++ [Some s]).

Definition deref (p : addr) (h : Heap) : option string :=
  match nth_error h p with
  | Some (Some s) => Some s
  | _ => None
  end.

Fixpoint delete_string (p : addr) (h : Heap) : Heap :=
  match h, p with
  | [], _ => []
  | _ :: t, O => None :: t
  | c :: t, S p' => c :: delete_string p' t
  end.

(** [union { uint64_t int_key; std::string* string_key; } key_] *)
Inductive key_union : Type :=
| int_key (k : Z)
| string_key (p : addr).

Record t : Type := mk {
  is_string_ : bool;
  key_ : key_union
}.

(** [DocumentKey::DocumentKey(uint64_t key)] *)
Definition of_int (key : Z) : t :=
  {| is_string_ := false; key_ := int_key key |}.

(** [DocumentKey::DocumentKey(const std::string& key)] *)
Definition of_string (key : string) (h : Heap) : t * Heap :=
  let (p, h') := new_string key h in
  ({| is_string_ := true; key_ := string_key p |}, h').

(** [DocumentKey::DocumentKey(const DocumentKey& copy)].
    [None]: the member of the union that is read is not the one that
    was written, or the string pointer does not point to a live string. *)
Definition copy (c : t) (h : Heap) : option (t * Heap) :=
  if is_string_ c then
    match key_ c with
    | string_key p =>
        match deref p h with
        | Some s =>
            let (q, h') := new_string s h in
            Some ({| is_string_ := true; key_ := string_key q |}, h')
        | None => None
        end
    | int_key _ => None
    end
  else
    match key_ c with
    | int_key k => Some ({| is_string_ := false; key_ := int_key k |}, h)
    | string_key _ => None
    end.

(** [DocumentKey::~DocumentKey()] *)
Definition destroy (d : t) (h : Heap) : option Heap :=
  if is_string_ d then
    match key_ d with
    | string_key p => Some (delete_string p h)
    | int_key _ => None
    end
  else Some h.

Definition isIntKey (d : t) : bool := negb (is_string_ d).

Definition isStringKey (d : t) : bool := is_string_ d.

(** [assert(is_string_ == false); return key_.int_key;]
    [None] is the failed assertion. *)
Definition getIntKey (d : t) : option Z :=
  if Bool.eqb (is_string_ d) false then
    match key_ d with
    | int_key k => Some k
    | string_key _ => None
    end
  else None.

(** [assert(is_string_ == true); return key_.string_key;] *)
Definition getStringKey (d : t) : option addr :=
  if Bool.eqb (is_string_ d) true then
    match key_ d with
    | string_key p => Some p
    | int_key _ => None
    end
  else None.

(** [*d.getStringKey()] *)
Definition getStringKey_contents (d : t) (h : Heap) : option string :=
  match getStringKey d with
  | Some p => deref p h
  | None => None
  end.

(** The keys the two public constructors (and copies of them) make:
    the tag agrees with the member of the union that was written. *)
Definition wf (d : t) (h : Heap) : Prop :=
  match is_string_ d, key_ d with
  | false, int_key k => is_uint64 k
  | true, string_key p => exists s, deref p h = Some s
  | _, _ => False
  end.

(** The number of strings the free store holds. *)
Definition live (h : Heap) : nat :=
  length (filter (fun c : option string =>
                    match c with Some _ => true | None => false end) h).

End DocumentKey.

(* ===================================================================== *)
(** * httpconnection.cc: data *)
(* ===================================================================== *)

Module HTTPConnection.

Local Open Scope Z_scope.

(** ** Collaborators declared outside this file *)

(** Modelled from the spec: the error kinds of [fnord::Exception]
    (fnord/base/exception.h is not part of the sources): transport, parse
    and illegal-state errors, the last under the name [RAISE] is given in
    [readRequestBody], and whatever else a handler may raise. *)
Inductive kExceptionType : Type :=
| kTransportError | kParseError | kIllegalStateError | kOtherError.

(** What is thrown: a [fnord::Exception], which [catch (Exception& e)]
    catches, or any other C++ exception, which it does not. *)
Inductive exn : Type :=
| Exception (type : kExceptionType)
| std_exception (what : string).

(** [HTTPMessage::kHTTPMethod]: an enumerator, by its name. *)
Definition kHTTPMethod : Type := string.

(** Modelled from the spec: [HTTPRequest] (its header is not part of the
    sources): method, URI, protocol version and the headers in insertion
    order, filled in by the parser callbacks. *)
Record HTTPRequest : Type := mkRequest {
  req_method : option kHTTPMethod;
  req_uri : string;
  req_version : string;
  req_headers : list (string * string)
}.

(** [new HTTPRequest()] *)
Definition new_HTTPRequest : HTTPRequest :=
  {| req_method := None; req_uri := ""; req_version := "";
     req_headers := [] |}.

Definition setMethod (m : kHTTPMethod) (r : HTTPRequest) : HTTPRequest :=
  {| req_method := Some m; req_uri := req_uri r;
     req_version := req_version r; req_headers := req_headers r |}.

Definition setURI (u : string) (r : HTTPRequest) : HTTPRequest :=
  {| req_method := req_method r; req_uri := u;
     req_version := req_version r; req_headers := req_headers r |}.

Definition setVersion (v : string) (r : HTTPRequest) : HTTPRequest :=
  {| req_method := req_method r; req_uri := req_uri r;
     req_version := v; req_headers := req_headers r |}.

Definition addHeader (k v : string) (r : HTTPRequest) : HTTPRequest :=
  {| req_method := req_method r; req_uri := req_uri r;
     req_version := req_version r;
     req_headers := req_headers r ++ [(k, v)] |}.

(** Modelled from the spec: [HTTPResponse]: status line, headers, body. *)
Record HTTPResponse : Type := mkResponse {
  resp_version : string;
  resp_status : nat;
  resp_reason : string;
  resp_headers : list (string * string);
  resp_body : list byte
}.

(** Modelled from the spec: [HTTPParser::kParserState] (the parser's header
    is not part of the sources), in the order
    METHOD, URI, VERSION, HEADER, BODY, DONE. *)
Inductive kParserState : Type :=
| S_METHOD | S_URI | S_VERSION | S_HEADER | S_BODY | S_DONE.

Definition state_index (s : kParserState) : nat :=
  match s with
  | S_METHOD => 0 | S_URI => 1 | S_VERSION => 2
  | S_HEADER => 3 | S_BODY => 4 | S_DONE => 5
  end%nat.

(** [a < b] on the enumeration. *)
Definition state_lt (a b : kParserState) : bool :=
  (state_index a <? state_index b)%nat.

(** Modelled from the spec: [Buffer] (fnord/base/buffer.h is not part of
    the sources): an allocated byte region [mem] (its length is the
    capacity), a logical size and a consumption mark. *)
Record Buffer : Type := mkBuffer {
  mem : list byte;
  size : nat;
  mark : nat
}.

Definition new_Buffer : Buffer := {| mem := []; size := 0; mark := 0 |}.

Definition allocSize (b : Buffer) : nat := length (mem b).

(** The bytes [[0, size)] of the buffer. *)
Definition data (b : Buffer) : list byte := firstn (size b) (mem b).

(** [reserve(n)]: capacity at least [n], content kept. *)
Definition reserve (n : nat) (b : Buffer) : Buffer :=
  {| mem := mem b ++ repeat x00 (n - length (mem b));
     size := size b; mark := mark b |}.

(** [clear()]: size = mark = 0, capacity kept. *)
Definition clear (b : Buffer) : Buffer :=
  {| mem := mem b; size := 0; mark := 0 |}.

Definition setMark (pos : nat) (b : Buffer) : Buffer :=
  {| mem := mem b; size := size b; mark := pos |}.

(** Raw store of [bs] at the start of the allocated region, as
    [conn_->read(buf_.data(), buf_.allocSize())] does. *)
Definition store (bs : list byte) (b : Buffer) : Buffer :=
  {| mem := bs ++ skipn (length bs) (mem b);
     size := size b; mark := mark b |}.

(** [BufferOutputStream::write]: append [bs] at [size], growing. *)
Definition append (bs : list byte) (b : Buffer) : Buffer :=
  {| mem := data b ++ bs ++ skipn (size b + length bs) (mem b);
     size := size b + length bs; mark := mark b |}.

(** The unconsumed region [[mark, size)] handed to the transport. *)
Definition unsent (b : Buffer) : list byte := skipn (mark b) (data b).

Scheme All for option.

(** ** Handlers and callbacks

    What a handler, or a completion callback it passes in, does with the
    connection: a sequence of calls of the public operations.  A
    [std::function<void()>] that may be empty is an [option Script]. *)
Inductive Script : Type :=
| SReturn
| SWriteResponse (resp : HTTPResponse) (ready_callback : option Script)
    (k : Script)
| SWriteResponseBody (chunk : list byte) (ready_callback : option Script)
    (k : Script)
| SFinishResponse (k : Script)
| SReadRequestBody (callback : list byte -> bool -> Script) (k : Script)
| SThrow (e : exn).

(** The two closures the connection stores in [on_read_completed_cb_]. *)
Inductive ReadCompletedCb : Type :=
| HeaderPhaseCb      (* the lambda of nextRequest *)
| ReadBodyChunkCb.   (* the lambda of readRequestBody *)

(** What the transport does on [conn_->read] and [conn_->write]. *)
Inductive TransportRead : Type :=
| ReadFails (e : exn)
| ReadBytes (bs : list byte).

Inductive WriteOutcome : Type :=
| WriteFails (e : exn)
| WriteAccepts (len : nat).

Definition TransportWrite : Type := list byte -> WriteOutcome.

(** What the parser does during one [parse] or [eof] call: the callbacks
    it fires, its state changes, and possibly a raised error. *)
Inductive ParserAction : Type :=
| POnMethod (m : kHTTPMethod)
| POnURI (u : string)
| POnVersion (v : string)
| POnHeader (k v : string)
| POnHeadersComplete
| PState (s : kParserState)
| PRaise (e : exn).

(** [net::TCPConnection], as far as the connection can tell: is it open. *)
Inductive TCPConnection : Type := Open | Closed.

(** The one-shot callbacks of this connection the scheduler holds. *)
Record TaskScheduler : Type := mkSched {
  readable : nat;   (* bound to read() *)
  writable : nat    (* bound to write() *)
}.

(** Everything observable from outside. *)
Inductive Event : Type :=
| EvIncRef
| EvDecRef (old : Z)
| EvDelete
| EvTransportRead (bs : list byte)
| EvTransportReadFailed
| EvTransportWrite (offered : list byte) (len : nat)
| EvTransportWriteFailed (offered : list byte)
| EvTransportClose
| EvRunOnReadable
| EvRunOnWritable
| EvParserReset
| EvParserEof
| EvParserParse (bs : list byte)
| EvHandleHTTPRequest
| EvReadCompleted
| EvWriteCompleted
| EvWriteCompletedReturn
| EvBodyChunk (bs : list byte) (last_chunk : bool).

(** The collaborators whose code is elsewhere, fixed for a run. *)
Record Collaborators : Type := mkExt {
  keepalive : HTTPRequest -> bool;        (* HTTPRequest::keepalive() *)
  generate : HTTPResponse -> list byte;   (* HTTPGenerator::generate *)
  kMinBufferSize : nat
}.

(** Modelled from the spec: [refcount_] is the atomic pending-operation
    count (its declaration is not part of the sources); taken as an
    unsigned 64 bit counter, which wraps around. *)
Definition refcount_modulus : Z := 2 ^ 64.

(** The connection object, the transport and scheduler it points to, and
    the ghost state: [freed] (has [delete this] run) and the [trace]. *)
Record World : Type := mkWorld {
  ext : Collaborators;
  handler_factory_ : option HTTPRequest -> Script;
  conn_ : TCPConnection;
  scheduler_ : TaskScheduler;
  parser_ : kParserState;
  cur_request_ : option HTTPRequest;
  cur_handler_ : option Script;
  buf_ : Buffer;
  body_buf_ : Buffer;
  on_read_completed_cb_ : option ReadCompletedCb;
  on_write_completed_cb_ : option Script;
  refcount_ : Z;
  freed : bool;
  trace : list Event
}.


(** ** Field updates *)

Definition with_conn_ (v : TCPConnection) (w : World) : World :=
  mkWorld (ext w) (handler_factory_ w) v (scheduler_ w) (parser_ w)
    (cur_request_ w) (cur_handler_ w) (buf_ w) (body_buf_ w)
    (on_read_completed_cb_ w) (on_write_completed_cb_ w) (refcount_ w)
    (freed w) (trace w).

Definition with_scheduler_ (v : TaskScheduler) (w : World) : World :=
  mkWorld (ext w) (handler_factory_ w) (conn_ w) v (parser_ w)
    (cur_request_ w) (cur_handler_ w) (buf_ w) (body_buf_ w)
    (on_read_completed_cb_ w) (on_write_completed_cb_ w) (refcount_ w)
    (freed w) (trace w).

Definition with_parser_ (v : kParserState) (w : World) : World :=
  mkWorld (ext w) (handler_factory_ w) (conn_ w) (scheduler_ w) v
    (cur_request_ w) (cur_handler_ w) (buf_ w) (body_buf_ w)
    (on_read_completed_cb_ w) (on_write_completed_cb_ w) (refcount_ w)
    (freed w) (trace w).

Definition with_cur_request_ (v : option HTTPRequest) (w : World) : World :=
  mkWorld (ext w) (handler_factory_ w) (conn_ w) (scheduler_ w) (parser_ w)
    v (cur_handler_ w) (buf_ w) (body_buf_ w)
    (on_read_completed_cb_ w) (on_write_completed_cb_ w) (refcount_ w)
    (freed w) (trace w).

Definition with_cur_handler_ (v : option Script) (w : World) : World :=
  mkWorld (ext w) (handler_factory_ w) (conn_ w) (scheduler_ w) (parser_ w)
    (cur_request_ w) v (buf_ w) (body_buf_ w)
    (on_read_completed_cb_ w) (on_write_completed_cb_ w) (refcount_ w)
    (freed w) (trace w).

Definition with_buf_ (v : Buffer) (w : World) : World :=
  mkWorld (ext w) (handler_factory_ w) (conn_ w) (scheduler_ w) (parser_ w)
    (cur_request_ w) (cur_handler_ w) v (body_buf_ w)
    (on_read_completed_cb_ w) (on_write_completed_cb_ w) (refcount_ w)
    (freed w) (trace w).

Definition with_body_buf_ (v : Buffer) (w : World) : World :=
  mkWorld (ext w) (handler_factory_ w) (conn_ w) (scheduler_ w) (parser_ w)
    (cur_request_ w) (cur_handler_ w) (buf_ w) v
    (on_read_completed_cb_ w) (on_write_completed_cb_ w) (refcount_ w)
    (freed w) (trace w).

Definition with_on_read_completed_cb_ (v : option ReadCompletedCb)
    (w : World) : World :=
  mkWorld (ext w) (handler_factory_ w) (conn_ w) (scheduler_ w) (parser_ w)
    (cur_request_ w) (cur_handler_ w) (buf_ w) (body_buf_ w)
    v (on_write_completed_cb_ w) (refcount_ w)
    (freed w) (trace w).

Definition with_on_write_completed_cb_ (v : option Script)
    (w : World) : World :=
  mkWorld (ext w) (handler_factory_ w) (conn_ w) (scheduler_ w) (parser_ w)
    (cur_request_ w) (cur_handler_ w) (buf_ w) (body_buf_ w)
    (on_read_completed_cb_ w) v (refcount_ w)
    (freed w) (trace w).

Definition with_refcount_ (v : Z) (w : World) : World :=
  mkWorld (ext w) (handler_factory_ w) (conn_ w) (scheduler_ w) (parser_ w)
    (cur_request_ w) (cur_handler_ w) (buf_ w) (body_buf_ w)
    (on_read_completed_cb_ w) (on_write_completed_cb_ w) v
    (freed w) (trace w).

Definition with_freed (v : bool) (w : World) : World :=
  mkWorld (ext w) (handler_factory_ w) (conn_ w) (scheduler_ w) (parser_ w)
    (cur_request_ w) (cur_handler_ w) (buf_ w) (body_buf_ w)
    (on_read_completed_cb_ w) (on_write_completed_cb_ w) (refcount_ w)
    v (trace w).

Definition with_trace (v : list Event) (w : World) : World :=
  mkWorld (ext w) (handler_factory_ w) (conn_ w) (scheduler_ w) (parser_ w)
    (cur_request_ w) (cur_handler_ w) (buf_ w) (body_buf_ w)
    (on_read_completed_cb_ w) (on_write_completed_cb_ w) (refcount_ w)
    (freed w) v.

(** ** The monad of the member functions

    A member function runs on a world and returns normally, leaves by an
    exception, or has no defined behaviour (it touched the object after
    [delete this], dereferenced a null [cur_request_], used the dangling
    reference of a stored closure, or the transport wrote past the
    buffer). *)
Inductive result (A : Type) : Type :=
| Ret (a : A) (w : World)
| Throw (e : exn) (w : World)
| Undefined.

Arguments Ret {A} a w.
Arguments Throw {A} e w.
Arguments Undefined {A}.

Definition M (A : Type) : Type := World -> result A.

Definition ret {A} (a : A) : M A := fun w => Ret a w.

Definition bind {A B} (m : M A) (k : A -> M B) : M B :=
  fun w =>
    match m w with
    | Ret a w' => k a w'
    | Throw e w' => Throw e w'
    | Undefined => Undefined
    end.

Definition throw {A} (e : exn) : M A := fun w => Throw e w.

Definition undefined {A} : M A := fun _ => Undefined.

(** [try { m } catch (Exception& e) { h }] *)
Definition try_catch {A} (m : M A) (h : kExceptionType -> M A) : M A :=
  fun w =>
    match m w with
    | Throw (Exception type) w' => h type w'
    | r => r
    end.

(** Read a member through [this]. *)
Definition this : M World :=
  fun w => if freed w then Undefined else Ret w w.

(** Write a member through [this]. *)
Definition update (f : World -> World) : M unit :=
  fun w => if freed w then Undefined else Ret tt (f w).

(** Ghost: extend the trace. *)
Definition emit (e : Event) : M unit :=
  fun w => Ret tt (with_trace (trace w ++ [e]) w).

(** The world the run ended in, when it is defined. *)
Definition final_world {A} (r : result A) : option World :=
  match r with
  | Ret _ w => Some w
  | Throw _ w => Some w
  | Undefined => None
  end.

Declare Scope conn_scope.
Delimit Scope conn_scope with conn.
Notation "x <- m ;; k" := (bind m (fun x => k))
  (at level 61, m at next level, right associativity) : conn_scope.
Notation "m ;; k" := (bind m (fun _ => k))
  (at level 61, right associativity) : conn_scope.
Local Open Scope conn_scope.


(** ** Collaborator calls *)

(** [log::Logger::get()->logf(...)], [logException], [iputs]: no effect
    on the connection. *)
Definition logf (msg : string) : M unit := ret tt.

(** [conn_->read(buf_.data(), buf_.allocSize())] *)
Definition conn_read (tr : TransportRead) : M nat :=
  w <- this ;;
  match tr with
  | ReadFails e => emit EvTransportReadFailed ;; throw e
  | ReadBytes bs =>
      if (length bs <=? allocSize (buf_ w))%nat then
        update (with_buf_ (store bs (buf_ w))) ;;
        emit (EvTransportRead bs) ;;
        ret (length bs)
      else undefined
  end.

(** [conn_->write(data, size)] *)
Definition conn_write (tw : TransportWrite) (offered : list byte) : M nat :=
  _ <- this ;;
  match tw offered with
  | WriteFails e => emit (EvTransportWriteFailed offered) ;; throw e
  | WriteAccepts len => emit (EvTransportWrite offered len) ;; ret len
  end.

(** [conn_->close()] *)
Definition conn_close : M unit :=
  update (with_conn_ Closed) ;; emit EvTransportClose.

(** [scheduler_->runOnReadable(std::bind(&HTTPConnection::read, this),
    *conn_)] *)
Definition runOnReadable : M unit :=
  w <- this ;;
  update (with_scheduler_
            {| readable := S (readable (scheduler_ w));
               writable := writable (scheduler_ w) |}) ;;
  emit EvRunOnReadable.

(** [scheduler_->runOnWritable(std::bind(&HTTPConnection::write, this),
    *conn_)] *)
Definition runOnWritable : M unit :=
  w <- this ;;
  update (with_scheduler_
            {| readable := readable (scheduler_ w);
               writable := S (writable (scheduler_ w)) |}) ;;
  emit EvRunOnWritable.

(** Modelled from the spec: [HTTPParser::reset] puts the parser back
    into its initial state [S_METHOD]. *)
Definition parser_reset : M unit :=
  update (with_parser_ S_METHOD) ;; emit EvParserReset.

(** [cur_request_->f(...)] *)
Definition on_cur_request (f : HTTPRequest -> HTTPRequest) : M unit :=
  w <- this ;;
  match cur_request_ w with
  | Some r => update (with_cur_request_ (Some (f r)))
  | None => undefined
  end.

(** ** Member functions, in dependency order *)

(** [refcount_++] *)
Definition incRef : M unit :=
  w <- this ;;
  update (with_refcount_ ((refcount_ w + 1) mod refcount_modulus)) ;;
  emit EvIncRef.

(** [delete this] *)
Definition delete_this : M unit :=
  update (with_freed true) ;;
  emit EvDelete.

Definition decRef : M bool :=
  w <- this ;;
  let old := refcount_ w in
  update (with_refcount_ ((old - 1) mod refcount_modulus)) ;;
  emit (EvDecRef old) ;;
  if old =? 1 then
    logf "HTTP connection free'd: $0" ;;
    delete_this ;;
    ret true
  else
    ret false.

Definition close : M unit :=
  logf "HTTP connection close: $0" ;;
  conn_close ;;
  _ <- decRef ;;
  ret tt.

Definition awaitRead : M unit :=
  incRef ;;
  runOnReadable.

Definition awaitWrite : M unit :=
  incRef ;;
  runOnWritable.

(** The lambda [nextRequest] stores in [on_read_completed_cb_]. *)
Definition header_phase_cb : M unit :=
  w <- this ;;
  if state_lt (parser_ w) S_BODY then awaitRead else ret tt.

Definition nextRequest : M unit :=
  parser_reset ;;
  update (with_cur_request_ (Some new_HTTPRequest)) ;;
  update (with_on_write_completed_cb_ None) ;;
  update (with_on_read_completed_cb_ (Some HeaderPhaseCb)) ;;
  awaitRead.

(** The lambda [read_body_chunk] of [readRequestBody].  It captures the
    parameter [callback] by reference: [callback = None] is the closure
    invoked after [readRequestBody] has returned, when that reference
    dangles. *)
Definition read_body_chunk
    (callback : option (list byte -> bool -> M unit)) : M unit :=
  w <- this ;;
  last_chunk <-
    match parser_ w with
    | S_METHOD | S_URI | S_VERSION | S_HEADER =>
        throw (Exception kIllegalStateError)
    | S_BODY => ret false
    | S_DONE => ret true
    end ;;
  logf "readbody state=$0 last=$1" ;;
  match callback with
  | Some f =>
      w <- this ;;
      emit (EvBodyChunk (data (body_buf_ w)) last_chunk) ;;
      f (data (body_buf_ w)) last_chunk
  | None => undefined
  end ;;
  if negb last_chunk then
    w <- this ;;
    update (with_body_buf_ (clear (body_buf_ w))) ;;
    awaitRead
  else ret tt.

Definition readRequestBody (callback : list byte -> bool -> M unit)
    : M unit :=
  update (with_on_read_completed_cb_ (Some ReadBodyChunkCb)) ;;
  read_body_chunk (Some callback).

Definition writeResponse (resp : HTTPResponse)
    (ready_callback : option Script) : M unit :=
  w <- this ;;
  update (with_buf_ (clear (buf_ w))) ;;
  w <- this ;;
  update (with_buf_ (append (generate (ext w) resp) (buf_ w))) ;;
  update (with_on_write_completed_cb_ ready_callback) ;;
  awaitWrite.

(** The body of this member function is empty. *)
Definition writeResponseBody (chunk : list byte)
    (ready_callback : option Script) : M unit :=
  ret tt.

Definition finishResponse : M unit :=
  w <- this ;;
  match cur_request_ w with
  | None => undefined
  | Some r =>
      if keepalive (ext w) r then nextRequest else close
  end.

(** A handler or callback at work. *)
Fixpoint run_script (s : Script) : M unit :=
  match s with
  | SReturn => ret tt
  | SWriteResponse resp ready_callback k =>
      writeResponse resp ready_callback ;; run_script k
  | SWriteResponseBody chunk ready_callback k =>
      writeResponseBody chunk ready_callback ;; run_script k
  | SFinishResponse k =>
      finishResponse ;; run_script k
  | SReadRequestBody callback k =>
      readRequestBody (fun bs last => run_script (callback bs last)) ;;
      run_script k
  | SThrow e => throw e
  end.

Definition dispatchRequest : M unit :=
  w <- this ;;
  let handler := handler_factory_ w (cur_request_ w) in
  update (with_cur_handler_ (Some handler)) ;;
  emit EvHandleHTTPRequest ;;
  run_script handler.

(** The parser at work: the callbacks registered in the constructor
    ([onMethod], [onURI], [onVersion], [onHeader], [onHeadersComplete])
    are fired as the parser decides. *)
Definition parser_action (a : ParserAction) : M unit :=
  match a with
  | POnMethod m => on_cur_request (setMethod m)
  | POnURI u => on_cur_request (setURI u)
  | POnVersion v => on_cur_request (setVersion v)
  | POnHeader k v => on_cur_request (addHeader k v)
  | POnHeadersComplete => dispatchRequest
  | PState s => update (with_parser_ s)
  | PRaise e => throw e
  end.

Fixpoint parser_actions (po : list ParserAction) : M unit :=
  match po with
  | [] => ret tt
  | a :: po' => parser_action a ;; parser_actions po'
  end.

(** [parser_.parse((char* ) buf_.data(), len)] *)
Definition parser_parse (bs : list byte) (po : list ParserAction) : M unit :=
  _ <- this ;;
  emit (EvParserParse bs) ;;
  parser_actions po.

(** [parser_.eof()] *)
Definition parser_eof (po : list ParserAction) : M unit :=
  _ <- this ;;
  emit EvParserEof ;;
  parser_actions po.

(** [on_read_completed_cb_()] *)
Definition invoke_read_completed (cb : ReadCompletedCb) : M unit :=
  match cb with
  | HeaderPhaseCb => header_phase_cb
  | ReadBodyChunkCb => read_body_chunk None
  end.

Definition read (tr : TransportRead) (po : list ParserAction) : M unit :=
  r <- try_catch
         (len <- conn_read tr ;; ret (Some len))
         (fun e =>
            logf "HTTP read() failed, closing connection" ;;
            close ;;
            ret None) ;;
  match r with
  | None => ret tt
  | Some len =>
      go_on <- try_catch
                 (if (len =? 0)%nat then
                    parser_eof po ;;
                    close ;;
                    ret false
                  else
                    w <- this ;;
                    parser_parse (firstn len (mem (buf_ w))) po ;;
                    ret true)
                 (fun e =>
                    logf "HTTP parse error, closing connection" ;;
                    close ;;
                    ret false) ;;
      if go_on : bool then
        w <- this ;;
        match on_read_completed_cb_ w with
        | Some cb => emit EvReadCompleted ;; invoke_read_completed cb
        | None => ret tt
        end ;;
        _ <- decRef ;;
        ret tt
      else ret tt
  end.

Definition write (tw : TransportWrite) : M unit :=
  w <- this ;;
  let offered := unsent (buf_ w) in
  r <- try_catch
         (len <- conn_write tw offered ;; ret (Some len))
         (fun e =>
            logf "HTTP write() failed, closing connection" ;;
            close ;;
            ret None) ;;
  match r with
  | None => ret tt
  | Some len =>
      w <- this ;;
      (if (mark (buf_ w) + len <? size (buf_ w))%nat then
         update (with_buf_ (setMark (mark (buf_ w) + len) (buf_ w))) ;;
         awaitWrite
       else
         update (with_buf_ (clear (buf_ w))) ;;
         w <- this ;;
         match on_write_completed_cb_ w with
         | Some cb =>
             emit EvWriteCompleted ;;
             run_script cb ;;
             emit EvWriteCompletedReturn
         | None => ret tt
         end) ;;
      _ <- decRef ;;
      ret tt
  end.

(** [HTTPConnection::HTTPConnection]; the parser callbacks it registers
    are the cases of [parser_action]. *)
Definition new_HTTPConnection (e : Collaborators)
    (handler_factory : option HTTPRequest -> Script)
    (conn : TCPConnection) (scheduler : TaskScheduler) : World :=
  {| ext := e;
     handler_factory_ := handler_factory;
     conn_ := conn;
     scheduler_ := scheduler;
     parser_ := S_METHOD;
     cur_request_ := None;
     cur_handler_ := None;
     buf_ := reserve (kMinBufferSize e) new_Buffer;
     body_buf_ := new_Buffer;
     on_read_completed_cb_ := None;
     on_write_completed_cb_ := None;
     refcount_ := 1;
     freed := false;
     trace := [] |}.

Definition start (e : Collaborators)
    (handler_factory : option HTTPRequest -> Script)
    (conn : TCPConnection) (scheduler : TaskScheduler) : result unit :=
  nextRequest (new_HTTPConnection e handler_factory conn scheduler).

(** ** The scheduler

    One readiness notification: the scheduler runs a registered one-shot
    callback, with what the transport and the parser do during it.  A
    notification nothing is registered for is dropped. *)
Inductive Readiness : Type :=
| Readable (tr : TransportRead) (po : list ParserAction)
| Writable (tw : TransportWrite).

Definition step (i : Readiness) : M unit :=
  fun w =>
    let s := scheduler_ w in
    match i with
    | Readable tr po =>
        match readable s with
        | O => Ret tt w
        | S n =>
            read tr po
              (with_scheduler_ {| readable := n; writable := writable s |} w)
        end
    | Writable tw =>
        match writable s with
        | O => Ret tt w
        | S n =>
            write tw
              (with_scheduler_ {| readable := readable s; writable := n |} w)
        end
    end.

Fixpoint run (inputs : list Readiness) : M unit :=
  match inputs with
  | [] => ret tt
  | i :: rest => step i ;; run rest
  end.

(** A whole life: [start], then the notifications. *)
Definition lifetime (e : Collaborators)
    (handler_factory : option HTTPRequest -> Script)
    (inputs : list Readiness) : result unit :=
  match start e handler_factory Open {| readable := 0; writable := 0 |} with
  | Ret _ w => run inputs w
  | r => r
  end.

(** ** Observations on traces and runs *)

Definition is_incRef (e : Event) : bool :=
  match e with EvIncRef => true | _ => false end.

Definition is_decRef (e : Event) : bool :=
  match e with EvDecRef _ => true | _ => false end.

Definition is_delete (e : Event) : bool :=
  match e with EvDelete => true | _ => false end.

Definition is_transport_close (e : Event) : bool :=
  match e with EvTransportClose => true | _ => false end.

Definition is_transport_write (e : Event) : bool :=
  match e with EvTransportWrite _ _ => true | _ => false end.

Definition is_read_completed (e : Event) : bool :=
  match e with EvReadCompleted => true | _ => false end.

Definition is_write_completed (e : Event) : bool :=
  match e with EvWriteCompleted => true | _ => false end.

Definition is_body_chunk (e : Event) : bool :=
  match e with EvBodyChunk _ _ => true | _ => false end.

(** The events only [read] and [write] emit: a completion callback is
    entered or left. *)
Definition is_completion (e : Event) : bool :=
  match e with
  | EvReadCompleted | EvWriteCompleted | EvWriteCompletedReturn => true
  | _ => false
  end.

(** Neither a reference count event nor a completion event. *)
Definition plain (e : Event) : bool :=
  match e with
  | EvIncRef | EvDecRef _ | EvDelete => false
  | _ => negb (is_completion e)
  end.

Definition count (p : Event -> bool) (evs : list Event) : nat :=
  length (filter p evs).

(** Every [delete this] in the trace comes right after a [decRef] that
    fetched 1, and every such [decRef] is followed by it. *)
Fixpoint deleted_at_zero (evs : list Event) : bool :=
  match evs with
  | [] => true
  | EvDecRef old :: rest =>
      if old =? 1 then
        match rest with
        | EvDelete :: rest' => deleted_at_zero rest'
        | _ => false
        end
      else deleted_at_zero rest
  | EvDelete :: _ => false
  | _ :: rest => deleted_at_zero rest
  end.

(** The events of [write] itself: those between the entry and the return
    of the write-completion callback are dropped. *)
Fixpoint outside_callback (inside : bool) (evs : list Event) : list Event :=
  match evs with
  | [] => []
  | EvWriteCompleted :: rest => outside_callback true rest
  | EvWriteCompletedReturn :: rest => outside_callback false rest
  | e :: rest =>
      if inside then outside_callback inside rest
      else e :: outside_callback inside rest
  end.

(** The byte stream the transport took, in order. *)
Definition sent (evs : list Event) : list byte :=
  flat_map (fun e => match e with
                     | EvTransportWrite offered len => firstn len offered
                     | _ => []
                     end) evs.

(** The lengths the transport took, write by write. *)
Definition write_lengths (evs : list Event) : list nat :=
  flat_map (fun e => match e with
                     | EvTransportWrite _ len => [len]
                     | _ => []
                     end) evs.

Definition not_completion (e : Event) : bool := negb (is_completion e).

(** [m] relates the world it starts in to the one it ends in by [R],
    however it ends. *)
Definition respects {A} (R : World -> World -> Prop) (m : M A) : Prop :=
  forall w,
    match m w with
    | Ret _ w' => R w w'
    | Throw _ w' => R w w'
    | Undefined => True
    end.

(** The trace grew by events that all satisfy [p]. *)
Definition extends (p : Event -> bool) (w w' : World) : Prop :=
  exists evs, trace w' = trace w ++ evs /\ forallb p evs = true.

(** The reference count discipline, as far as it holds in every
    reachable world. *)
Definition refcount_invariant (w : World) : Prop :=
  deleted_at_zero (trace w) = true /\
  count is_delete (trace w) = (if freed w then 1 else 0)%nat /\
  (Z.of_nat (count is_incRef (trace w)) < refcount_modulus - 1 ->
   if freed w then
     (count is_decRef (trace w) = S (count is_incRef (trace w)))
   else
     (refcount_ w = 1 + Z.of_nat (count is_incRef (trace w))
                      - Z.of_nat (count is_decRef (trace w)) /\
      1 <= refcount_ w)).

Definition keeps_invariant (w w' : World) : Prop :=
  refcount_invariant w -> refcount_invariant w'.

(** ** A sequence of writes accepted by the transport *)

(** [lens] flushes [remaining] bytes: every write but the last takes
    some, not all, of what is left, and the last takes all of it. *)
Fixpoint flushes (remaining : nat) (lens : list nat) : bool :=
  match lens with
  | [] => false
  | [len] => (0 <? len)%nat && (len =? remaining)%nat
  | len :: rest =>
      (0 <? len)%nat && (len <? remaining)%nat
      && flushes (remaining - len) rest
  end.

(** A transport that takes exactly [len] bytes. *)
Definition accepts (len : nat) : TransportWrite :=
  fun _ => WriteAccepts len.

(** A transport that takes at most [n] bytes per call. *)
Definition accept_at_most (n : nat) : TransportWrite :=
  fun offered => WriteAccepts (Nat.min n (length offered)).

(** [mark <= size <= capacity] *)
Definition buffer_ok (b : Buffer) : Prop :=
  (mark b <= size b)%nat /\ (size b <= allocSize b)%nat.

(** The world after a [write] of which the transport took [len] bytes,
    fewer than were left: the mark has advanced by [len], the count went
    up (for the new [awaitWrite]) and down again, and a writable callback
    is registered. *)
Definition partially_written (len : nat) (w : World) : World :=
  with_scheduler_
    {| readable := readable (scheduler_ w);
       writable := S (writable (scheduler_ w)) |}
    (with_buf_ (setMark (mark (buf_ w) + len) (buf_ w))
       (with_trace
          (trace w ++
           [EvTransportWrite (unsent (buf_ w)) len;
            EvIncRef; EvRunOnWritable;
            EvDecRef ((refcount_ w + 1) mod refcount_modulus)])
          w)).

(** The world after the transport took all that was left, at the point
    where the buffer has been cleared. *)
Definition fully_written (len : nat) (w : World) : World :=
  with_buf_ (clear (buf_ w))
    (with_trace (trace w ++ [EvTransportWrite (unsent (buf_ w)) len]) w).

(** The scheduler took one writable callback to run it. *)
Definition writable_taken (w : World) : World :=
  with_scheduler_
    {| readable := readable (scheduler_ w);
       writable := pred (writable (scheduler_ w)) |} w.

(** Notifications for a list of accepted lengths. *)
Definition writes (lens : list nat) : list Readiness :=
  map (fun len => Writable (accepts len)) lens.

(** The world after an [awaitRead]. *)
Definition read_armed (w : World) : World :=
  with_trace (trace w ++ [EvIncRef; EvRunOnReadable])
    (with_scheduler_
       {| readable := S (readable (scheduler_ w));
          writable := writable (scheduler_ w) |}
       (with_refcount_ ((refcount_ w + 1) mod refcount_modulus) w)).

(** The world after an [awaitWrite]. *)
Definition write_armed (w : World) : World :=
  with_trace (trace w ++ [EvIncRef; EvRunOnWritable])
    (with_scheduler_
       {| readable := readable (scheduler_ w);
          writable := S (writable (scheduler_ w)) |}
       (with_refcount_ ((refcount_ w + 1) mod refcount_modulus) w)).

(** The world [nextRequest] has made when it calls [awaitRead]. *)
Definition request_prepared (w : World) : World :=
  with_on_read_completed_cb_ (Some HeaderPhaseCb)
    (with_on_write_completed_cb_ None
       (with_cur_request_ (Some new_HTTPRequest)
          (with_trace (trace w ++ [EvParserReset])
             (with_parser_ S_METHOD w)))).

(** The world after a [decRef]. *)
Definition released (w : World) : World :=
  let old := refcount_ w in
  let w1 := with_refcount_ ((old - 1) mod refcount_modulus) w in
  if old =? 1 then
    with_trace (trace w ++ [EvDecRef old; EvDelete])
      (with_freed true w1)
  else
    with_trace (trace w ++ [EvDecRef old]) w1.

(** The world after a [close]. *)
Definition closed (w : World) : World :=
  released (with_trace (trace w ++ [EvTransportClose]) (with_conn_ Closed w)).

(** ** The paths of [read] that end in [close] *)

(** The world once the transport has delivered [bs]. *)
Definition after_read (bs : list byte) (w : World) : World :=
  with_trace (trace w ++ [EvTransportRead bs])
    (with_buf_ (store bs (buf_ w)) w).

(** [read_fails tr po w w2]: started in [w], [read] meets a transport
    error, a closed peer or a parse error; [w2] is the world in which it
    then turns to [close]. *)
Inductive read_fails :
  TransportRead -> list ParserAction -> World -> World -> Prop :=
| transport_error (t : kExceptionType) po w :
    read_fails (ReadFails (Exception t)) po w
      (with_trace (trace w ++ [EvTransportReadFailed]) w)
| peer_closed po w w2 :
    parser_eof po (after_read [] w) = Ret tt w2 ->
    read_fails (ReadBytes []) po w w2
| peer_closed_eof_raises po w (t : kExceptionType) w2 :
    parser_eof po (after_read [] w) = Throw (Exception t) w2 ->
    read_fails (ReadBytes []) po w w2
| parse_error bs po w (t : kExceptionType) w2 :
    bs <> [] ->
    (length bs <= allocSize (buf_ w))%nat ->
    parser_parse bs po (after_read bs w) = Throw (Exception t) w2 ->
    read_fails (ReadBytes bs) po w w2.

(** What is left of the last [write] of a flush once the buffer is
    cleared: the completion callback, then [decRef]. *)
Definition write_completion : M unit :=
  w <- this ;;
  match on_write_completed_cb_ w with
  | Some cb =>
      emit EvWriteCompleted ;;
      run_script cb ;;
      emit EvWriteCompletedReturn
  | None => ret tt
  end ;;
  _ <- decRef ;;
  ret tt.

(** What is left of a [read] once the bytes are parsed: the
    read-completion callback, then [decRef]. *)
Definition read_completion : M unit :=
  w <- this ;;
  match on_read_completed_cb_ w with
  | Some cb => emit EvReadCompleted ;; invoke_read_completed cb
  | None => ret tt
  end ;;
  _ <- decRef ;;
  ret tt.

(** ** The request in the making *)

(** What the parser callback the constructor registered for [a] does to
    the current request. *)
Definition fill (a : ParserAction) (r : HTTPRequest) : HTTPRequest :=
  match a with
  | POnMethod m => setMethod m r
  | POnURI u => setURI u r
  | POnVersion v => setVersion v r
  | POnHeader k v => addHeader k v r
  | POnHeadersComplete | PState _ | PRaise _ => r
  end.

Definition assemble (po : list ParserAction) (r : HTTPRequest)
    : HTTPRequest :=
  fold_left (fun r a => fill a r) po r.

(** The parser state [po] ends in, started in [s]. *)
Definition state_after (po : list ParserAction) (s : kParserState)
    : kParserState :=
  fold_left (fun s a => match a with PState s' => s' | _ => s end) po s.

(** The parser fires a request callback or changes its state: it makes
    no handler and raises nothing. *)
Definition request_action (a : ParserAction) : bool :=
  match a with
  | POnHeadersComplete | PRaise _ => false
  | _ => true
  end.

(** The parser is in the header: it fires the request callbacks and
    moves between the states before [S_BODY]. *)
Definition header_action (a : ParserAction) : bool :=
  match a with
  | POnMethod _ | POnURI _ | POnVersion _ | POnHeader _ _ => true
  | PState s => state_lt s S_BODY
  | POnHeadersComplete | PRaise _ => false
  end.

(** The world with the request [r] and the parser in state [s]. *)
Definition parsed (s : kParserState) (r : HTTPRequest) (w : World) : World :=
  with_parser_ s (with_cur_request_ (Some r) w).

(** Notifications for a request that arrives in pieces. *)
Definition reads (pieces : list (list byte * list ParserAction))
    : list Readiness :=
  map (fun p => Readable (ReadBytes (fst p)) (snd p)) pieces.

(** A piece the receive buffer of [w] can take, parsed within the
    header. *)
Definition header_piece (w : World) (p : list byte * list ParserAction)
    : Prop :=
  fst p <> [] /\ (length (fst p) <= allocSize (buf_ w))%nat /\
  forallb header_action (snd p) = true.

(** The world after a [read] in the header phase that took [bs] and
    left the parser before [S_BODY]: the request is filled in further,
    the count went up (for the new [awaitRead]) and down again, and the
    readable callback the scheduler took is registered anew. *)
Definition piece_read (bs : list byte) (po : list ParserAction)
    (r : HTTPRequest) (w : World) : World :=
  with_trace
    (trace w ++
     [EvTransportRead bs; EvParserParse bs; EvReadCompleted;
      EvIncRef; EvRunOnReadable;
      EvDecRef ((refcount_ w + 1) mod refcount_modulus)])
    (parsed (state_after po (parser_ w)) (assemble po r)
       (with_buf_ (store bs (buf_ w)) w)).

(** The world in which the handler starts to run, when the headers are
    complete after the bytes [bs] and the header callbacks [hpo]. *)
Definition dispatching (bs : list byte) (hpo : list ParserAction)
    (r : HTTPRequest) (w : World) : World :=
  with_trace
    (trace w ++ [EvTransportRead bs; EvParserParse bs; EvHandleHTTPRequest])
    (with_cur_handler_
       (Some (handler_factory_ w (Some (assemble hpo r))))
       (parsed (state_after hpo (parser_ w)) (assemble hpo r)
          (with_buf_ (store bs (buf_ w)) w))).

(** The world after [writeResponse]. *)
Definition response_buffered (resp : HTTPResponse)
    (ready_callback : option Script) (w : World) : World :=
  with_trace (trace w ++ [EvIncRef; EvRunOnWritable])
    (with_scheduler_
       {| readable := readable (scheduler_ w);
          writable := S (writable (scheduler_ w)) |}
       (with_refcount_ ((refcount_ w + 1) mod refcount_modulus)
          (with_on_write_completed_cb_ ready_callback
             (with_buf_ (append (generate (ext w) resp) (clear (buf_ w)))
                w)))).

(** The world after the [read] in which the request was completed and
    its handler answered at once with [writeResponse resp cb]: the
    response is buffered and a write is armed; the count went up for that
    write and down for this read. *)
Definition request_answered (bs : list byte) (hpo rest : list ParserAction)
    (resp : HTTPResponse) (cb : option Script) (r : HTTPRequest)
    (w : World) : World :=
  let wd := response_buffered resp cb (dispatching bs hpo r w) in
  with_trace
    (trace wd ++
     [EvReadCompleted; EvDecRef (refcount_ wd)])
    (parsed (state_after (hpo ++ rest) (parser_ w))
       (assemble (hpo ++ rest) r)
       (with_buf_ (buf_ wd)
          (with_on_write_completed_cb_ cb
             (with_scheduler_ (scheduler_ wd)
                (with_cur_handler_ (cur_handler_ wd) w))))).

(** What a flush leaves as it found it. *)
Definition flush_frame (w w1 : World) : Prop :=
  ext w1 = ext w /\ handler_factory_ w1 = handler_factory_ w /\
  conn_ w1 = conn_ w /\
  readable (scheduler_ w1) = readable (scheduler_ w) /\
  parser_ w1 = parser_ w /\ cur_request_ w1 = cur_request_ w /\
  cur_handler_ w1 = cur_handler_ w /\
  on_read_completed_cb_ w1 = on_read_completed_cb_ w.

(** ** Exchanges on a connection that is kept alive *)

(** One exchange as the connection sees it: the bytes of the request,
    what the parser does with them before and after the headers are
    complete, the response the handler gives, and the lengths the
    transport takes of it, write by write. *)
Record Exchange : Type := mkExchange {
  x_bytes : list byte;
  x_head : list ParserAction;
  x_rest : list ParserAction;
  x_resp : HTTPResponse;
  x_lens : list nat
}.

(** The notifications of an exchange: one read, then the writes. *)
Definition exchange (x : Exchange) : list Readiness :=
  Readable (ReadBytes (x_bytes x)) (x_head x ++ POnHeadersComplete :: x_rest x)
  :: writes (x_lens x).

(** The connection waits for a request, as [nextRequest] leaves it. *)
Definition idle (w : World) : Prop :=
  freed w = false /\
  0 < refcount_ w < refcount_modulus - 1 /\
  (0 < readable (scheduler_ w))%nat /\
  on_read_completed_cb_ w = Some HeaderPhaseCb /\
  cur_request_ w = Some new_HTTPRequest /\
  parser_ w = S_METHOD.

(** The exchange [x] is one the connection [w] serves and outlives: the
    request fits the buffer and is parsed to the end of its headers or
    further; its handler answers at once with [writeResponse] and finishes
    the response when that is flushed; the transport takes the response in
    pieces that add up; and the request asks to keep the connection. *)
Definition kept_alive (w : World) (x : Exchange) : Prop :=
  x_bytes x <> [] /\
  (length (x_bytes x) <= allocSize (buf_ w))%nat /\
  forallb request_action (x_head x) = true /\
  forallb request_action (x_rest x) = true /\
  state_lt (state_after (x_head x ++ x_rest x) S_METHOD) S_BODY = false /\
  handler_factory_ w (Some (assemble (x_head x) new_HTTPRequest))
  = SWriteResponse (x_resp x) (Some (SFinishResponse SReturn)) SReturn /\
  flushes (length (generate (ext w) (x_resp x))) (x_lens x) = true /\
  keepalive (ext w) (assemble (x_head x ++ x_rest x) new_HTTPRequest) = true.

(** ** What holds in every state a connection passes through *)

(** How a run that started in [w] ended, if its behaviour is defined. *)
Definition outcome {A} (R : World -> World -> Prop) (w : World)
    (r : result A) : Prop :=
  match r with
  | Ret _ w' => R w w'
  | Throw _ w' => R w w'
  | Undefined => True
  end.

(** Callbacks registered with the scheduler and not yet run. *)
Definition pending (w : World) : nat :=
  (readable (scheduler_ w) + writable (scheduler_ w))%nat.

(** References taken and transport closes, less references released and
    callbacks pending. *)
Definition slack (w : World) : Z :=
  Z.of_nat (count is_incRef (trace w))
  + Z.of_nat (count is_transport_close (trace w))
  - Z.of_nat (count is_decRef (trace w))
  - Z.of_nat (pending w).

Definition slack_kept (w w' : World) : Prop := slack w <= slack w'.

(** [read] and [write] release the reference of the callback that ran
    them. *)
Definition slack_released (w w' : World) : Prop := slack w - 1 <= slack w'.

(** The pointers the member functions go through are set. *)
Definition request_present (w : World) : Prop :=
  cur_request_ w <> None /\ on_read_completed_cb_ w <> None.

(** The buffer shared by [read] and [write] is in order and has not
    shrunk below its initial capacity. *)
Definition buffer_bounds (w : World) : Prop :=
  buffer_ok (buf_ w) /\ (kMinBufferSize (ext w) <= allocSize (buf_ w))%nat.

Definition keeps (P : World -> Prop) (w w' : World) : Prop := P w -> P w'.

End HTTPConnection.

(* ===================================================================== *)
(** * Concrete runs *)
(* ===================================================================== *)

Module Scenario.

Import HTTPConnection.

Definition ten_bytes : list byte := list_byte_of_string "0123456789".

Definition response : HTTPResponse :=
  {| resp_version := "HTTP/1.1"; resp_status := 200; resp_reason := "OK";
     resp_headers := []; resp_body := ten_bytes |}.

(** A generator stub that writes the body only, so that the write
    buffer holds exactly the ten bytes. *)
Definition collaborators (keep_alive : bool) : Collaborators :=
  {| keepalive := fun _ => keep_alive;
     generate := resp_body;
     kMinBufferSize := 64 |}.

(** The handler answers at once; when the response is flushed it
    finishes it. *)
Definition handler : option HTTPRequest -> Script :=
  fun _ => SWriteResponse response (Some (SFinishResponse SReturn)) SReturn.

Definition crlf : list byte := [x0d; x0a].

(** [GET /x HTTP/1.1\r\nHost: a\r\n\r\n] *)
Definition request_bytes : list byte :=
  list_byte_of_string "GET /x HTTP/1.1" ++ crlf ++
  list_byte_of_string "Host: a" ++ crlf ++ crlf.

Definition request_parse : list ParserAction :=
  [ PState S_URI; POnMethod "GET";
    PState S_VERSION; POnURI "/x";
    PState S_HEADER; POnVersion "HTTP/1.1";
    POnHeader "Host" "a";
    PState S_BODY; POnHeadersComplete;
    PState S_DONE ].

(** One request, answered in one write, no keep-alive. *)
Definition one_request : list Readiness :=
  [ Readable (ReadBytes request_bytes) request_parse;
    Writable (accept_at_most 64) ].

(** The peer closes before sending anything. *)
Definition peer_closes : list Readiness :=
  [ Readable (ReadBytes []) [] ].

(** One request, answered through a transport that takes at most four
    bytes per call; two more notifications than writes are needed. *)
Definition slow_transport : list Readiness :=
  [ Readable (ReadBytes request_bytes) request_parse;
    Writable (accept_at_most 4); Writable (accept_at_most 4);
    Writable (accept_at_most 4); Writable (accept_at_most 4);
    Writable (accept_at_most 4) ].

(** The world in which the response has been buffered and the first
    write is armed. *)
Definition response_armed : World :=
  match
    lifetime (collaborators false) handler
      [ Readable (ReadBytes request_bytes) request_parse ]
  with
  | Ret _ w => w
  | _ => new_HTTPConnection (collaborators false) handler Open
           {| readable := 0; writable := 0 |}
  end.

(** A handler that streams its body with [writeResponseBody]. *)
Definition body_handler : option HTTPRequest -> Script :=
  fun _ =>
    SWriteResponseBody ten_bytes (Some (SFinishResponse SReturn)) SReturn.

Definition one_read : list Readiness :=
  [ Readable (ReadBytes request_bytes) request_parse ].

(** The connection as [start] leaves it. *)
Definition started (keep_alive : bool) : World :=
  match start (collaborators keep_alive) handler Open
          {| readable := 0; writable := 0 |} with
  | Ret _ w => w
  | _ => new_HTTPConnection (collaborators keep_alive) handler Open
           {| readable := 0; writable := 0 |}
  end.

(** The connection with a parsed request whose response is complete. *)
Definition answered (keep_alive : bool) : World :=
  with_parser_ S_DONE
    (with_cur_request_
       (Some (addHeader "Host" "a"
                (setVersion "HTTP/1.1"
                   (setURI "/x" (setMethod "GET" new_HTTPRequest)))))
       (started keep_alive)).

(** The connection as [start] leaves it, for any handler factory. *)
Definition started_with (handler_factory : option HTTPRequest -> Script)
    : World :=
  match start (collaborators false) handler_factory Open
          {| readable := 0; writable := 0 |} with
  | Ret _ w => w
  | _ => new_HTTPConnection (collaborators false) handler_factory Open
           {| readable := 0; writable := 0 |}
  end.

(** A handler that asks for the request body and takes each chunk. *)
Definition upload_handler : option HTTPRequest -> Script :=
  fun _ => SReadRequestBody (fun _ _ => SReturn) SReturn.

(** A handler that fails. *)
Definition failing_handler : option HTTPRequest -> Script :=
  fun _ => SThrow (Exception kOtherError).

(** The request head, up to the end of the headers. *)
Definition head_parse : list ParserAction :=
  [ PState S_URI; POnMethod "GET";
    PState S_VERSION; POnURI "/x";
    PState S_HEADER; POnVersion "HTTP/1.1";
    POnHeader "Host" "a" ].

(** The request of [request_bytes], parsed as [request_parse] does, and
    answered through a transport that takes at most four bytes. *)
Definition get_x : Exchange :=
  {| x_bytes := request_bytes;
     x_head := head_parse ++ [PState S_BODY];
     x_rest := [PState S_DONE];
     x_resp := response;
     x_lens := [4; 4; 2]%nat |}.

End Scenario.

(* ===================================================================== *)
(** * documentkey.cc: properties *)
(* ===================================================================== *)

Section DocumentKeyFacts.

Import DocumentKey.
Local Open Scope Z_scope.

Lemma deref_new_string (s : string) (h : Heap) :
  deref (fst (new_string s h)) (snd (new_string s h)) = Some s.
Proof.
  unfold deref, new_string; simpl.
  rewrite nth_error_app2 by lia.
  now rewrite Nat.sub_diag.
Qed.

Lemma deref_new_string_old (s : string) (h : Heap) (p : addr) (s' : string) :
  deref p h = Some s' -> deref p (snd (new_string s h)) = Some s'.
Proof.
  unfold deref, new_string; simpl.
  destruct (nth_error h p) as [c|] eqn:E; [|discriminate].
  intros H.
  rewrite nth_error_app1 by (apply nth_error_Some; congruence).
  now rewrite E.
Qed.

Lemma new_string_fresh (s : string) (h : Heap) (p : addr) (s' : string) :
  deref p h = Some s' -> fst (new_string s h) <> p.
Proof.
  unfold deref, new_string; simpl.
  destruct (nth_error h p) as [c|] eqn:E; [|discriminate].
  intros _ Hp; subst p.
  assert (nth_error h (length h) = None) by (apply nth_error_None; lia).
  congruence.
Qed.

(** Both public constructors make well-formed keys. *)
Lemma of_int_wf (k : Z) (h : Heap) : is_uint64 k -> wf (of_int k) h.
Proof. intros H; exact H. Qed.

Lemma of_string_wf (s : string) (h : Heap) :
  wf (fst (of_string s h)) (snd (of_string s h)).
Proof.
  unfold of_string, wf; simpl.
  exists s. apply (deref_new_string s h).
Qed.

(** C9: a key built from a [uint64_t] [k] is an int key, not a string
    key, and [getIntKey] gives [k] back; a key built from a string [s] is
    a string key, not an int key, and [*getStringKey()] is [s]. *)
Theorem constructor_accessor_roundtrip :
  (forall k : Z, is_uint64 k ->
     isIntKey (of_int k) = true /\
     isStringKey (of_int k) = false /\
     getIntKey (of_int k) = Some k) /\
  (forall (s : string) (h : Heap),
     let d := fst (of_string s h) in
     let h' := snd (of_string s h) in
     isStringKey d = true /\
     isIntKey d = false /\
     getStringKey_contents d h' = Some s).
Proof.
  split.
  - intros k _. repeat split.
  - intros s h; cbv zeta. repeat split.
    unfold getStringKey_contents, of_string; simpl.
    apply (deref_new_string s h).
Qed.

Lemma constructor_accessor_roundtrip_witness :
  is_uint64 42 /\
  getIntKey (of_int 42) = Some 42 /\
  getStringKey_contents (fst (of_string "metric" [])) (snd (of_string "metric" []))
    = Some "metric".
Proof.
  assert (R : is_uint64 42) by (unfold is_uint64, uint64_max; lia).
  split; [exact R|]. split.
  - exact (proj2 (proj2 (proj1 constructor_accessor_roundtrip 42 R))).
  - exact (proj2 (proj2 (proj2 constructor_accessor_roundtrip "metric" []))).
Defined.

(** C10: the copy of a key [d] classifies as [d] does and carries an equal
    key value: the same integer for an int key, a string with the same
    contents for a string key (held in a cell of its own, the original
    untouched); and on every key [isIntKey] is the negation of
    [isStringKey]. *)
Theorem copy_preserves_key :
  (forall (d : t) (h : Heap), wf d h ->
     exists d' h',
       copy d h = Some (d', h') /\
       wf d' h' /\
       isIntKey d' = isIntKey d /\
       isStringKey d' = isStringKey d /\
       (isIntKey d = true ->
          exists k, getIntKey d = Some k /\ getIntKey d' = Some k) /\
       (isStringKey d = true ->
          exists s p p',
            getStringKey d = Some p /\ getStringKey d' = Some p' /\
            p' <> p /\
            getStringKey_contents d h = Some s /\
            getStringKey_contents d h' = Some s /\
            getStringKey_contents d' h' = Some s)) /\
  (forall d : t, isIntKey d = negb (isStringKey d)).
Proof.
  split; [|reflexivity].
  intros [[|] [k|p]] h Hwf; simpl in Hwf; try contradiction.
  - destruct Hwf as [s Hs].
    exists {| is_string_ := true; key_ := string_key (length h) |},
           (h ++ [Some s]).
    unfold copy; simpl. rewrite Hs; simpl.
    pose proof (deref_new_string s h) as Hnew; simpl in Hnew.
    pose proof (@deref_new_string_old s h p s Hs) as Hold; simpl in Hold.
    pose proof (@new_string_fresh s h p s Hs) as Hfresh; simpl in Hfresh.
    split; [reflexivity|]. split; [exists s; exact Hnew|].
    split; [reflexivity|]. split; [reflexivity|].
    split; [discriminate|].
    intros _. exists s, p, (length h).
    unfold getStringKey_contents; simpl. now repeat split.
  - exists {| is_string_ := false; key_ := int_key k |}, h.
    split; [reflexivity|]. split; [exact Hwf|].
    split; [reflexivity|]. split; [reflexivity|].
    split; [|discriminate].
    intros _. exists k. now split.
Qed.

Lemma copy_preserves_key_witness :
  wf (fst (of_string "metric" [])) (snd (of_string "metric" [])) /\
  exists d' h',
    copy (fst (of_string "metric" [])) (snd (of_string "metric" []))
      = Some (d', h') /\
    getStringKey_contents d' h' = Some "metric".
Proof.
  pose (W := of_string_wf "metric" []).
  split; [exact W|].
  destruct (proj1 copy_preserves_key _ _ W)
    as (d' & h' & Hc & _ & _ & _ & _ & Hs).
  exists d', h'. split; [exact Hc|].
  destruct (Hs eq_refl) as (s & p & p' & _ & _ & _ & H1 & _ & H3).
  vm_compute in H1. injection H1 as <-. exact H3.
Defined.

(** ** The destructor, and the accessor of the other kind *)

Lemma nth_error_delete_same (p : addr) (h : Heap) :
  nth_error (delete_string p h) p = if (p <? length h)%nat then Some None else None.
Proof.
  revert p. induction h as [|c h IH]; intros [|p]; simpl; try reflexivity.
  rewrite IH. reflexivity.
Qed.

Lemma deref_delete_same (p : addr) (h : Heap) :
  deref p (delete_string p h) = None.
Proof.
  unfold deref. rewrite nth_error_delete_same.
  now destruct (p <? length h)%nat.
Qed.

Lemma deref_delete_other (p q : addr) (h : Heap) :
  p <> q -> deref q (delete_string p h) = deref q h.
Proof.
  unfold deref. revert p q.
  induction h as [|c h IH]; intros [|p] [|q] Hne; simpl;
    try reflexivity; try contradiction.
  apply IH. congruence.
Qed.

Lemma live_new_string (s : string) (h : Heap) :
  live (snd (new_string s h)) = S (live h).
Proof.
  unfold live, new_string; simpl.
  rewrite filter_app, length_app. simpl. lia.
Qed.

Lemma live_delete_string (p : addr) (h : Heap) (s : string) :
  deref p h = Some s -> S (live (delete_string p h)) = live h.
Proof.
  unfold deref, live. revert p.
  induction h as [|c h IH]; intros [|p]; simpl; try discriminate.
  - destruct c; [reflexivity|discriminate].
  - intros H. destruct c; simpl; rewrite <- (IH p H); reflexivity.
Qed.

(** X1: For a key made by a constructor or by copying, exactly the accessor
    of its kind passes its assertion: [getIntKey] on a string key and
    [getStringKey] on an integer key fail theirs. *)
Theorem accessor_of_the_other_kind_fails (d : t) (h : Heap) :
  wf d h ->
  (isIntKey d = true <-> exists k, getIntKey d = Some k) /\
  (isStringKey d = true <-> exists p, getStringKey d = Some p) /\
  (isIntKey d = true ->
     getStringKey d = None /\ getStringKey_contents d h = None) /\
  (isStringKey d = true -> getIntKey d = None) /\
  (getIntKey d = None \/ getStringKey d = None).
Proof.
  destruct d as [[|] [k|p]]; simpl; intros Hwf; try contradiction;
    unfold getIntKey, getStringKey, getStringKey_contents,
      isIntKey, isStringKey; simpl;
    repeat split; try discriminate; eauto;
    intros [x Hx]; discriminate.
Qed.

Lemma accessor_of_the_other_kind_fails_witness :
  getStringKey (of_int 7) = None /\
  getIntKey (fst (of_string "metric" [])) = None.
Proof.
  assert (Hi : wf (of_int 7) []) by (cbv; split; congruence).
  pose proof (accessor_of_the_other_kind_fails (of_int 7) [] Hi)
    as (_ & _ & Hint & _).
  pose proof (accessor_of_the_other_kind_fails _ _
                (of_string_wf "metric" [])) as (_ & _ & _ & Hstr & _).
  split; [exact (proj1 (Hint eq_refl)) | exact (Hstr eq_refl)].
Defined.

(** X2: The copy of a key shares nothing with it: when either of the two is
    destroyed the other stays well formed with its value, while the
    string of the destroyed one is gone; destroying both gives back all
    the copy constructor allocated and the string of the original. *)
Theorem copy_is_independent (d : t) (h : Heap) :
  wf d h ->
  exists d' h',
    copy d h = Some (d', h') /\
    live h' = (live h + if isStringKey d then 1 else 0)%nat /\
    (exists h1,
       destroy d h' = Some h1 /\ wf d' h1 /\
       getIntKey d' = getIntKey d /\
       getStringKey_contents d' h1 = getStringKey_contents d h /\
       getStringKey_contents d h1 = None) /\
    (exists h2,
       destroy d' h' = Some h2 /\ wf d h2 /\
       getStringKey_contents d h2 = getStringKey_contents d h /\
       getStringKey_contents d' h2 = None) /\
    (exists h1 h3,
       destroy d h' = Some h1 /\ destroy d' h1 = Some h3 /\
       (live h3 + if isStringKey d then 1 else 0)%nat = live h).
Proof.
  intros Hwf.
  destruct d as [[|] [k|p]]; simpl in Hwf; try contradiction.
  - (* a string key *)
    destruct Hwf as [s Hs].
    pose proof (deref_new_string s h) as Hnew; simpl in Hnew.
    pose proof (deref_new_string_old s h p s Hs) as Hold; simpl in Hold.
    pose proof (new_string_fresh s h p s Hs) as Hfresh; simpl in Hfresh.
    pose proof (live_new_string s h) as Hlive; simpl in Hlive.
    exists {| is_string_ := true; key_ := string_key (length h) |},
           (h ++ [Some s]).
    unfold copy, destroy, getStringKey_contents, getStringKey, getIntKey,
      isStringKey; simpl.
    rewrite Hs; simpl.
    split; [reflexivity|]. split; [rewrite Hlive; lia|].
    split; [|split].
    + exists (delete_string p (h ++ [Some s])).
      split; [reflexivity|].
      split; [exists s; rewrite deref_delete_other by congruence;
              exact Hnew|].
      rewrite deref_delete_same, deref_delete_other by congruence.
      rewrite Hnew. repeat split.
    + exists (delete_string (length h) (h ++ [Some s])).
      split; [reflexivity|].
      split; [exists s; rewrite deref_delete_other by congruence;
              exact Hold|].
      rewrite deref_delete_same, deref_delete_other by congruence.
      rewrite Hold. repeat split.
    + exists (delete_string p (h ++ [Some s])),
             (delete_string (length h) (delete_string p (h ++ [Some s]))).
      split; [reflexivity|]. split; [reflexivity|].
      assert (H1 : S (live (delete_string p (h ++ [Some s])))
                   = live (h ++ [Some s]))
        by (now apply (live_delete_string p _ s)).
      assert (H2 : S (live (delete_string (length h)
                              (delete_string p (h ++ [Some s]))))
                   = live (delete_string p (h ++ [Some s]))).
      { apply (live_delete_string _ _ s).
        rewrite deref_delete_other by congruence. exact Hnew. }
      lia.
  - (* an integer key *)
    exists {| is_string_ := false; key_ := int_key k |}, h.
    unfold copy, destroy, getStringKey_contents, getStringKey, getIntKey,
      isStringKey; simpl.
    split; [reflexivity|]. split; [lia|].
    split; [|split].
    + exists h. split; [reflexivity|]. split; [exact Hwf|]. repeat split.
    + exists h. split; [reflexivity|]. split; [exact Hwf|]. repeat split.
    + exists h, h. repeat split. lia.
Qed.

Lemma copy_is_independent_witness :
  exists d' h' h1,
    copy (fst (of_string "metric" [])) (snd (of_string "metric" []))
      = Some (d', h') /\
    destroy (fst (of_string "metric" [])) h' = Some h1 /\
    getStringKey_contents d' h1 = Some "metric".
Proof.
  destruct (copy_is_independent _ _ (of_string_wf "metric" []))
    as (d' & h' & Hc & _ & (h1 & Hd & _ & _ & Hs & _) & _).
  exists d', h', h1. split; [exact Hc|]. split; [exact Hd|].
  rewrite Hs. reflexivity.
Defined.

(** X3: A key built from an integer never touches the free store; a key
    built from a string allocates one string, and its destructor frees
    that string and nothing else.  In general the destructor of a key
    frees the string the key owns, once, and leaves every other string
    as it was. *)
Theorem destructor_frees_own_string :
  (forall (k : Z) (h : Heap), destroy (of_int k) h = Some h) /\
  (forall (s : string) (h : Heap),
     let d := fst (of_string s h) in
     let h' := snd (of_string s h) in
     live h' = S (live h) /\
     (forall q s', deref q h = Some s' -> deref q h' = Some s') /\
     exists h'',
       destroy d h' = Some h'' /\
       live h'' = live h /\
       getStringKey_contents d h'' = None /\
       (forall q s', deref q h = Some s' -> deref q h'' = Some s')) /\
  (forall (d : t) (h : Heap),
     wf d h ->
     exists h',
       destroy d h = Some h' /\
       (live h' + if isStringKey d then 1 else 0)%nat = live h /\
       (isStringKey d = true -> getStringKey_contents d h' = None) /\
       (forall q s', deref q h = Some s' -> getStringKey d <> Some q ->
                     deref q h' = Some s')).
Proof.
  split; [reflexivity|]. split.
  - intros s h; cbv zeta.
    pose proof (deref_new_string s h) as Hnew; simpl in Hnew.
    unfold of_string; simpl.
    split; [apply (live_new_string s h)|].
    split; [intros q s' Hq; apply (deref_new_string_old s h q s' Hq)|].
    exists (delete_string (length h) (h ++ [Some s])).
    unfold destroy, getStringKey_contents, getStringKey; simpl.
    split; [reflexivity|]. split; [|split].
    + pose proof (live_delete_string (length h) (h ++ [Some s]) s Hnew).
      pose proof (live_new_string s h) as Hl; simpl in Hl. lia.
    + apply deref_delete_same.
    + intros q s' Hq.
      rewrite deref_delete_other
        by (apply (new_string_fresh s h q s' Hq)).
      apply (deref_new_string_old s h q s' Hq).
  - intros [[|] [k|p]] h Hwf; simpl in Hwf; try contradiction.
    + destruct Hwf as [s Hs].
      exists (delete_string p h).
      unfold destroy, getStringKey_contents, getStringKey, isStringKey;
        simpl.
      split; [reflexivity|]. split; [|split].
      * pose proof (live_delete_string p h s Hs). lia.
      * intros _. apply deref_delete_same.
      * intros q s' Hq Hne.
        rewrite deref_delete_other by congruence. exact Hq.
    + exists h.
      unfold destroy, isStringKey; simpl.
      split; [reflexivity|]. split; [lia|].
      split; [discriminate|]. intros q s' Hq _; exact Hq.
Qed.

Lemma destructor_frees_own_string_witness :
  exists h',
    destroy (fst (of_string "metric" [])) (snd (of_string "metric" []))
      = Some h' /\
    getStringKey_contents (fst (of_string "metric" [])) h' = None.
Proof.
  destruct (proj2 (proj2 destructor_frees_own_string) _ _
              (of_string_wf "metric" []))
    as (h' & Hd & _ & Hgone & _).
  exists h'. split; [exact Hd | exact (Hgone eq_refl)].
Defined.

End DocumentKeyFacts.

(* ===================================================================== *)
(** * httpconnection.cc: properties *)
(* ===================================================================== *)

Import HTTPConnection.
Local Open Scope conn_scope.
Local Open Scope Z_scope.

(** ** Trace bookkeeping *)

Lemma count_app (p : Event -> bool) (a b : list Event) :
  count p (a ++ b) = (count p a + count p b)%nat.
Proof. unfold count. now rewrite filter_app, length_app. Qed.

Lemma count_forallb_false (p q : Event -> bool) (evs : list Event) :
  (forall e, q e = true -> p e = false) ->
  forallb q evs = true -> count p evs = 0%nat.
Proof.
  intros Hpq. unfold count.
  induction evs as [|e evs IH]; simpl; [reflexivity|].
  intros H. apply andb_prop in H as [He Hevs].
  rewrite (Hpq e He). now apply IH.
Qed.

(** A trace that is in order stays a unit of its own when more follows. *)
Lemma deleted_at_zero_app (t u : list Event) :
  deleted_at_zero t = true ->
  deleted_at_zero (t ++ u) = deleted_at_zero u.
Proof.
  remember (length t) as n eqn:Hn.
  revert t Hn.
  induction n as [n IH] using lt_wf_ind.
  intros [|e t] Hn Ht; [reflexivity|].
  simpl in Hn.
  destruct e; simpl in Ht |- *;
    try (apply (IH (length t)); [lia | reflexivity | exact Ht]);
    try discriminate.
  destruct (old =? 1).
  - destruct t as [|e' t']; [discriminate|].
    destruct e'; try discriminate. simpl.
    apply (IH (length t')); [simpl in Hn; lia | reflexivity | exact Ht].
  - apply (IH (length t)); [lia | reflexivity | exact Ht].
Qed.

Lemma outside_callback_inside (evs rest : list Event) :
  forallb (fun e => negb (is_completion e)) evs = true ->
  outside_callback true (evs ++ rest) = outside_callback true rest.
Proof.
  induction evs as [|e evs IH]; simpl; [reflexivity|].
  intros H. apply andb_prop in H as [He Hevs].
  destruct e; simpl in He; try discriminate; now apply IH.
Qed.

(** ** Relations every member function respects *)

Lemma extends_refl (p : Event -> bool) (w : World) : extends p w w.
Proof. exists []. now rewrite app_nil_r. Qed.

Lemma extends_trans (p : Event -> bool) (a b c : World) :
  extends p a b -> extends p b c -> extends p a c.
Proof.
  intros (e1 & H1 & F1) (e2 & H2 & F2).
  exists (e1 ++ e2). split.
  - now rewrite H2, H1, app_assoc.
  - now rewrite forallb_app, F1, F2.
Qed.

Section Respects.

Variable R : World -> World -> Prop.
Hypothesis R_refl : forall w, R w w.
Hypothesis R_trans : forall a b c, R a b -> R b c -> R a c.

(** [R] looks at the reference count, the [freed] flag and the trace
    only. *)
Hypothesis R_frame :
  forall w w',
    refcount_ w' = refcount_ w -> freed w' = freed w ->
    trace w' = trace w -> R w w'.
Hypothesis R_emit :
  forall e w, plain e = true -> R w (with_trace (trace w ++ [e]) w).
Hypothesis R_incRef : respects R incRef.
Hypothesis R_decRef : respects R decRef.

Lemma respects_ret {A} (a : A) : respects R (ret a).
Proof. intros w; apply R_refl. Qed.

Lemma respects_throw {A} (e : exn) : respects R (@throw A e).
Proof. intros w; apply R_refl. Qed.

Lemma respects_undefined {A} : respects R (@undefined A).
Proof. intros w; exact I. Qed.

Lemma respects_bind {A B} (m : M A) (k : A -> M B) :
  respects R m -> (forall a, respects R (k a)) -> respects R (bind m k).
Proof.
  intros Hm Hk w. unfold bind.
  specialize (Hm w). destruct (m w) as [a w1|e w1|]; auto.
  specialize (Hk a w1). destruct (k a w1); eauto.
Qed.

Lemma respects_try_catch {A} (m : M A) (h : kExceptionType -> M A) :
  respects R m -> (forall t, respects R (h t)) ->
  respects R (try_catch m h).
Proof.
  intros Hm Hh w. unfold try_catch.
  specialize (Hm w). destruct (m w) as [a w1|e w1|]; auto.
  destruct e as [t|s]; auto.
  specialize (Hh t w1). destruct (h t w1); eauto.
Qed.

Lemma respects_this : respects R this.
Proof. intros w; unfold this. destruct (freed w); auto. Qed.

Lemma respects_update (f : World -> World) :
  (forall w, refcount_ (f w) = refcount_ w /\ freed (f w) = freed w /\
             trace (f w) = trace w) ->
  respects R (update f).
Proof.
  intros Hf w; unfold update. destruct (freed w); [exact I|].
  destruct (Hf w) as (H1 & H2 & H3). now apply R_frame.
Qed.

Lemma respects_emit (e : Event) : plain e = true -> respects R (emit e).
Proof. intros He w; unfold emit. now apply R_emit. Qed.

Ltac respects_step :=
  lazymatch goal with
  | |- respects _ (ret _) => apply respects_ret
  | |- respects _ (throw _) => apply respects_throw
  | |- respects _ undefined => apply respects_undefined
  | |- respects _ this => apply respects_this
  | |- respects _ incRef => exact R_incRef
  | |- respects _ decRef => exact R_decRef
  | |- respects _ (emit _) => apply respects_emit; reflexivity
  | |- respects _ (update _) => apply respects_update; intros; repeat split
  | |- respects _ (bind _ _) => apply respects_bind; [|intros ?]
  | |- respects _ (try_catch _ _) => apply respects_try_catch; [|intros ?]
  | |- respects _ (match ?x with _ => _ end) => destruct x
  | |- _ => assumption
  end.

Ltac respects_auto := repeat respects_step.

Lemma respects_close : respects R close.
Proof. unfold close, conn_close, logf; respects_auto. Qed.

Lemma respects_awaitRead : respects R awaitRead.
Proof. unfold awaitRead, runOnReadable; respects_auto. Qed.

Lemma respects_awaitWrite : respects R awaitWrite.
Proof. unfold awaitWrite, runOnWritable; respects_auto. Qed.

Lemma respects_nextRequest : respects R nextRequest.
Proof.
  pose proof respects_awaitRead.
  unfold nextRequest, parser_reset; respects_auto.
Qed.

Lemma respects_header_phase_cb : respects R header_phase_cb.
Proof. pose proof respects_awaitRead. unfold header_phase_cb; respects_auto. Qed.

Lemma respects_read_body_chunk
    (callback : option (list byte -> bool -> M unit)) :
  (forall f bs last, callback = Some f -> respects R (f bs last)) ->
  respects R (read_body_chunk callback).
Proof.
  intros Hcb. pose proof respects_awaitRead.
  unfold read_body_chunk, logf.
  apply respects_bind; [apply respects_this|intros w].
  apply respects_bind; [respects_auto|intros last].
  apply respects_bind; [respects_auto|intros _].
  apply respects_bind.
  - destruct callback as [f|]; [|apply respects_undefined].
    specialize (Hcb f). respects_auto. now apply Hcb.
  - intros _. respects_auto.
Qed.

Lemma respects_readRequestBody (callback : list byte -> bool -> M unit) :
  (forall bs last, respects R (callback bs last)) ->
  respects R (readRequestBody callback).
Proof.
  intros Hcb. unfold readRequestBody. respects_auto.
  apply respects_read_body_chunk.
  intros f bs last [= <-]. apply Hcb.
Qed.

Lemma respects_writeResponse resp ready_callback :
  respects R (writeResponse resp ready_callback).
Proof. pose proof respects_awaitWrite. unfold writeResponse; respects_auto. Qed.

Lemma respects_writeResponseBody chunk ready_callback :
  respects R (writeResponseBody chunk ready_callback).
Proof. unfold writeResponseBody; respects_auto. Qed.

Lemma respects_finishResponse : respects R finishResponse.
Proof.
  pose proof respects_nextRequest. pose proof respects_close.
  unfold finishResponse; respects_auto.
Qed.

Lemma respects_run_script (s : Script) : respects R (run_script s).
Proof.
  induction s as [|resp rc _ k IHk|chunk rc _ k IHk|k IHk|cb IHcb k IHk|e];
    simpl.
  - apply respects_ret.
  - apply respects_bind; [apply respects_writeResponse|intros _; exact IHk].
  - apply respects_bind;
      [apply respects_writeResponseBody|intros _; exact IHk].
  - apply respects_bind; [apply respects_finishResponse|intros _; exact IHk].
  - apply respects_bind; [|intros _; exact IHk].
    apply respects_readRequestBody. intros bs last; apply IHcb.
  - apply respects_throw.
Qed.

Lemma respects_dispatchRequest : respects R dispatchRequest.
Proof.
  unfold dispatchRequest.
  apply respects_bind; [apply respects_this|intros w].
  respects_auto. apply respects_run_script.
Qed.

Lemma respects_parser_actions (po : list ParserAction) :
  respects R (parser_actions po).
Proof.
  pose proof respects_dispatchRequest.
  induction po as [|a po IH]; simpl; [apply respects_ret|].
  apply respects_bind; [|intros _; exact IH].
  destruct a; unfold parser_action, on_cur_request; respects_auto.
Qed.

Lemma respects_parser_parse bs po : respects R (parser_parse bs po).
Proof.
  unfold parser_parse. respects_auto. apply respects_parser_actions.
Qed.

Lemma respects_parser_eof po : respects R (parser_eof po).
Proof.
  unfold parser_eof. respects_auto. apply respects_parser_actions.
Qed.

Lemma respects_conn_read tr : respects R (conn_read tr).
Proof. unfold conn_read; respects_auto. Qed.

Lemma respects_conn_write tw offered : respects R (conn_write tw offered).
Proof. unfold conn_write; respects_auto. Qed.

(** [read], [write] and the scheduler: these also enter and leave the
    completion callbacks. *)
Hypothesis R_completion :
  forall e w, is_completion e = true ->
              R w (with_trace (trace w ++ [e]) w).

Lemma respects_completion (e : Event) :
  is_completion e = true -> respects R (emit e).
Proof. intros He w; unfold emit. now apply R_completion. Qed.

Lemma respects_read tr po : respects R (read tr po).
Proof.
  pose proof respects_close. pose proof (respects_conn_read tr).
  pose proof respects_header_phase_cb.
  unfold read, logf.
  apply respects_bind; [respects_auto|intros [len|]]; [|apply respects_ret].
  apply respects_bind.
  - apply respects_try_catch; [|intros t; respects_auto].
    destruct (len =? 0)%nat.
    + apply respects_bind; [apply respects_parser_eof|intros _].
      respects_auto.
    + apply respects_bind; [apply respects_this|intros w].
      apply respects_bind; [apply respects_parser_parse|intros _].
      apply respects_ret.
  - intros [|]; [|apply respects_ret].
    apply respects_bind; [apply respects_this|intros w].
    apply respects_bind; [|intros _; respects_auto].
    destruct (on_read_completed_cb_ w) as [[|]|]; [| |apply respects_ret].
    + apply respects_bind; [now apply respects_completion|intros _].
      exact respects_header_phase_cb.
    + apply respects_bind; [now apply respects_completion|intros _].
      simpl. apply respects_read_body_chunk. discriminate.
Qed.

Lemma respects_write tw : respects R (write tw).
Proof.
  pose proof respects_close. pose proof respects_awaitWrite.
  unfold write, logf.
  apply respects_bind; [apply respects_this|intros w].
  apply respects_bind.
  - apply respects_try_catch; [|intros t; respects_auto].
    apply respects_bind; [apply respects_conn_write|intros len].
    apply respects_ret.
  - intros [len|]; [|apply respects_ret].
    apply respects_bind; [apply respects_this|intros w1].
    apply respects_bind; [|intros _; respects_auto].
    destruct (mark (buf_ w1) + len <? size (buf_ w1))%nat;
      [respects_auto|].
    apply respects_bind; [respects_auto|intros _].
    apply respects_bind; [apply respects_this|intros w2].
    destruct (on_write_completed_cb_ w2) as [cb|]; [|apply respects_ret].
    apply respects_bind; [now apply respects_completion|intros _].
    apply respects_bind; [apply respects_run_script|intros _].
    now apply respects_completion.
Qed.

Lemma respects_step (i : Readiness) : respects R (step i).
Proof.
  intros w. unfold step.
  destruct i as [tr po|tw].
  - destruct (readable (scheduler_ w)) as [|n]; [apply R_refl|].
    pose proof (respects_read tr po
      (with_scheduler_
         {| readable := n; writable := writable (scheduler_ w) |} w)) as H.
    destruct (read tr po _); auto;
      (eapply R_trans; [|exact H]); now apply R_frame.
  - destruct (writable (scheduler_ w)) as [|n]; [apply R_refl|].
    pose proof (respects_write tw
      (with_scheduler_
         {| readable := readable (scheduler_ w); writable := n |} w)) as H.
    destruct (write tw _); auto;
      (eapply R_trans; [|exact H]); now apply R_frame.
Qed.

Lemma respects_run (inputs : list Readiness) : respects R (run inputs).
Proof.
  induction inputs as [|i rest IH]; simpl; [apply respects_ret|].
  apply respects_bind; [apply respects_step|intros _; exact IH].
Qed.

End Respects.

(** ** The reference count discipline is kept by every member function *)

Lemma keeps_invariant_frame (w w' : World) :
  refcount_ w' = refcount_ w -> freed w' = freed w ->
  trace w' = trace w -> keeps_invariant w w'.
Proof.
  unfold keeps_invariant, refcount_invariant.
  intros -> -> ->. exact (fun H => H).
Qed.

Lemma count_snoc (p : Event -> bool) (t : list Event) (e : Event) :
  count p (t ++ [e]) = (count p t + if p e then 1 else 0)%nat.
Proof. rewrite count_app. unfold count at 2; simpl. now destruct (p e). Qed.

Lemma deleted_at_zero_snoc (t : list Event) (e : Event) :
  is_decRef e = false -> is_delete e = false ->
  deleted_at_zero t = true -> deleted_at_zero (t ++ [e]) = true.
Proof.
  intros Hd Hx Hz. rewrite deleted_at_zero_app by exact Hz.
  destruct e; try reflexivity; discriminate.
Qed.

(** Projections of updated worlds, without touching the arithmetic. *)
Ltac world_simpl :=
  cbn [ext handler_factory_ conn_ scheduler_ parser_ cur_request_
       cur_handler_ buf_ body_buf_ on_read_completed_cb_
       on_write_completed_cb_ refcount_ freed trace
       with_conn_ with_scheduler_ with_parser_ with_cur_request_
       with_cur_handler_ with_buf_ with_body_buf_
       with_on_read_completed_cb_ with_on_write_completed_cb_
       with_refcount_ with_freed with_trace] in *.

(** Split a world into its fields, so that the member functions compute
    on it. *)
Ltac open_world w :=
  destruct w; world_simpl; subst.

Ltac unfold_members :=
  unfold write, read, write_completion, finishResponse, nextRequest,
    readRequestBody, read_body_chunk, header_phase_cb, writeResponse,
    close, awaitRead, awaitWrite, parser_eof, parser_parse, parser_reset,
    conn_close, conn_read, conn_write, runOnReadable, runOnWritable,
    incRef, decRef, delete_this, logf, try_catch,
    bind, this, update, emit, ret, throw, undefined in *.

Ltac run_members := unfold_members; world_simpl.

Lemma keeps_invariant_emit (e : Event) (w : World) :
  is_incRef e = false -> is_decRef e = false -> is_delete e = false ->
  keeps_invariant w (with_trace (trace w ++ [e]) w).
Proof.
  intros Hi Hd Hx (Hz & Hc & Hn).
  unfold refcount_invariant; world_simpl.
  rewrite !count_snoc, Hi, Hd, Hx, !Nat.add_0_r.
  repeat split; auto using deleted_at_zero_snoc.
Qed.

Lemma incRef_keeps_invariant : respects keeps_invariant incRef.
Proof.
  intros w. unfold incRef, bind, this, update, emit.
  destruct (freed w) eqn:Hf; [exact I|]. world_simpl. rewrite Hf.
  intros (Hz & Hc & Hn).
  unfold refcount_invariant; world_simpl.
  rewrite !count_snoc. cbn [is_incRef is_decRef is_delete].
  rewrite !Nat.add_0_r, Hf in *.
  split; [now apply deleted_at_zero_snoc|]. split; [exact Hc|].
  intros Hlt. destruct Hn as [Hr Hpos]; [lia|].
  rewrite Z.mod_small; lia.
Qed.

Lemma decRef_keeps_invariant : respects keeps_invariant decRef.
Proof.
  intros w. unfold decRef, logf, delete_this, bind, this, update, emit, ret.
  destruct (freed w) eqn:Hf; [exact I|]. world_simpl. rewrite Hf.
  destruct (refcount_ w =? 1) eqn:Hone; world_simpl; rewrite ?Hf.
  - apply Z.eqb_eq in Hone.
    intros (Hz & Hc & Hn).
    unfold refcount_invariant; world_simpl.
    rewrite <- app_assoc. cbn [app].
    rewrite !count_app. unfold count at 2 4 6. cbn.
    rewrite Hf in Hc, Hn. rewrite Hone.
    rewrite deleted_at_zero_app by exact Hz.
    split; [reflexivity|]. split; [lia|].
    intros Hlt. rewrite Nat.add_0_r in Hlt. destruct (Hn Hlt) as [Hr _]. lia.
  - apply Z.eqb_neq in Hone.
    intros (Hz & Hc & Hn).
    unfold refcount_invariant; world_simpl.
    rewrite !count_snoc. cbn [is_incRef is_decRef is_delete].
    rewrite !Nat.add_0_r, Hf in *.
    split.
    + rewrite deleted_at_zero_app by exact Hz. cbn.
      destruct (refcount_ w =? 1) eqn:Hone'; [|reflexivity].
      apply Z.eqb_eq in Hone'; contradiction.
    + split; [exact Hc|].
      intros Hlt. destruct (Hn Hlt) as [Hr Hpos].
      rewrite Z.mod_small; lia.
Qed.

Lemma run_keeps_invariant (inputs : list Readiness) :
  respects keeps_invariant (run inputs).
Proof.
  apply respects_run.
  - intros w H; exact H.
  - intros a b c Hab Hbc H; auto.
  - exact keeps_invariant_frame.
  - intros e w He. apply keeps_invariant_emit; now destruct e.
  - exact incRef_keeps_invariant.
  - exact decRef_keeps_invariant.
  - intros e w He. apply keeps_invariant_emit; now destruct e.
Qed.

Lemma nextRequest_keeps_invariant : respects keeps_invariant nextRequest.
Proof.
  apply respects_nextRequest.
  - intros w H; exact H.
  - intros a b c Hab Hbc H; auto.
  - exact keeps_invariant_frame.
  - intros e w He. apply keeps_invariant_emit; now destruct e.
  - exact incRef_keeps_invariant.
Qed.

Lemma new_HTTPConnection_invariant e hf conn sched :
  refcount_invariant (new_HTTPConnection e hf conn sched).
Proof.
  unfold refcount_invariant; simpl. repeat split; reflexivity.
Qed.

Lemma respects_final {A} (R : World -> World -> Prop) (m : M A)
    (w w' : World) :
  respects R m -> final_world (m w) = Some w' -> R w w'.
Proof.
  intros H E. specialize (H w).
  destruct (m w) as [a v|e v|]; cbn [final_world] in E;
    [injection E as <-; exact H | injection E as <-; exact H
    | discriminate E].
Qed.

Lemma started_run_invariant (w0 : World) (inputs : list Readiness)
    (w : World) :
  refcount_invariant w0 ->
  final_world (match nextRequest w0 with
               | Ret _ w1 => run inputs w1
               | r => r
               end) = Some w ->
  refcount_invariant w.
Proof.
  intros Hnew.
  destruct (nextRequest w0) as [[] w1|ex w1|] eqn:E0.
  - assert (H1 : refcount_invariant w1).
    { apply (respects_final _ nextRequest w0 w1
               nextRequest_keeps_invariant).
      - now rewrite E0.
      - exact Hnew. }
    intros E.
    exact (respects_final _ (run inputs) w1 w
             (run_keeps_invariant inputs) E H1).
  - cbn [final_world]. intros E; injection E as <-.
    apply (respects_final _ nextRequest w0 w1
             nextRequest_keeps_invariant).
    + now rewrite E0.
    + exact Hnew.
  - cbn [final_world]. intros E; discriminate E.
Qed.

Lemma lifetime_invariant e hf inputs w :
  final_world (lifetime e hf inputs) = Some w -> refcount_invariant w.
Proof.
  exact (started_run_invariant _ inputs w
           (new_HTTPConnection_invariant e hf Open
              {| readable := 0; writable := 0 |})).
Qed.

(** ** C1: the reference count over a lifetime *)

(** C1 as stated fails: in the ordinary life of a connection (one request,
    one response, no keep-alive) the object is freed after two [incRef]
    and three [decRef] calls: the constructor starts the count at 1
    without an [incRef], and [close] releases that reference. *)
Lemma refcount_lifetime_counterexample :
  exists w,
    lifetime (Scenario.collaborators false) Scenario.handler
      Scenario.one_request = Ret tt w /\
    freed w = true /\
    count is_incRef (trace w) = 2%nat /\
    count is_decRef (trace w) = 3%nat /\
    count is_incRef (trace w) <> count is_decRef (trace w).
Proof.
  eexists. split; [vm_compute; reflexivity|].
  vm_compute. repeat split; discriminate.
Qed.

(** When the peer closes first, [read] leaves through [close] and skips its
    own [decRef]: the count stays at 1 with nothing scheduled, and no
    later notification changes the world: the object is never freed. *)
Lemma peer_close_never_freed :
  exists w,
    lifetime (Scenario.collaborators false) Scenario.handler
      Scenario.peer_closes = Ret tt w /\
    freed w = false /\ refcount_ w = 1 /\ conn_ w = Closed /\
    scheduler_ w = {| readable := 0; writable := 0 |} /\
    forall inputs, run inputs w = Ret tt w.
Proof.
  eexists. split; [vm_compute; reflexivity|].
  repeat split.
  induction inputs as [|i rest IH]; [reflexivity|].
  simpl. unfold bind at 1. destruct i; exact IH.
Qed.

(** C1 (amended): over the lifetime of any connection the object is
    deallocated at most once, only at a [decRef] that brings the count from
    1 to 0 (and at every such [decRef]); and once it is deallocated the
    number of [decRef] calls is the number of [incRef] calls plus one, the
    reference the constructor starts with. *)
Theorem refcount_lifetime e hf inputs w :
  final_world (lifetime e hf inputs) = Some w ->
  deleted_at_zero (trace w) = true /\
  (count is_delete (trace w) <= 1)%nat /\
  (count is_delete (trace w) = 1%nat <-> freed w = true) /\
  (freed w = true ->
   Z.of_nat (count is_incRef (trace w)) < refcount_modulus - 1 ->
   count is_decRef (trace w) = S (count is_incRef (trace w))).
Proof.
  intros H. destruct (lifetime_invariant _ _ _ _ H) as (Hz & Hc & Hn).
  split; [exact Hz|].
  destruct (freed w).
  - repeat split; auto; lia.
  - repeat split; try discriminate; lia.
Qed.

Lemma refcount_lifetime_witness :
  exists w,
    final_world (lifetime (Scenario.collaborators false) Scenario.handler
                   Scenario.one_request) = Some w /\
    count is_delete (trace w) = 1%nat /\
    count is_decRef (trace w) = S (count is_incRef (trace w)).
Proof.
  eexists. split; [vm_compute; reflexivity|].
  split; [reflexivity|].
  refine (proj2 (proj2 (proj2
    (refcount_lifetime (Scenario.collaborators false) Scenario.handler
       Scenario.one_request _ _))) _ _).
  - vm_compute; reflexivity.
  - reflexivity.
  - vm_compute; reflexivity.
Defined.

(** ** C2: flushing the write buffer *)

Lemma incRef_decRef_roundtrip (r : Z) :
  0 < r < refcount_modulus ->
  ((r + 1) mod refcount_modulus =? 1) = false /\
  ((r + 1) mod refcount_modulus - 1) mod refcount_modulus = r.
Proof.
  intros Hr. unfold refcount_modulus in *.
  destruct (Z.eq_dec r (2 ^ 64 - 1)) as [->|Hne].
  - split; reflexivity.
  - rewrite (Z.mod_small (r + 1)) by lia.
    split; [apply Z.eqb_neq; lia|].
    rewrite Z.mod_small; lia.
Qed.

Lemma write_partial (tw : TransportWrite) (w : World) (len : nat) :
  freed w = false ->
  0 < refcount_ w < refcount_modulus ->
  tw (unsent (buf_ w)) = WriteAccepts len ->
  (mark (buf_ w) + len < size (buf_ w))%nat ->
  write tw w = Ret tt (partially_written len w).
Proof.
  intros Hf Hr Htw Hlt.
  destruct (incRef_decRef_roundtrip _ Hr) as [Hne Hback].
  apply Nat.ltb_lt in Hlt.
  unfold partially_written. open_world w. run_members.
  rewrite Htw. world_simpl. rewrite Hlt. world_simpl.
  rewrite Hne, Hback, <- !app_assoc. reflexivity.
Qed.

Lemma write_full (tw : TransportWrite) (w : World) (len : nat) :
  freed w = false ->
  tw (unsent (buf_ w)) = WriteAccepts len ->
  (size (buf_ w) <= mark (buf_ w) + len)%nat ->
  write tw w = write_completion (fully_written len w).
Proof.
  intros Hf Htw Hge.
  apply Nat.ltb_ge in Hge.
  unfold fully_written. open_world w. run_members.
  rewrite Htw. world_simpl. rewrite Hge. reflexivity.
Qed.

Lemma bind_ret_unit (m : M unit) (w : World) :
  bind m (fun _ => ret tt) w = m w.
Proof. unfold bind, ret. now destruct (m w) as [[] w'|e w'|]. Qed.

Lemma length_unsent (b : Buffer) :
  buffer_ok b -> length (unsent b) = (size b - mark b)%nat.
Proof.
  intros [Hm Hs]. unfold unsent, data, allocSize in *.
  rewrite length_skipn, length_firstn. lia.
Qed.

Lemma flushes_positive (remaining : nat) (lens : list nat) :
  flushes remaining lens = true -> (0 < remaining)%nat.
Proof.
  destruct lens as [|len [|len' rest]]; simpl; [discriminate| |].
  - intros H. apply andb_prop in H as [H1 H2].
    apply Nat.ltb_lt in H1. apply Nat.eqb_eq in H2. lia.
  - intros H. apply andb_prop in H as [H _]. apply andb_prop in H as [H1 H2].
    apply Nat.ltb_lt in H1. apply Nat.ltb_lt in H2. lia.
Qed.

(** One notification of a flush under way: the scheduler takes the
    registered callback and [write] registers the next. *)
Lemma step_partial (w : World) (len : nat) :
  freed w = false ->
  0 < refcount_ w < refcount_modulus ->
  (0 < writable (scheduler_ w))%nat ->
  (mark (buf_ w) + len < size (buf_ w))%nat ->
  step (Writable (accepts len)) w
  = Ret tt (with_buf_ (setMark (mark (buf_ w) + len) (buf_ w))
              (with_trace
                 (trace w ++
                  [EvTransportWrite (unsent (buf_ w)) len;
                   EvIncRef; EvRunOnWritable;
                   EvDecRef ((refcount_ w + 1) mod refcount_modulus)])
                 w)).
Proof.
  intros Hf Hr Hw Hlt. unfold step.
  destruct (scheduler_ w) as [rd [|n]] eqn:Hs; simpl in Hw; [lia|].
  cbn [writable readable].
  rewrite (write_partial (accepts len) _ len); try assumption;
    try reflexivity.
  unfold partially_written. open_world w. reflexivity.
Qed.

Lemma step_full (w : World) (len : nat) :
  freed w = false ->
  (0 < writable (scheduler_ w))%nat ->
  (size (buf_ w) <= mark (buf_ w) + len)%nat ->
  step (Writable (accepts len)) w
  = write_completion (fully_written len (writable_taken w)).
Proof.
  intros Hf Hw Hge. unfold step.
  destruct (scheduler_ w) as [rd [|n]] eqn:Hs; simpl in Hw; [lia|].
  cbn [writable readable].
  rewrite (write_full (accepts len) _ len); try assumption;
    try reflexivity.
  unfold writable_taken. open_world w. reflexivity.
Qed.

(** A flush from any mark: the writes hand the unsent region to the
    transport piece by piece, in order and once; the completion callback
    is not entered before the last of them. *)
Lemma flush_from (lens : list nat) :
  forall w,
    freed w = false ->
    0 < refcount_ w < refcount_modulus ->
    buffer_ok (buf_ w) ->
    (0 < writable (scheduler_ w))%nat ->
    flushes (size (buf_ w) - mark (buf_ w)) lens = true ->
    exists w1 evs,
      run (writes lens) w = write_completion w1 /\
      buf_ w1 = clear (buf_ w) /\
      freed w1 = false /\
      refcount_ w1 = refcount_ w /\
      on_write_completed_cb_ w1 = on_write_completed_cb_ w /\
      writable (scheduler_ w1) = pred (writable (scheduler_ w)) /\
      trace w1 = trace w ++ evs /\
      sent evs = unsent (buf_ w) /\
      write_lengths evs = lens /\
      count is_write_completed evs = 0%nat.
Proof.
  induction lens as [|len rest IH]; intros w Hf Hr Hb Hw Hfl;
    [discriminate|].
  destruct rest as [|len' rest].
  - (* the last write *)
    simpl in Hfl. apply andb_prop in Hfl as [Hpos Heq].
    apply Nat.eqb_eq in Heq.
    exists (fully_written len (writable_taken w)),
           [EvTransportWrite (unsent (buf_ w)) len].
    split.
    + cbn [writes map run]. rewrite bind_ret_unit.
      apply step_full; try assumption. lia.
    + unfold fully_written, writable_taken; world_simpl.
      cbn [writable readable].
      repeat split; try assumption.
      unfold sent; cbn [flat_map]. rewrite app_nil_r. apply firstn_all2.
      rewrite length_unsent by assumption. lia.
  - (* a partial write, then the rest *)
    remember (len' :: rest) as more eqn:Hmore.
    assert (Hfl' : (0 <? len)%nat && (len <? size (buf_ w) - mark (buf_ w))%nat
                   && flushes (size (buf_ w) - mark (buf_ w) - len) more
                   = true)
      by (rewrite Hmore in Hfl |- *; exact Hfl).
    apply andb_prop in Hfl' as [H12 Hrest].
    apply andb_prop in H12 as [Hpos Hlt].
    apply Nat.ltb_lt in Hpos. apply Nat.ltb_lt in Hlt.
    destruct Hb as [Hm Hs].
    pose (w2 := with_buf_ (setMark (mark (buf_ w) + len) (buf_ w))
                  (with_trace
                     (trace w ++
                      [EvTransportWrite (unsent (buf_ w)) len;
                       EvIncRef; EvRunOnWritable;
                       EvDecRef ((refcount_ w + 1) mod refcount_modulus)])
                     w)).
    destruct (IH w2) as (w1 & evs & Hrun & Hbuf & Hf1 & Hr1 & Hcb & Hwr
                         & Htr & Hsent & Hlens & Hcnt).
    + exact Hf.
    + exact Hr.
    + split; [cbn; lia | exact Hs].
    + exact Hw.
    + subst w2; world_simpl. cbn [size mark setMark].
      replace (size (buf_ w) - (mark (buf_ w) + len))%nat
        with (size (buf_ w) - mark (buf_ w) - len)%nat by lia.
      exact Hrest.
    + exists w1,
        ([EvTransportWrite (unsent (buf_ w)) len;
          EvIncRef; EvRunOnWritable;
          EvDecRef ((refcount_ w + 1) mod refcount_modulus)] ++ evs).
      split.
      * cbn [writes map run]. unfold bind at 1.
        rewrite step_partial by (try assumption; lia).
        exact Hrun.
      * subst w2; world_simpl.
        repeat split; try assumption.
        -- now rewrite Htr, <- app_assoc.
        -- cbn [sent flat_map app]. fold (sent evs). rewrite Hsent.
           unfold unsent, data. cbn [mark size mem setMark].
           replace (mark (buf_ w) + len)%nat with (len + mark (buf_ w))%nat
             by lia.
           rewrite <- skipn_skipn. apply firstn_skipn.
        -- cbn [write_lengths flat_map app]. fold (write_lengths evs).
           now rewrite Hlens.
Qed.

(** While the flush is under way the mark is the number of bytes taken so
    far and stays below the size. *)
Lemma flush_marks (lens : list nat) :
  forall k w,
    freed w = false ->
    0 < refcount_ w < refcount_modulus ->
    buffer_ok (buf_ w) ->
    (0 < writable (scheduler_ w))%nat ->
    flushes (size (buf_ w) - mark (buf_ w)) lens = true ->
    (k < length lens)%nat ->
    exists wk,
      run (writes (firstn k lens)) w = Ret tt wk /\
      mark (buf_ wk) = (mark (buf_ w) + list_sum (firstn k lens))%nat /\
      (mark (buf_ wk) < size (buf_ wk))%nat /\
      size (buf_ wk) = size (buf_ w) /\
      data (buf_ wk) = data (buf_ w).
Proof.
  induction lens as [|len rest IH]; intros k w Hf Hr Hb Hw Hfl Hk;
    [simpl in Hk; lia|].
  destruct k as [|k].
  - exists w. apply flushes_positive in Hfl.
    cbn. repeat split; lia.
  - destruct rest as [|len' rest]; [simpl in Hk; lia|].
    remember (len' :: rest) as more eqn:Hmore.
    assert (Hfl' : (0 <? len)%nat && (len <? size (buf_ w) - mark (buf_ w))%nat
                   && flushes (size (buf_ w) - mark (buf_ w) - len) more
                   = true)
      by (rewrite Hmore in Hfl |- *; exact Hfl).
    apply andb_prop in Hfl' as [H12 Hrest].
    apply andb_prop in H12 as [Hpos Hlt].
    apply Nat.ltb_lt in Hpos. apply Nat.ltb_lt in Hlt.
    destruct Hb as [Hm Hs].
    pose (w2 := with_buf_ (setMark (mark (buf_ w) + len) (buf_ w))
                  (with_trace
                     (trace w ++
                      [EvTransportWrite (unsent (buf_ w)) len;
                       EvIncRef; EvRunOnWritable;
                       EvDecRef ((refcount_ w + 1) mod refcount_modulus)])
                     w)).
    destruct (IH k w2) as (wk & Hrun & Hmk & Hlt' & Hsz & Hdata).
    + exact Hf.
    + exact Hr.
    + split; [cbn; lia | exact Hs].
    + exact Hw.
    + subst w2; world_simpl. cbn [size mark setMark].
      replace (size (buf_ w) - (mark (buf_ w) + len))%nat
        with (size (buf_ w) - mark (buf_ w) - len)%nat by lia.
      exact Hrest.
    + simpl in Hk. lia.
    + exists wk. split.
      * cbn [writes map run firstn]. unfold bind at 1.
        rewrite step_partial by (try assumption; lia).
        exact Hrun.
      * subst w2; world_simpl. cbn [size mark setMark] in *.
        cbn [firstn list_sum fold_right]. fold (list_sum (firstn k more)).
        repeat split; try assumption; lia.
Qed.

(** The ten bytes through a transport that takes four at a time: three
    writes of 4, 4 and 2 bytes, each but the last re-arming the write, then
    the ready callback; the two notifications left over find nothing
    registered. *)
Lemma ten_bytes_by_four :
  exists w,
    lifetime (Scenario.collaborators false) Scenario.handler
      Scenario.slow_transport = Ret tt w /\
    write_lengths (trace w) = [4; 4; 2]%nat /\
    sent (trace w) = Scenario.ten_bytes /\
    trace w =
      [ EvParserReset; EvIncRef; EvRunOnReadable;
        EvTransportRead Scenario.request_bytes;
        EvParserParse Scenario.request_bytes;
        EvHandleHTTPRequest; EvIncRef; EvRunOnWritable;
        EvReadCompleted; EvDecRef 3;
        EvTransportWrite (list_byte_of_string "0123456789") 4;
        EvIncRef; EvRunOnWritable; EvDecRef 3;
        EvTransportWrite (list_byte_of_string "456789") 4;
        EvIncRef; EvRunOnWritable; EvDecRef 3;
        EvTransportWrite (list_byte_of_string "89") 2;
        EvWriteCompleted;
        EvTransportClose; EvDecRef 2;
        EvWriteCompletedReturn;
        EvDecRef 1; EvDelete ].
Proof.
  eexists. split; [vm_compute; reflexivity|].
  repeat split.
Qed.

Lemma write_completion_callback (w : World) (cb : Script) :
  freed w = false ->
  on_write_completed_cb_ w = Some cb ->
  write_completion w
  = (emit EvWriteCompleted ;;
     run_script cb ;;
     emit EvWriteCompletedReturn ;;
     _ <- decRef ;;
     ret tt) w.
Proof.
  intros Hf Hcb. unfold write_completion, bind, this, emit.
  rewrite Hf, Hcb.
  destruct (run_script cb _) as [[] v|e v|]; reflexivity.
Qed.

(** C2: a [write] of which the transport takes fewer bytes than are left
    advances the mark by just that much and arms the next write; one of
    which it takes all that is left clears the buffer and goes on to the
    stored completion callback.  So for every sequence of accepted lengths
    that flushes a buffer whose mark is 0, the mark stays within the size,
    the pieces handed to the transport add up to the buffer contents, each
    byte once, and the callback is entered only after the last write; with
    ten bytes and four bytes per call these are the writes 4, 4, 2. *)
Theorem write_flush :
  (forall (tw : TransportWrite) (w : World) (len : nat),
     freed w = false ->
     0 < refcount_ w < refcount_modulus ->
     tw (unsent (buf_ w)) = WriteAccepts len ->
     (mark (buf_ w) + len < size (buf_ w))%nat ->
     exists w',
       write tw w = Ret tt w' /\
       mark (buf_ w') = (mark (buf_ w) + len)%nat /\
       size (buf_ w') = size (buf_ w) /\
       data (buf_ w') = data (buf_ w) /\
       writable (scheduler_ w') = S (writable (scheduler_ w)) /\
       trace w' = trace w ++
                  [EvTransportWrite (unsent (buf_ w)) len;
                   EvIncRef; EvRunOnWritable;
                   EvDecRef ((refcount_ w + 1) mod refcount_modulus)] /\
       on_write_completed_cb_ w' = on_write_completed_cb_ w /\
       refcount_ w' = refcount_ w /\
       freed w' = false) /\
  (forall (tw : TransportWrite) (w : World) (len : nat),
     freed w = false ->
     tw (unsent (buf_ w)) = WriteAccepts len ->
     (mark (buf_ w) + len = size (buf_ w))%nat ->
     buf_ (fully_written len w) = clear (buf_ w) /\
     trace (fully_written len w)
       = trace w ++ [EvTransportWrite (unsent (buf_ w)) len] /\
     write tw w = write_completion (fully_written len w) /\
     forall cb,
       on_write_completed_cb_ w = Some cb ->
       write tw w
       = (emit EvWriteCompleted ;;
          run_script cb ;;
          emit EvWriteCompletedReturn ;;
          _ <- decRef ;;
          ret tt) (fully_written len w)) /\
  (forall (lens : list nat) (w : World),
     freed w = false ->
     0 < refcount_ w < refcount_modulus ->
     buffer_ok (buf_ w) ->
     mark (buf_ w) = 0%nat ->
     (0 < writable (scheduler_ w))%nat ->
     flushes (size (buf_ w)) lens = true ->
     (exists w1 evs,
        run (writes lens) w = write_completion w1 /\
        buf_ w1 = clear (buf_ w) /\
        on_write_completed_cb_ w1 = on_write_completed_cb_ w /\
        writable (scheduler_ w1) = pred (writable (scheduler_ w)) /\
        trace w1 = trace w ++ evs /\
        sent evs = data (buf_ w) /\
        write_lengths evs = lens /\
        count is_write_completed evs = 0%nat) /\
     (forall k, (k < length lens)%nat ->
        exists wk,
          run (writes (firstn k lens)) w = Ret tt wk /\
          mark (buf_ wk) = list_sum (firstn k lens) /\
          (mark (buf_ wk) < size (buf_ wk))%nat /\
          size (buf_ wk) = size (buf_ w) /\
          data (buf_ wk) = data (buf_ w))) /\
  (exists w,
     lifetime (Scenario.collaborators false) Scenario.handler
       Scenario.slow_transport = Ret tt w /\
     write_lengths (trace w) = [4; 4; 2]%nat /\
     sent (trace w) = Scenario.ten_bytes /\
     exists before after,
       trace w = before ++ EvWriteCompleted :: after /\
       write_lengths before = [4; 4; 2]%nat /\
       write_lengths after = []).
Proof.
  split; [|split; [|split]].
  - intros tw w len Hf Hr Htw Hlt.
    exists (partially_written len w).
    split; [now apply write_partial|].
    unfold partially_written; world_simpl. repeat split; assumption.
  - intros tw w len Hf Htw Heq.
    split; [reflexivity|]. split; [reflexivity|].
    assert (Hw : write tw w = write_completion (fully_written len w))
      by (apply write_full; try assumption; lia).
    split; [exact Hw|].
    intros cb Hcb. rewrite Hw.
    apply write_completion_callback; assumption.
  - intros lens w Hf Hr Hb Hm Hw Hfl.
    assert (Hfl' : flushes (size (buf_ w) - mark (buf_ w)) lens = true)
      by (now rewrite Hm, Nat.sub_0_r).
    split.
    + destruct (flush_from lens w Hf Hr Hb Hw Hfl')
        as (w1 & evs & Hrun & Hbuf & _ & _ & Hcb & Hwr & Htr & Hsent
            & Hlens & Hcnt).
      exists w1, evs. repeat split; try assumption.
      rewrite Hsent. unfold unsent. now rewrite Hm.
    + intros k Hk.
      destruct (flush_marks lens k w Hf Hr Hb Hw Hfl' Hk)
        as (wk & Hrun & Hmk & Hlt & Hsz & Hdata).
      exists wk. rewrite Hm in Hmk. repeat split; assumption.
  - destruct ten_bytes_by_four as (w & Hrun & Hlens & Hsent & Htrace).
    exists w. repeat split; try assumption.
    exists (firstn 19 (trace w)), (skipn 20 (trace w)).
    rewrite Htrace. repeat split.
Qed.

Lemma write_flush_witness :
  exists w1 evs,
    run (writes [4; 4; 2]%nat) Scenario.response_armed = write_completion w1 /\
    trace w1 = trace Scenario.response_armed ++ evs /\
    sent evs = Scenario.ten_bytes /\
    write_lengths evs = [4; 4; 2]%nat.
Proof.
  assert (Hb : buffer_ok (buf_ Scenario.response_armed))
    by (split; vm_compute; lia).
  destruct (proj1 (proj1 (proj2 (proj2 write_flush))
                     [4; 4; 2]%nat Scenario.response_armed
                     eq_refl (conj eq_refl eq_refl) Hb
                     eq_refl (le_n 1) eq_refl))
    as (w1 & evs & Hrun & _ & _ & _ & Htr & Hsent & Hlens & _).
  exists w1, evs. repeat split; assumption.
Defined.

(** ** C3: [writeResponseBody] *)

(** C3: [writeResponseBody] has an empty body.  It leaves the world as it
    found it: the chunk is not buffered, the callback is not stored, no
    write is armed.  A handler that answers through it stalls: after the
    request is read nothing is scheduled, nothing was sent, the callback
    was never entered, and no later notification changes that. *)
Theorem writeResponseBody_is_empty :
  (forall chunk ready_callback w,
     writeResponseBody chunk ready_callback w = Ret tt w) /\
  (exists w,
     lifetime (Scenario.collaborators false) Scenario.body_handler
       Scenario.one_read = Ret tt w /\
     size (buf_ w) = 0%nat /\
     on_write_completed_cb_ w = None /\
     scheduler_ w = {| readable := 0; writable := 0 |} /\
     count is_transport_write (trace w) = 0%nat /\
     count is_write_completed (trace w) = 0%nat /\
     freed w = false /\
     forall inputs, run inputs w = Ret tt w).
Proof.
  split; [reflexivity|].
  eexists. split; [vm_compute; reflexivity|].
  repeat split.
  induction inputs as [|i rest IH]; [reflexivity|].
  simpl. unfold bind at 1. destruct i; exact IH.
Qed.

(** ** Single calls *)

Lemma decRef_returns (w : World) :
  freed w = false -> decRef w = Ret (refcount_ w =? 1) (released w).
Proof.
  intros Hf. unfold released. open_world w. run_members.
  match goal with |- context [?r =? 1] => destruct (r =? 1) end;
    world_simpl; rewrite <- ?app_assoc; reflexivity.
Qed.

Lemma released_trace (w : World) :
  trace (released w)
  = trace w ++ EvDecRef (refcount_ w)
      :: (if refcount_ w =? 1 then [EvDelete] else []).
Proof. unfold released. now destruct (refcount_ w =? 1). Qed.

Lemma decRef_trace (w w' : World) (b : bool) :
  decRef w = Ret b w' ->
  freed w = false /\
  b = (refcount_ w =? 1) /\
  trace w' = trace w ++ EvDecRef (refcount_ w) :: (if b then [EvDelete] else []).
Proof.
  destruct (freed w) eqn:Hf.
  - unfold decRef, bind, this. rewrite Hf. discriminate.
  - rewrite decRef_returns by exact Hf. intros [= <- <-].
    split; [reflexivity|]. split; [reflexivity|]. apply released_trace.
Qed.

Lemma close_returns (w : World) :
  freed w = false -> close w = Ret tt (closed w).
Proof.
  intros Hf. unfold close, conn_close, logf.
  unfold bind at 1 2 3, ret at 1, update, emit. rewrite Hf.
  unfold bind. rewrite decRef_returns by exact Hf. reflexivity.
Qed.

Lemma closed_trace (w : World) :
  trace (closed w)
  = trace w ++ EvTransportClose :: EvDecRef (refcount_ w)
      :: (if refcount_ w =? 1 then [EvDelete] else []).
Proof.
  unfold closed. rewrite released_trace. world_simpl.
  now rewrite <- app_assoc.
Qed.

Lemma closed_conn (w : World) : conn_ (closed w) = Closed.
Proof.
  unfold closed, released. world_simpl.
  now destruct (refcount_ w =? 1).
Qed.

Lemma closed_scheduler (w : World) : scheduler_ (closed w) = scheduler_ w.
Proof.
  unfold closed, released. world_simpl.
  now destruct (refcount_ w =? 1).
Qed.

Lemma awaitRead_returns (w : World) :
  freed w = false -> awaitRead w = Ret tt (read_armed w).
Proof.
  intros Hf. unfold read_armed. open_world w. run_members.
  now rewrite <- app_assoc.
Qed.

(** ** C8: [nextRequest] *)

Lemma nextRequest_awaitRead (w : World) :
  freed w = false -> nextRequest w = awaitRead (request_prepared w).
Proof.
  intros Hf. unfold nextRequest, parser_reset, request_prepared.
  unfold bind, update, emit.
  repeat (rewrite Hf; world_simpl). reflexivity.
Qed.

Lemma nextRequest_returns (w : World) :
  freed w = false ->
  nextRequest w = Ret tt (read_armed (request_prepared w)).
Proof.
  intros Hf. rewrite nextRequest_awaitRead by exact Hf.
  now apply awaitRead_returns.
Qed.

Lemma state_lt_BODY (s : kParserState) :
  state_lt s S_BODY = true <->
  s = S_METHOD \/ s = S_URI \/ s = S_VERSION \/ s = S_HEADER.
Proof.
  destruct s; cbn; split; intros H; try discriminate; try reflexivity;
    auto; repeat (destruct H as [H|H]; try discriminate).
Qed.

(** C8: [nextRequest] puts the parser back into its initial state, makes a
    fresh request, sets the write-completion callback to null, installs the
    header-phase closure as read-completion callback and calls [awaitRead];
    that closure calls [awaitRead] again exactly when the parser state is
    before [S_BODY]. *)
Theorem nextRequest_resets (w : World) :
  freed w = false ->
  (exists w0,
     parser_ w0 = S_METHOD /\
     cur_request_ w0 = Some new_HTTPRequest /\
     on_write_completed_cb_ w0 = None /\
     on_read_completed_cb_ w0 = Some HeaderPhaseCb /\
     trace w0 = trace w ++ [EvParserReset] /\
     refcount_ w0 = refcount_ w /\ scheduler_ w0 = scheduler_ w /\
     conn_ w0 = conn_ w /\ freed w0 = false /\
     nextRequest w = awaitRead w0) /\
  (exists w',
     nextRequest w = Ret tt w' /\
     parser_ w' = S_METHOD /\
     cur_request_ w' = Some new_HTTPRequest /\
     on_write_completed_cb_ w' = None /\
     on_read_completed_cb_ w' = Some HeaderPhaseCb /\
     readable (scheduler_ w') = S (readable (scheduler_ w)) /\
     refcount_ w' = (refcount_ w + 1) mod refcount_modulus /\
     trace w' = trace w ++ [EvParserReset; EvIncRef; EvRunOnReadable]) /\
  (forall v,
     freed v = false ->
     invoke_read_completed HeaderPhaseCb v
     = if state_lt (parser_ v) S_BODY then awaitRead v else Ret tt v) /\
  (forall s,
     state_lt s S_BODY = true <->
     s = S_METHOD \/ s = S_URI \/ s = S_VERSION \/ s = S_HEADER).
Proof.
  intros Hf. split; [|split; [|split]].
  - exists (request_prepared w).
    unfold request_prepared; world_simpl. repeat split; try assumption.
    now apply nextRequest_awaitRead.
  - exists (read_armed (request_prepared w)).
    split; [now apply nextRequest_returns|].
    unfold read_armed, request_prepared; world_simpl.
    repeat split. now rewrite <- app_assoc.
  - intros v Hv. cbn [invoke_read_completed].
    unfold header_phase_cb, bind, this, ret. rewrite Hv.
    now destruct (state_lt (parser_ v) S_BODY).
  - exact state_lt_BODY.
Qed.

Lemma nextRequest_resets_witness :
  exists w',
    nextRequest (Scenario.answered true) = Ret tt w' /\
    parser_ w' = S_METHOD /\
    cur_request_ w' = Some new_HTTPRequest /\
    on_read_completed_cb_ w' = Some HeaderPhaseCb.
Proof.
  destruct (proj1 (proj2 (nextRequest_resets (Scenario.answered true)
                            eq_refl)))
    as (w' & Hrun & Hp & Hreq & _ & Hcb & _).
  exists w'. repeat split; assumption.
Defined.

(** ** C4: [finishResponse] *)

(** C4: with a current request, [finishResponse] is [nextRequest] when
    the request's keep-alive flag is set and [close] otherwise, and only
    then; [nextRequest] registers a read and leaves the transport as it
    is, [close] closes the transport. *)
Theorem finishResponse_keepalive (w : World) (r : HTTPRequest) :
  freed w = false ->
  cur_request_ w = Some r ->
  finishResponse w
  = (if keepalive (ext w) r then nextRequest w else close w) /\
  (finishResponse w = nextRequest w <-> keepalive (ext w) r = true) /\
  (finishResponse w = close w <-> keepalive (ext w) r = false) /\
  (exists w',
     nextRequest w = Ret tt w' /\
     conn_ w' = conn_ w /\
     readable (scheduler_ w') = S (readable (scheduler_ w)) /\
     trace w' = trace w ++ [EvParserReset; EvIncRef; EvRunOnReadable] /\
     count is_transport_close [EvParserReset; EvIncRef; EvRunOnReadable]
       = 0%nat) /\
  (exists w',
     close w = Ret tt w' /\
     conn_ w' = Closed /\
     scheduler_ w' = scheduler_ w /\
     trace w' = trace w ++ EvTransportClose :: EvDecRef (refcount_ w)
                  :: (if refcount_ w =? 1 then [EvDelete] else [])).
Proof.
  intros Hf Hr.
  assert (Heq : finishResponse w
                = (if keepalive (ext w) r then nextRequest w else close w)).
  { unfold finishResponse, bind, this. rewrite Hf, Hr.
    now destruct (keepalive (ext w) r). }
  pose proof (close_returns w Hf) as Hc.
  pose proof (nextRequest_returns w Hf) as Hn.
  assert (Hdiff : nextRequest w <> close w).
  { rewrite Hn, Hc. intros E. injection E as E.
    apply (f_equal trace) in E. rewrite closed_trace in E.
    unfold read_armed, request_prepared in E. world_simpl.
    rewrite <- app_assoc in E.
    apply app_inv_head in E. discriminate E. }
  split; [exact Heq|]. split; [|split; [|split]].
  - rewrite Heq. destruct (keepalive (ext w) r); split; intros E;
      try reflexivity; try discriminate E.
    symmetry in E; contradiction.
  - rewrite Heq. destruct (keepalive (ext w) r); split; intros E;
      try reflexivity; try discriminate E.
    contradiction.
  - exists (read_armed (request_prepared w)). split; [exact Hn|].
    unfold read_armed, request_prepared; world_simpl.
    repeat split. now rewrite <- app_assoc.
  - exists (closed w). split; [exact Hc|].
    split; [apply closed_conn|]. split; [apply closed_scheduler|].
    apply closed_trace.
Qed.

Lemma finishResponse_keepalive_witness :
  finishResponse (Scenario.answered true) = nextRequest (Scenario.answered true)
  /\ finishResponse (Scenario.answered false) = close (Scenario.answered false).
Proof.
  split.
  - apply (proj2 (proj1 (proj2 (finishResponse_keepalive
                                   (Scenario.answered true) _
                                   eq_refl eq_refl)))).
    reflexivity.
  - apply (proj2 (proj1 (proj2 (proj2 (finishResponse_keepalive
                                   (Scenario.answered false) _
                                   eq_refl eq_refl))))).
    reflexivity.
Defined.

(** ** C6: [readRequestBody] *)

(** C6: while the parser is before [S_BODY] (that is in [S_METHOD],
    [S_URI], [S_VERSION] or [S_HEADER]) [readRequestBody] raises
    [kIllegalStateError]: the callback is not called (the outcome does not
    depend on it and no chunk is recorded) and the body buffer is left as
    it was.  In [S_BODY] the callback gets the buffered bytes as a
    non-final chunk, after which the body buffer is cleared and a read is
    armed; in [S_DONE] it gets them as the final chunk and nothing
    follows. *)
Theorem readRequestBody_by_state
    (callback : list byte -> bool -> M unit) (w : World) :
  freed w = false ->
  let w1 := with_on_read_completed_cb_ (Some ReadBodyChunkCb) w in
  let chunk := data (body_buf_ w) in
  (state_lt (parser_ w) S_BODY = true ->
   readRequestBody callback w = Throw (Exception kIllegalStateError) w1 /\
   body_buf_ w1 = body_buf_ w /\
   trace w1 = trace w /\
   scheduler_ w1 = scheduler_ w) /\
  (parser_ w = S_BODY ->
   readRequestBody callback w
   = (callback chunk false ;;
      v <- this ;;
      update (with_body_buf_ (clear (body_buf_ v))) ;;
      awaitRead)
       (with_trace (trace w ++ [EvBodyChunk chunk false]) w1)) /\
  (parser_ w = S_DONE ->
   readRequestBody callback w
   = callback chunk true
       (with_trace (trace w ++ [EvBodyChunk chunk true]) w1)) /\
  (forall s,
     state_lt s S_BODY = true <->
     s = S_METHOD \/ s = S_URI \/ s = S_VERSION \/ s = S_HEADER).
Proof.
  intros Hf w1 chunk. subst w1 chunk.
  split; [|split; [|split]].
  - intros Hlt.
    split; [|repeat split].
    open_world w. run_members.
    match type of Hlt with state_lt ?p _ = _ => destruct p end;
      try discriminate Hlt; reflexivity.
  - intros Hs. open_world w. run_members. reflexivity.
  - intros Hs. open_world w. run_members.
    match goal with |- context [callback ?c ?l ?v] =>
      destruct (callback c l v) as [[] v'|e v'|]; reflexivity
    end.
  - exact state_lt_BODY.
Qed.

Lemma readRequestBody_by_state_witness :
  readRequestBody (fun _ _ => ret tt) (Scenario.started false)
  = Throw (Exception kIllegalStateError)
      (with_on_read_completed_cb_ (Some ReadBodyChunkCb)
         (Scenario.started false))
  /\
  readRequestBody (fun _ _ => ret tt) (Scenario.answered false)
  = Ret tt
      (with_trace (trace (Scenario.answered false) ++ [EvBodyChunk [] true])
         (with_on_read_completed_cb_ (Some ReadBodyChunkCb)
            (Scenario.answered false))).
Proof.
  split.
  - exact (proj1 (proj1 (readRequestBody_by_state (fun _ _ => ret tt)
                           (Scenario.started false) eq_refl) eq_refl)).
  - exact (proj1 (proj2 (proj2 (readRequestBody_by_state (fun _ _ => ret tt)
                           (Scenario.answered false) eq_refl))) eq_refl).
Defined.

(** ** Completion callbacks are entered by [read] and [write] only *)

Lemma extends_frame (p : Event -> bool) (w w' : World) :
  trace w' = trace w -> extends p w w'.
Proof. intros H. exists []. now rewrite H, app_nil_r. Qed.

Lemma extends_emit (p : Event -> bool) (e : Event) (w : World) :
  p e = true -> extends p w (with_trace (trace w ++ [e]) w).
Proof. intros H. exists [e]. cbn. now rewrite H. Qed.

Lemma incRef_extends (p : Event -> bool) :
  p EvIncRef = true -> respects (extends p) incRef.
Proof.
  intros Hp w. destruct (freed w) eqn:Hf.
  - unfold incRef, bind, this. now rewrite Hf.
  - open_world w. run_members. exists [EvIncRef]. cbn. now rewrite Hp.
Qed.

Lemma decRef_extends (p : Event -> bool) :
  (forall old, p (EvDecRef old) = true) -> p EvDelete = true ->
  respects (extends p) decRef.
Proof.
  intros Hd Hx w. destruct (freed w) eqn:Hf.
  - unfold decRef, bind, this. now rewrite Hf.
  - rewrite decRef_returns by exact Hf.
    exists (EvDecRef (refcount_ w)
              :: (if refcount_ w =? 1 then [EvDelete] else [])).
    split; [apply released_trace|].
    cbn. rewrite Hd. destruct (refcount_ w =? 1); cbn; now rewrite ?Hx.
Qed.

Lemma extends_quiet_emit (e : Event) (w : World) :
  plain e = true ->
  extends not_completion w (with_trace (trace w ++ [e]) w).
Proof. intros H. apply extends_emit. now destruct e. Qed.

Lemma run_script_quiet (s : Script) :
  respects (extends not_completion) (run_script s).
Proof.
  apply respects_run_script.
  - apply extends_refl.
  - apply extends_trans.
  - intros w w' _ _ H. now apply extends_frame.
  - exact extends_quiet_emit.
  - now apply incRef_extends.
  - now apply decRef_extends.
Qed.

Lemma parser_actions_quiet (po : list ParserAction) :
  respects (extends not_completion) (parser_actions po).
Proof.
  apply respects_parser_actions.
  - apply extends_refl.
  - apply extends_trans.
  - intros w w' _ _ H. now apply extends_frame.
  - exact extends_quiet_emit.
  - now apply incRef_extends.
  - now apply decRef_extends.
Qed.

Lemma quiet_counts (evs : list Event) :
  forallb not_completion evs = true ->
  count is_read_completed evs = 0%nat /\
  count is_write_completed evs = 0%nat.
Proof.
  intros Hq. split.
  - apply (count_forallb_false _ not_completion); [|exact Hq].
    intros e; now destruct e.
  - apply (count_forallb_false _ not_completion); [|exact Hq].
    intros e; now destruct e.
Qed.

(** ** C5: the paths of [read] that end in [close] *)

Lemma firstn_stored (bs : list byte) (b : Buffer) :
  firstn (length bs) (mem (store bs b)) = bs.
Proof.
  cbn [store mem]. rewrite firstn_app, firstn_all, Nat.sub_diag.
  cbn. apply app_nil_r.
Qed.

Lemma read_transport_error (t : kExceptionType) (po : list ParserAction)
    (w : World) :
  freed w = false ->
  read (ReadFails (Exception t)) po w
  = close (with_trace (trace w ++ [EvTransportReadFailed]) w).
Proof.
  intros Hf. unfold read, try_catch, conn_read, logf.
  unfold bind at 1 2 3 4 5, this, emit, throw, ret. rewrite Hf.
  unfold bind. destruct (close _) as [[] w'|e w'|]; reflexivity.
Qed.

Lemma conn_read_returns (bs : list byte) (w : World) :
  freed w = false ->
  (length bs <= allocSize (buf_ w))%nat ->
  conn_read (ReadBytes bs) w = Ret (length bs) (after_read bs w).
Proof.
  intros Hf Hlen. apply Nat.leb_le in Hlen.
  unfold conn_read, after_read, bind, this, update, emit, ret.
  rewrite Hf, Hlen. world_simpl. now rewrite Hf.
Qed.

Lemma read_after_transport (bs : list byte) (po : list ParserAction)
    (w : World) :
  freed w = false ->
  (length bs <= allocSize (buf_ w))%nat ->
  read (ReadBytes bs) po w
  = (go_on <- try_catch
                (if (length bs =? 0)%nat then
                   parser_eof po ;; close ;; ret false
                 else
                   parser_parse bs po ;; ret true)
                (fun e =>
                   logf "HTTP parse error, closing connection" ;;
                   close ;;
                   ret false) ;;
     if go_on : bool then
       v <- this ;;
       match on_read_completed_cb_ v with
       | Some cb => emit EvReadCompleted ;; invoke_read_completed cb
       | None => ret tt
       end ;;
       _ <- decRef ;;
       ret tt
     else ret tt) (after_read bs w).
Proof.
  intros Hf Hlen. unfold read.
  unfold bind at 1, try_catch at 1, bind at 1.
  rewrite conn_read_returns by assumption.
  unfold ret at 1.
  assert (Hfa : freed (after_read bs w) = false) by exact Hf.
  assert (Hmem : firstn (length bs) (mem (buf_ (after_read bs w))) = bs)
    by (unfold after_read; world_simpl; apply firstn_stored).
  unfold bind at 1 7, try_catch.
  destruct (length bs =? 0)%nat.
  - reflexivity.
  - unfold bind at 1 6, this at 1 3. rewrite Hfa, Hmem. reflexivity.
Qed.

Lemma close_cases (w : World) :
  close w = if freed w then Undefined else Ret tt (closed w).
Proof.
  destruct (freed w) eqn:Hf; [|now apply close_returns].
  unfold close, conn_close, logf, bind, ret, update. now rewrite Hf.
Qed.

Lemma read_fails_close (tr : TransportRead) (po : list ParserAction)
    (w w2 : World) :
  freed w = false -> read_fails tr po w w2 -> read tr po w = close w2.
Proof.
  intros Hf H.
  destruct H as [t po w|po w w2 He|po w t w2 He|bs po w t w2 Hne Hlen Hp].
  - now apply read_transport_error.
  - rewrite read_after_transport by (try assumption; cbn; lia).
    cbn [length Nat.eqb]. unfold bind at 1, try_catch, bind at 1.
    rewrite He. unfold bind, logf, ret. rewrite close_cases.
    now destruct (freed w2).
  - rewrite read_after_transport by (try assumption; cbn; lia).
    cbn [length Nat.eqb]. unfold bind at 1, try_catch, bind at 1.
    rewrite He. unfold bind, logf, ret. rewrite close_cases.
    now destruct (freed w2).
  - rewrite read_after_transport by assumption.
    assert (Hnz : (length bs =? 0)%nat = false)
      by (destruct bs; [contradiction|reflexivity]).
    rewrite Hnz. unfold bind at 1, try_catch, bind at 1.
    rewrite Hp. unfold bind, logf, ret. rewrite close_cases.
    now destruct (freed w2).
Qed.

Lemma parser_actions_trace (po : list ParserAction) (w w2 : World) :
  final_world (parser_actions po w) = Some w2 ->
  exists evs, trace w2 = trace w ++ evs /\ forallb not_completion evs = true.
Proof.
  intros E.
  exact (respects_final _ _ _ _ (parser_actions_quiet po) E).
Qed.

Lemma parser_eof_trace (po : list ParserAction) (w w2 : World) :
  final_world (parser_eof po w) = Some w2 ->
  exists evs,
    trace w2 = trace w ++ EvParserEof :: evs /\
    forallb not_completion evs = true.
Proof.
  unfold parser_eof, bind, this, emit.
  destruct (freed w); [discriminate|]. intros E.
  apply parser_actions_trace in E as (evs & Ht & Hq).
  exists evs. split; [|exact Hq].
  rewrite Ht. world_simpl. now rewrite <- app_assoc.
Qed.

Lemma parser_parse_trace (bs : list byte) (po : list ParserAction)
    (w w2 : World) :
  final_world (parser_parse bs po w) = Some w2 ->
  exists evs,
    trace w2 = trace w ++ EvParserParse bs :: evs /\
    forallb not_completion evs = true.
Proof.
  unfold parser_parse, bind, this, emit.
  destruct (freed w); [discriminate|]. intros E.
  apply parser_actions_trace in E as (evs & Ht & Hq).
  exists evs. split; [|exact Hq].
  rewrite Ht. world_simpl. now rewrite <- app_assoc.
Qed.

(** Up to the point where [read] turns to [close], no completion callback
    has been entered. *)
Lemma read_fails_trace (tr : TransportRead) (po : list ParserAction)
    (w w2 : World) :
  read_fails tr po w w2 ->
  exists evs,
    trace w2 = trace w ++ evs /\
    forallb not_completion evs = true /\
    (tr = ReadBytes [] ->
     exists rest, evs = EvTransportRead [] :: EvParserEof :: rest).
Proof.
  intros H.
  destruct H as [t po w|po w w2 He|po w t w2 He|bs po w t w2 Hne Hlen Hp].
  - exists [EvTransportReadFailed]. repeat split. discriminate.
  - destruct (parser_eof_trace po (after_read [] w) w2) as (evs & Ht & Hq);
      [now rewrite He|].
    exists (EvTransportRead [] :: EvParserEof :: evs).
    unfold after_read in Ht; world_simpl.
    rewrite Ht, <- app_assoc. repeat split; [exact Hq|]. now exists evs.
  - destruct (parser_eof_trace po (after_read [] w) w2) as (evs & Ht & Hq);
      [now rewrite He|].
    exists (EvTransportRead [] :: EvParserEof :: evs).
    unfold after_read in Ht; world_simpl.
    rewrite Ht, <- app_assoc. repeat split; [exact Hq|]. now exists evs.
  - destruct (parser_parse_trace bs po (after_read bs w) w2)
      as (evs & Ht & Hq); [now rewrite Hp|].
    exists (EvTransportRead bs :: EvParserParse bs :: evs).
    unfold after_read in Ht; world_simpl.
    rewrite Ht, <- app_assoc. repeat split; [exact Hq|].
    intros [= ->]. contradiction.
Qed.

(** C5: when the transport read fails, when it reads zero bytes (the peer
    closed; the parser is then told by [eof]) and when the parser raises a
    parse error, [read] goes on as [close] on the world reached, and so
    returns with the transport closed; from the start of [read] to its
    return the read-completion callback is not entered. *)
Theorem read_closes_without_callback
    (tr : TransportRead) (po : list ParserAction) (w w2 : World) :
  freed w = false ->
  read_fails tr po w w2 ->
  read tr po w = close w2 /\
  (tr = ReadBytes [] ->
   exists rest,
     trace w2 = trace w ++ EvTransportRead [] :: EvParserEof :: rest) /\
  (freed w2 = false ->
   exists w' evs,
     read tr po w = Ret tt w' /\
     conn_ w' = Closed /\
     scheduler_ w' = scheduler_ w2 /\
     trace w' = trace w2 ++ EvTransportClose :: EvDecRef (refcount_ w2)
                  :: (if refcount_ w2 =? 1 then [EvDelete] else []) /\
     trace w' = trace w ++ evs /\
     count is_read_completed evs = 0%nat /\
     (1 <= count is_transport_close evs)%nat).
Proof.
  intros Hf H.
  pose proof (read_fails_close tr po w w2 Hf H) as Hclose.
  destruct (read_fails_trace tr po w w2 H) as (evs0 & Ht & Hq & Heof).
  split; [exact Hclose|]. split.
  - intros Htr. destruct (Heof Htr) as [rest ->]. now exists rest.
  - intros Hf2.
    exists (closed w2),
           (evs0 ++ EvTransportClose :: EvDecRef (refcount_ w2)
              :: (if refcount_ w2 =? 1 then [EvDelete] else [])).
    rewrite Hclose, close_returns by exact Hf2.
    split; [reflexivity|]. split; [apply closed_conn|].
    split; [apply closed_scheduler|]. split; [apply closed_trace|].
    split; [now rewrite closed_trace, Ht, <- app_assoc|].
    rewrite !count_app.
    destruct (quiet_counts evs0 Hq) as [Hrc _]. rewrite Hrc.
    destruct (refcount_ w2 =? 1); split;
      try reflexivity; unfold count at 2; cbn; lia.
Qed.

Lemma read_closes_without_callback_witness :
  exists w',
    read (ReadBytes []) [] (Scenario.started false) = Ret tt w' /\
    conn_ w' = Closed /\
    count is_read_completed (trace w') = 0%nat.
Proof.
  pose (w := Scenario.started false).
  pose (w2 := with_trace (trace (after_read [] w) ++ [EvParserEof])
                (after_read [] w)).
  assert (Hfails : read_fails (ReadBytes []) [] w w2)
    by (apply peer_closed; reflexivity).
  destruct (proj2 (proj2 (read_closes_without_callback
                            (ReadBytes []) [] w w2 eq_refl Hfails))
              eq_refl)
    as (w' & evs & Hrun & Hconn & _ & Htr & _).
  exists w'. split; [exact Hrun|]. split; [exact Hconn|].
  rewrite Htr. reflexivity.
Defined.

(** ** The paths of [write] *)

Lemma write_transport_error (tw : TransportWrite) (t : kExceptionType)
    (w : World) :
  freed w = false ->
  tw (unsent (buf_ w)) = WriteFails (Exception t) ->
  write tw w
  = close (with_trace
             (trace w ++ [EvTransportWriteFailed (unsent (buf_ w))]) w).
Proof.
  intros Hf Htw. open_world w. run_members. rewrite Htw. world_simpl.
  match goal with |- context [?r =? 1] => destruct (r =? 1) end;
    reflexivity.
Qed.

Lemma write_transport_throws (tw : TransportWrite) (what : string)
    (w : World) :
  freed w = false ->
  tw (unsent (buf_ w)) = WriteFails (std_exception what) ->
  write tw w
  = Throw (std_exception what)
      (with_trace
         (trace w ++ [EvTransportWriteFailed (unsent (buf_ w))]) w).
Proof.
  intros Hf Htw. open_world w. run_members. rewrite Htw. reflexivity.
Qed.

Lemma write_partial_returns (tw : TransportWrite) (w : World) (len : nat) :
  freed w = false ->
  tw (unsent (buf_ w)) = WriteAccepts len ->
  (mark (buf_ w) + len < size (buf_ w))%nat ->
  write tw w
  = Ret tt
      (released
         (with_trace
            (trace w ++
             [EvTransportWrite (unsent (buf_ w)) len;
              EvIncRef; EvRunOnWritable])
            (with_scheduler_
               {| readable := readable (scheduler_ w);
                  writable := S (writable (scheduler_ w)) |}
               (with_refcount_ ((refcount_ w + 1) mod refcount_modulus)
                  (with_buf_ (setMark (mark (buf_ w) + len) (buf_ w))
                     w))))).
Proof.
  intros Hf Htw Hlt. apply Nat.ltb_lt in Hlt.
  unfold released. open_world w. run_members.
  rewrite Htw. world_simpl. rewrite Hlt. world_simpl.
  match goal with |- context [?r =? 1] => destruct (r =? 1) end;
    world_simpl; rewrite <- ?app_assoc; reflexivity.
Qed.

Lemma write_completion_no_callback (w : World) :
  freed w = false ->
  on_write_completed_cb_ w = None ->
  write_completion w = Ret tt (released w).
Proof.
  intros Hf Hcb. unfold released. open_world w. run_members.
  match goal with |- context [?r =? 1] => destruct (r =? 1) end;
    world_simpl; rewrite <- ?app_assoc; reflexivity.
Qed.

(* ===================================================================== *)
(** * httpconnection.cc: the connection at work *)
(* ===================================================================== *)

Lemma writeResponse_returns (resp : HTTPResponse) (cb : option Script)
    (w : World) :
  freed w = false ->
  writeResponse resp cb w = Ret tt (response_buffered resp cb w).
Proof.
  intros Hf. unfold response_buffered. open_world w. run_members.
  now rewrite <- app_assoc.
Qed.

Lemma awaitWrite_returns (w : World) :
  freed w = false -> awaitWrite w = Ret tt (write_armed w).
Proof.
  intros Hf. unfold write_armed. open_world w. run_members.
  now rewrite <- app_assoc.
Qed.

Lemma start_returns e hf conn sched :
  start e hf conn sched
  = Ret tt (read_armed (request_prepared (new_HTTPConnection e hf conn sched))).
Proof. unfold start. now apply nextRequest_returns. Qed.

Lemma allocSize_reserve (n : nat) (b : Buffer) :
  (n <= allocSize (reserve n b))%nat /\
  (allocSize b <= allocSize (reserve n b))%nat.
Proof.
  unfold allocSize, reserve; cbn [mem].
  rewrite length_app, repeat_length. lia.
Qed.

(** X4: [start] makes the connection and arms the first read: it returns
    with the count at 2 (the reference the constructor starts with and
    the one taken for the registered read), one readable callback more in
    the scheduler, an empty request, the parser and the callbacks as
    [nextRequest] leaves them, and a receive buffer of at least
    [kMinBufferSize] bytes. *)
Theorem start_arms_first_read e hf conn sched :
  exists w,
    start e hf conn sched = Ret tt w /\
    refcount_ w = 2 /\ freed w = false /\ conn_ w = conn /\
    readable (scheduler_ w) = S (readable sched) /\
    writable (scheduler_ w) = writable sched /\
    parser_ w = S_METHOD /\
    cur_request_ w = Some new_HTTPRequest /\
    cur_handler_ w = None /\
    on_read_completed_cb_ w = Some HeaderPhaseCb /\
    on_write_completed_cb_ w = None /\
    size (buf_ w) = 0%nat /\ mark (buf_ w) = 0%nat /\
    (kMinBufferSize e <= allocSize (buf_ w))%nat /\
    trace w = [EvParserReset; EvIncRef; EvRunOnReadable].
Proof.
  eexists. split; [apply start_returns|].
  unfold read_armed, request_prepared, new_HTTPConnection; world_simpl.
  repeat split.
  apply allocSize_reserve.
Qed.

Lemma run_nothing_pending (w : World) (inputs : list Readiness) :
  pending w = 0%nat -> run inputs w = Ret tt w.
Proof.
  unfold pending. intros Hp.
  assert (Hr : readable (scheduler_ w) = 0%nat) by lia.
  assert (Hw : writable (scheduler_ w) = 0%nat) by lia.
  induction inputs as [|i rest IH]; [reflexivity|].
  cbn [run]. unfold bind at 1, step.
  destruct i; rewrite ?Hr, ?Hw; exact IH.
Qed.

Lemma lifetime_first (e : Collaborators) hf (i : Readiness)
    (inputs : list Readiness) :
  lifetime e hf (i :: inputs)
  = (step i ;; run inputs)
      (read_armed (request_prepared
         (new_HTTPConnection e hf Open {| readable := 0; writable := 0 |}))).
Proof.
  unfold lifetime, start. rewrite nextRequest_returns by reflexivity.
  reflexivity.
Qed.

Lemma read_peer_closed (w : World) :
  freed w = false ->
  read (ReadBytes []) [] w
  = close (with_trace (trace w ++ [EvTransportRead []; EvParserEof])
             (with_buf_ (store [] (buf_ w)) w)).
Proof.
  intros Hf.
  rewrite (read_fails_close (ReadBytes []) [] w
             (with_trace (trace w ++ [EvTransportRead []; EvParserEof])
                (with_buf_ (store [] (buf_ w)) w)) Hf); [reflexivity|].
  apply peer_closed.
  unfold parser_eof, after_read, bind, this, emit. world_simpl.
  rewrite Hf. cbn [parser_actions]. unfold ret. world_simpl.
  now rewrite <- app_assoc.
Qed.

(** X5: When the first read of a connection fails (the transport raises an
    error, or the peer has closed and [eof] is taken by the parser) the
    connection closes its transport and gives up one of its two
    references: the count stays at 1 with nothing scheduled, so the
    object is not deallocated, and no later notification changes that. *)
Theorem failed_first_read_is_never_freed e hf (inputs : list Readiness) :
  (forall (t : kExceptionType) (po : list ParserAction),
     exists w,
       lifetime e hf (Readable (ReadFails (Exception t)) po :: inputs)
         = Ret tt w /\
       freed w = false /\ refcount_ w = 1 /\ conn_ w = Closed /\
       pending w = 0%nat /\
       trace w = [EvParserReset; EvIncRef; EvRunOnReadable;
                  EvTransportReadFailed; EvTransportClose; EvDecRef 2]) /\
  (exists w,
     lifetime e hf (Readable (ReadBytes []) [] :: inputs) = Ret tt w /\
     freed w = false /\ refcount_ w = 1 /\ conn_ w = Closed /\
     pending w = 0%nat /\
     trace w = [EvParserReset; EvIncRef; EvRunOnReadable;
                EvTransportRead []; EvParserEof;
                EvTransportClose; EvDecRef 2]).
Proof.
  split.
  - intros t po. eexists. split.
    + rewrite lifetime_first. unfold bind at 1, step.
      cbn [read_armed request_prepared new_HTTPConnection scheduler_
           with_trace with_scheduler_ readable writable].
      rewrite read_transport_error by reflexivity.
      rewrite close_returns by reflexivity.
      apply run_nothing_pending. reflexivity.
    + repeat split.
  - eexists. split.
    + rewrite lifetime_first. unfold bind at 1, step.
      cbn [read_armed request_prepared new_HTTPConnection scheduler_
           with_trace with_scheduler_ readable writable].
      rewrite read_peer_closed by reflexivity.
      rewrite close_returns by reflexivity.
      apply run_nothing_pending. reflexivity.
    + repeat split.
Qed.

Ltac unfold_completion :=
  unfold read_completion, invoke_read_completed in *.

Lemma read_parsed (bs : list byte) (po : list ParserAction) (w w2 : World) :
  freed w = false -> bs <> [] ->
  (length bs <= allocSize (buf_ w))%nat ->
  parser_parse bs po (after_read bs w) = Ret tt w2 ->
  read (ReadBytes bs) po w = read_completion w2.
Proof.
  intros Hf Hne Hlen Hp.
  rewrite read_after_transport by assumption.
  assert (Hnz : (length bs =? 0)%nat = false)
    by (destruct bs; [contradiction|reflexivity]).
  rewrite Hnz. unfold bind at 1, try_catch, bind at 1.
  rewrite Hp. reflexivity.
Qed.

Lemma read_parse_throws (bs : list byte) (po : list ParserAction)
    (w w2 : World) (what : string) :
  freed w = false -> bs <> [] ->
  (length bs <= allocSize (buf_ w))%nat ->
  parser_parse bs po (after_read bs w) = Throw (std_exception what) w2 ->
  read (ReadBytes bs) po w = Throw (std_exception what) w2.
Proof.
  intros Hf Hne Hlen Hp.
  rewrite read_after_transport by assumption.
  assert (Hnz : (length bs =? 0)%nat = false)
    by (destruct bs; [contradiction|reflexivity]).
  rewrite Hnz. unfold bind at 1, try_catch, bind at 1.
  rewrite Hp. reflexivity.
Qed.

Lemma read_completion_header (w : World) :
  freed w = false ->
  0 < refcount_ w < refcount_modulus ->
  on_read_completed_cb_ w = Some HeaderPhaseCb ->
  state_lt (parser_ w) S_BODY = true ->
  read_completion w
  = Ret tt
      (with_scheduler_
         {| readable := S (readable (scheduler_ w));
            writable := writable (scheduler_ w) |}
         (with_trace
            (trace w ++
             [EvReadCompleted; EvIncRef; EvRunOnReadable;
              EvDecRef ((refcount_ w + 1) mod refcount_modulus)])
            w)).
Proof.
  intros Hf Hr Hcb Hlt.
  destruct (incRef_decRef_roundtrip _ Hr) as [Hne Hback].
  open_world w. unfold_completion. run_members.
  rewrite Hlt. world_simpl. rewrite Hne, Hback, <- !app_assoc. reflexivity.
Qed.

Lemma read_completion_past_header (w : World) :
  freed w = false ->
  on_read_completed_cb_ w = Some HeaderPhaseCb ->
  state_lt (parser_ w) S_BODY = false ->
  read_completion w
  = Ret tt (released (with_trace (trace w ++ [EvReadCompleted]) w)).
Proof.
  intros Hf Hcb Hlt.
  unfold released. open_world w. unfold_completion. run_members.
  rewrite Hlt. world_simpl.
  match goal with |- context [?r =? 1] => destruct (r =? 1) end;
    world_simpl; rewrite <- ?app_assoc; reflexivity.
Qed.

Lemma read_completion_body_chunk (w : World) :
  freed w = false ->
  on_read_completed_cb_ w = Some ReadBodyChunkCb ->
  read_completion w
  = match parser_ w with
    | S_BODY | S_DONE => Undefined
    | _ => Throw (Exception kIllegalStateError)
             (with_trace (trace w ++ [EvReadCompleted]) w)
    end.
Proof.
  intros Hf Hcb.
  open_world w. unfold_completion. run_members.
  match goal with |- context [match ?p with S_METHOD => _ | _ => _ end] =>
    destruct p end; reflexivity.
Qed.

(** ** What every member function keeps, read off the leaves *)

Lemma freed_undefined {A} (k : World -> M A) (w : World) :
  freed w = true -> bind this k w = Undefined.
Proof. intros Hf. unfold bind, this. now rewrite Hf. Qed.

Lemma decRef_cases (w : World) :
  decRef w
  = if freed w then Undefined else Ret (refcount_ w =? 1) (released w).
Proof.
  destruct (freed w) eqn:Hf; [|now apply decRef_returns].
  unfold decRef. now apply freed_undefined.
Qed.

Lemma awaitRead_cases (w : World) :
  awaitRead w = if freed w then Undefined else Ret tt (read_armed w).
Proof.
  destruct (freed w) eqn:Hf; [|now apply awaitRead_returns].
  unfold awaitRead, incRef, bind, this. now rewrite Hf.
Qed.

Lemma awaitWrite_cases (w : World) :
  awaitWrite w = if freed w then Undefined else Ret tt (write_armed w).
Proof.
  destruct (freed w) eqn:Hf; [|now apply awaitWrite_returns].
  unfold awaitWrite, incRef, bind, this. now rewrite Hf.
Qed.

Lemma nextRequest_cases (w : World) :
  nextRequest w
  = if freed w then Undefined
    else Ret tt (read_armed (request_prepared w)).
Proof.
  destruct (freed w) eqn:Hf; [|now apply nextRequest_returns].
  unfold nextRequest, parser_reset, bind, update. now rewrite Hf.
Qed.

Lemma writeResponse_cases (resp : HTTPResponse) (cb : option Script)
    (w : World) :
  writeResponse resp cb w
  = if freed w then Undefined else Ret tt (response_buffered resp cb w).
Proof.
  destruct (freed w) eqn:Hf; [|now apply writeResponse_returns].
  unfold writeResponse. now apply freed_undefined.
Qed.

Lemma conn_read_cases (tr : TransportRead) (w : World) :
  conn_read tr w
  = if freed w then Undefined
    else match tr with
         | ReadFails e =>
             Throw e (with_trace (trace w ++ [EvTransportReadFailed]) w)
         | ReadBytes bs =>
             if (length bs <=? allocSize (buf_ w))%nat
             then Ret (length bs) (after_read bs w)
             else Undefined
         end.
Proof.
  destruct (freed w) eqn:Hf.
  - unfold conn_read. now apply freed_undefined.
  - destruct tr as [e|bs].
    + unfold conn_read, bind, this, emit, throw. now rewrite Hf.
    + destruct (length bs <=? allocSize (buf_ w))%nat eqn:Hlen.
      * apply conn_read_returns; [exact Hf|now apply Nat.leb_le].
      * unfold conn_read, bind, this. now rewrite Hf, Hlen.
Qed.

Section Passes.

(** [R] is kept by everything a handler or the parser can make the
    connection do; [D] by [read] and [write], which in addition release
    the reference of the callback that ran them. *)
Variables R D : World -> World -> Prop.
Hypothesis R_refl : forall w, R w w.
Hypothesis R_trans : forall a b c, R a b -> R b c -> R a c.
Hypothesis R_D : forall a b, R a b -> D a b.
Hypothesis R_D_trans : forall a b c, R a b -> D b c -> D a c.

Hypothesis R_emit :
  forall e w,
    is_incRef e = false -> is_decRef e = false -> is_delete e = false ->
    is_transport_close e = false ->
    R w (with_trace (trace w ++ [e]) w).
Hypothesis R_parser : forall s w, R w (with_parser_ s w).
Hypothesis R_cur_request : forall r w, R w (with_cur_request_ (Some r) w).
Hypothesis R_cur_handler : forall h w, R w (with_cur_handler_ h w).
Hypothesis R_body_buf : forall b w, R w (with_body_buf_ b w).
Hypothesis R_read_cb :
  forall cb w, R w (with_on_read_completed_cb_ (Some cb) w).
Hypothesis R_setMark :
  forall len w,
    (mark (buf_ w) + len < size (buf_ w))%nat ->
    R w (with_buf_ (setMark (mark (buf_ w) + len) (buf_ w)) w).
Hypothesis R_clear : forall w, R w (with_buf_ (clear (buf_ w)) w).
Hypothesis R_after_read :
  forall bs w,
    (length bs <= allocSize (buf_ w))%nat -> R w (after_read bs w).
Hypothesis R_read_armed : forall w, R w (read_armed w).
Hypothesis R_write_armed : forall w, R w (write_armed w).
Hypothesis R_closed : forall w, freed w = false -> R w (closed w).
Hypothesis R_request_prepared : forall w, R w (request_prepared w).
Hypothesis R_response_buffered :
  forall resp cb w, R w (response_buffered resp cb w).
Hypothesis D_released : forall w, freed w = false -> D w (released w).
Hypothesis D_readable :
  forall w n w',
    readable (scheduler_ w) = S n ->
    D (with_scheduler_ {| readable := n; writable := writable (scheduler_ w) |}
         w) w' ->
    R w w'.
Hypothesis D_writable :
  forall w n w',
    writable (scheduler_ w) = S n ->
    D (with_scheduler_ {| readable := readable (scheduler_ w); writable := n |}
         w) w' ->
    R w w'.

Lemma outcome_trans {A} (a b : World) (r : result A) :
  R a b -> outcome R b r -> outcome R a r.
Proof. intros Hab. destruct r; cbn; eauto. Qed.

Lemma outcome_R_D {A} (a : World) (r : result A) :
  outcome R a r -> outcome D a r.
Proof. destruct r; cbn; auto. Qed.

Lemma passes_update (f : World -> World) :
  (forall w, R w (f w)) -> respects R (update f).
Proof. intros Hf w. unfold update. destruct (freed w); cbn; auto. Qed.

Lemma passes_emit (e : Event) :
  is_incRef e = false -> is_decRef e = false -> is_delete e = false ->
  is_transport_close e = false ->
  respects R (emit e).
Proof. intros H1 H2 H3 H4 w. unfold emit. now apply R_emit. Qed.

Lemma passes_awaitRead : respects R awaitRead.
Proof. intros w. rewrite awaitRead_cases. destruct (freed w); cbn; auto. Qed.

Lemma passes_awaitWrite : respects R awaitWrite.
Proof. intros w. rewrite awaitWrite_cases. destruct (freed w); cbn; auto. Qed.

Lemma passes_close : respects R close.
Proof.
  intros w. rewrite close_cases. destruct (freed w) eqn:Hf; cbn; auto.
Qed.

Lemma passes_nextRequest : respects R nextRequest.
Proof.
  intros w. rewrite nextRequest_cases. destruct (freed w); cbn; [exact I|].
  apply (R_trans _ (request_prepared w)); auto.
Qed.

Lemma passes_writeResponse resp cb : respects R (writeResponse resp cb).
Proof.
  intros w. rewrite writeResponse_cases. destruct (freed w); cbn; auto.
Qed.

Lemma passes_conn_read tr : respects R (conn_read tr).
Proof.
  intros w. rewrite conn_read_cases.
  destruct (freed w); [exact I|].
  destruct tr as [e|bs]; cbn.
  - now apply R_emit.
  - destruct (length bs <=? allocSize (buf_ w))%nat eqn:Hlen; cbn;
      [|exact I].
    apply R_after_read. now apply Nat.leb_le.
Qed.

Ltac passes_step :=
  lazymatch goal with
  | |- respects _ (ret _) => apply (respects_ret R R_refl)
  | |- respects _ (throw _) => apply (respects_throw R R_refl)
  | |- respects _ undefined => apply respects_undefined
  | |- respects _ this => apply (respects_this R R_refl)
  | |- respects _ awaitRead => exact passes_awaitRead
  | |- respects _ awaitWrite => exact passes_awaitWrite
  | |- respects _ close => exact passes_close
  | |- respects _ nextRequest => exact passes_nextRequest
  | |- respects _ (writeResponse _ _) => apply passes_writeResponse
  | |- respects _ (conn_read _) => apply passes_conn_read
  | |- respects _ (emit _) => apply passes_emit; reflexivity
  | |- respects _ (update _) => apply passes_update; intros; auto
  | |- respects _ (bind _ _) => apply (respects_bind R R_trans); [|intros ?]
  | |- respects _ (try_catch _ _) =>
      apply (respects_try_catch R R_trans); [|intros ?]
  | |- respects _ (match ?x with _ => _ end) => destruct x
  | |- _ => assumption
  end.

Ltac passes_auto := repeat passes_step.

Lemma passes_conn_write tw offered : respects R (conn_write tw offered).
Proof. unfold conn_write; passes_auto. Qed.

Lemma passes_header_phase_cb : respects R header_phase_cb.
Proof. unfold header_phase_cb; passes_auto. Qed.

Lemma passes_read_body_chunk
    (callback : option (list byte -> bool -> M unit)) :
  (forall f bs last, callback = Some f -> respects R (f bs last)) ->
  respects R (read_body_chunk callback).
Proof.
  intros Hcb. unfold read_body_chunk, logf.
  apply (respects_bind R R_trans); [passes_auto|intros w].
  apply (respects_bind R R_trans); [passes_auto|intros last].
  apply (respects_bind R R_trans); [passes_auto|intros _].
  apply (respects_bind R R_trans).
  - destruct callback as [f|]; [|apply respects_undefined].
    specialize (Hcb f). passes_auto. now apply Hcb.
  - intros _. passes_auto.
Qed.

Lemma passes_readRequestBody (callback : list byte -> bool -> M unit) :
  (forall bs last, respects R (callback bs last)) ->
  respects R (readRequestBody callback).
Proof.
  intros Hcb. unfold readRequestBody. passes_auto.
  apply passes_read_body_chunk.
  intros f bs last [= <-]. apply Hcb.
Qed.

Lemma passes_finishResponse : respects R finishResponse.
Proof. unfold finishResponse; passes_auto. Qed.

Lemma passes_run_script (s : Script) : respects R (run_script s).
Proof.
  induction s as [|resp rc _ k IHk|chunk rc _ k IHk|k IHk|cb IHcb k IHk|e];
    cbn [run_script]; unfold writeResponseBody; passes_auto.
  - apply passes_finishResponse.
  - apply passes_readRequestBody. intros bs last; apply IHcb.
Qed.

Lemma passes_dispatchRequest : respects R dispatchRequest.
Proof.
  unfold dispatchRequest.
  apply (respects_bind R R_trans); [passes_auto|intros w].
  passes_auto. apply passes_run_script.
Qed.

Lemma passes_parser_actions (po : list ParserAction) :
  respects R (parser_actions po).
Proof.
  pose proof passes_dispatchRequest.
  induction po as [|a po IH]; cbn [parser_actions]; passes_auto.
  destruct a; unfold parser_action, on_cur_request; passes_auto.
Qed.

Lemma passes_parser_parse bs po : respects R (parser_parse bs po).
Proof.
  unfold parser_parse. passes_auto. apply passes_parser_actions.
Qed.

Lemma passes_parser_eof po : respects R (parser_eof po).
Proof.
  unfold parser_eof. passes_auto. apply passes_parser_actions.
Qed.

(** [read] and [write] *)

Lemma passes_R_D {A} (m : M A) : respects R m -> respects D m.
Proof. intros H w. apply outcome_R_D, H. Qed.

Lemma passes_then {A B} (m : M A) (k : A -> M B) :
  respects R m -> (forall a, respects D (k a)) -> respects D (bind m k).
Proof.
  intros Hm Hk w. unfold bind.
  specialize (Hm w).
  destruct (m w) as [a w1|e w1|]; [|exact (R_D _ _ Hm)|exact I].
  specialize (Hk a w1).
  destruct (k a w1) as [b w2|e w2|];
    [exact (R_D_trans _ _ _ Hm Hk)|exact (R_D_trans _ _ _ Hm Hk)|exact I].
Qed.

Lemma passes_release : respects D (_ <- decRef ;; ret tt).
Proof.
  intros w. unfold bind, ret. rewrite decRef_cases.
  destruct (freed w) eqn:Hf; cbn; auto.
Qed.

Lemma passes_read_completion : respects D read_completion.
Proof.
  unfold read_completion.
  apply passes_then; [passes_auto|intros w].
  apply passes_then; [|intros _; apply passes_release].
  destruct (on_read_completed_cb_ w) as [[|]|]; passes_auto.
  - apply passes_header_phase_cb.
  - cbn. apply passes_read_body_chunk. discriminate.
Qed.

Lemma passes_read tr po : respects D (read tr po).
Proof.
  unfold read, logf.
  apply passes_then; [passes_auto|intros [len|]];
    [|apply passes_R_D; passes_auto].
  apply passes_then.
  - apply (respects_try_catch R R_trans); [|intros t; passes_auto].
    destruct (len =? 0)%nat.
    + apply (respects_bind R R_trans); [apply passes_parser_eof|intros _].
      passes_auto.
    + apply (respects_bind R R_trans); [passes_auto|intros w].
      apply (respects_bind R R_trans); [apply passes_parser_parse|intros _].
      passes_auto.
  - intros [|]; [|apply passes_R_D; passes_auto].
    exact passes_read_completion.
Qed.

Lemma passes_write tw : respects D (write tw).
Proof.
  unfold write, logf.
  apply passes_then; [passes_auto|intros w0].
  apply passes_then; [passes_auto; apply passes_conn_write|].
  intros [len|]; [|apply passes_R_D; passes_auto].
  intros w. unfold bind at 1, this.
  destruct (freed w) eqn:Hf; [exact I|].
  change (outcome D w
            (bind (if (mark (buf_ w) + len <? size (buf_ w))%nat
                   then
                     update (with_buf_ (setMark (mark (buf_ w) + len) (buf_ w))) ;;
                     awaitWrite
                   else
                     update (with_buf_ (clear (buf_ w))) ;;
                     v <- this ;;
                     match on_write_completed_cb_ v with
                     | Some cb =>
                         emit EvWriteCompleted ;;
                         run_script cb ;;
                         emit EvWriteCompletedReturn
                     | None => ret tt
                     end)
               (fun _ => _ <- decRef ;; ret tt) w)).
  assert (Hbody :
    outcome R w
      ((if (mark (buf_ w) + len <? size (buf_ w))%nat
        then
          update (with_buf_ (setMark (mark (buf_ w) + len) (buf_ w))) ;;
          awaitWrite
        else
          update (with_buf_ (clear (buf_ w))) ;;
          v <- this ;;
          match on_write_completed_cb_ v with
          | Some cb =>
              emit EvWriteCompleted ;;
              run_script cb ;;
              emit EvWriteCompletedReturn
          | None => ret tt
          end) w)).
  { destruct (mark (buf_ w) + len <? size (buf_ w))%nat eqn:Hlt.
    - unfold bind at 1, update. rewrite Hf.
      apply (outcome_trans w
               (with_buf_ (setMark (mark (buf_ w) + len) (buf_ w)) w)).
      + apply R_setMark. now apply Nat.ltb_lt.
      + apply passes_awaitWrite.
    - unfold bind at 1, update. rewrite Hf.
      apply (outcome_trans w (with_buf_ (clear (buf_ w)) w));
        [apply R_clear|].
      match goal with |- outcome R ?v (?m ?v) =>
        assert (Hm : respects R m); [|exact (Hm v)]
      end.
      apply (respects_bind R R_trans); [passes_auto|intros v].
      destruct (on_write_completed_cb_ v) as [cb|]; passes_auto.
      apply passes_run_script. }
  unfold bind at 1.
  match type of Hbody with outcome R w ?r =>
    destruct r as [[] w1|e w1|]; [|exact (R_D _ _ Hbody)|exact I]
  end.
  pose proof (passes_release w1) as Hrel.
  destruct ((_ <- decRef ;; ret tt) w1) as [[] w2|e w2|];
    [exact (R_D_trans _ _ _ Hbody Hrel)
    |exact (R_D_trans _ _ _ Hbody Hrel)|exact I].
Qed.

Lemma passes_step (i : Readiness) : respects R (step i).
Proof.
  intros w. unfold step.
  destruct i as [tr po|tw].
  - destruct (readable (scheduler_ w)) as [|n] eqn:Hn; cbn; [apply R_refl|].
    pose proof (passes_read tr po
      (with_scheduler_
         {| readable := n; writable := writable (scheduler_ w) |} w)) as H.
    destruct (read tr po _); cbn in *; eauto.
  - destruct (writable (scheduler_ w)) as [|n] eqn:Hn; cbn; [apply R_refl|].
    pose proof (passes_write tw
      (with_scheduler_
         {| readable := readable (scheduler_ w); writable := n |} w)) as H.
    destruct (write tw _); cbn in *; eauto.
Qed.

Lemma passes_run (inputs : list Readiness) : respects R (run inputs).
Proof.
  induction inputs as [|i rest IH]; cbn [run]; passes_auto.
  apply passes_step.
Qed.

End Passes.

(** ** References and pending callbacks *)

Lemma released_scheduler (w : World) :
  scheduler_ (released w) = scheduler_ w.
Proof. unfold released. now destruct (refcount_ w =? 1). Qed.

Lemma count_cons (p : Event -> bool) (e : Event) (t : list Event) :
  count p (e :: t) = ((if p e then 1 else 0) + count p t)%nat.
Proof. unfold count; cbn. now destruct (p e). Qed.

Ltac slack_simpl :=
  unfold slack_kept, slack_released, slack, pending;
  rewrite ?closed_trace, ?closed_scheduler, ?released_trace,
    ?released_scheduler;
  unfold read_armed, write_armed, request_prepared, response_buffered,
    after_read;
  world_simpl; cbn [readable writable];
  rewrite ?count_app, ?count_cons;
  repeat match goal with
         | |- context [if ?r =? 1 then _ else _] => destruct (r =? 1)
         end;
  rewrite ?count_cons; cbn [is_incRef is_decRef is_transport_close];
  change (count _ []) with 0%nat.

Lemma run_keeps_slack (inputs : list Readiness) :
  respects slack_kept (run inputs).
Proof.
  apply (passes_run slack_kept slack_released).
  - intros w; unfold slack_kept; lia.
  - intros a b c; unfold slack_kept; lia.
  - intros a b; unfold slack_kept, slack_released; lia.
  - intros a b c; unfold slack_kept, slack_released; lia.
  - intros e w Hi Hd _ Hc. slack_simpl. rewrite Hi, Hd, Hc. lia.
  - intros s w. slack_simpl. lia.
  - intros r w. slack_simpl. lia.
  - intros h w. slack_simpl. lia.
  - intros b w. slack_simpl. lia.
  - intros cb w. slack_simpl. lia.
  - intros len w _. slack_simpl. lia.
  - intros w. slack_simpl. lia.
  - intros bs w _. slack_simpl. lia.
  - intros w. slack_simpl. lia.
  - intros w. slack_simpl. lia.
  - intros w _. slack_simpl; lia.
  - intros w. slack_simpl. lia.
  - intros resp cb w. slack_simpl. lia.
  - intros w _. slack_simpl; lia.
  - intros w n w' Hn. slack_simpl. rewrite Hn. lia.
  - intros w n w' Hn. slack_simpl. rewrite Hn. lia.
Qed.

Lemma lifetime_slack e hf (inputs : list Readiness) (w : World) :
  final_world (lifetime e hf inputs) = Some w -> 0 <= slack w.
Proof.
  unfold lifetime. rewrite start_returns. intros H.
  pose proof (respects_final slack_kept (run inputs) _ _
                (run_keeps_slack inputs) H) as Hs.
  unfold slack_kept in Hs.
  eapply Z.le_trans; [|exact Hs].
  unfold slack, pending, read_armed, request_prepared, new_HTTPConnection.
  world_simpl. cbn. lia.
Qed.

(** X6: A connection is deallocated only after [close] has been called on
    it: over any lifetime the references released and the callbacks still
    registered with the scheduler never outnumber the references taken
    and the calls of [close]; so when the object is deallocated, fewer
    callbacks are registered than [close] was called, and after a single
    [close] none is: the scheduler holds no callback into the freed
    object, and no notification reaches it.  As long as the object is
    alive its count exceeds the registered callbacks less the calls of
    [close]. *)
Theorem freed_only_after_close e hf (inputs : list Readiness) (w : World) :
  final_world (lifetime e hf inputs) = Some w ->
  (count is_decRef (trace w) + pending w
   <= count is_incRef (trace w) + count is_transport_close (trace w))%nat /\
  (Z.of_nat (count is_incRef (trace w)) < refcount_modulus - 1 ->
   (freed w = true ->
    (pending w < count is_transport_close (trace w))%nat) /\
   (freed w = false ->
    Z.of_nat (pending w)
    < refcount_ w + Z.of_nat (count is_transport_close (trace w))) /\
   (freed w = true -> count is_transport_close (trace w) = 1%nat ->
    pending w = 0%nat /\ forall more, run more w = Ret tt w)).
Proof.
  intros H.
  pose proof (lifetime_slack e hf inputs w H) as Hs.
  destruct (lifetime_invariant e hf inputs w H) as (_ & _ & Hn).
  unfold slack in Hs.
  split; [lia|].
  intros Hwrap. specialize (Hn Hwrap).
  destruct (freed w).
  - split; [intros _; lia|].
    split; [discriminate|].
    intros _ Hone.
    assert (Hp : pending w = 0%nat) by lia.
    split; [exact Hp|].
    intros more. now apply run_nothing_pending.
  - destruct Hn as [Hr _].
    split; [discriminate|].
    split; [intros _; lia|discriminate].
Qed.

Lemma freed_only_after_close_witness :
  exists w,
    final_world (lifetime (Scenario.collaborators false) Scenario.handler
                   Scenario.one_request) = Some w /\
    freed w = true /\
    count is_transport_close (trace w) = 1%nat /\
    pending w = 0%nat.
Proof.
  eexists. split; [vm_compute; reflexivity|].
  split; [reflexivity|]. split; [reflexivity|].
  refine (proj1 (proj2 (proj2 (proj2
    (freed_only_after_close (Scenario.collaborators false) Scenario.handler
       Scenario.one_request _ _) _)) _ _)).
  - vm_compute; reflexivity.
  - vm_compute; reflexivity.
  - reflexivity.
  - reflexivity.
Defined.

(** ** The request and the buffer *)

Lemma released_fields (w : World) :
  cur_request_ (released w) = cur_request_ w /\
  on_read_completed_cb_ (released w) = on_read_completed_cb_ w /\
  buf_ (released w) = buf_ w /\ ext (released w) = ext w.
Proof. unfold released. now destruct (refcount_ w =? 1). Qed.

Lemma closed_fields (w : World) :
  cur_request_ (closed w) = cur_request_ w /\
  on_read_completed_cb_ (closed w) = on_read_completed_cb_ w /\
  buf_ (closed w) = buf_ w /\ ext (closed w) = ext w.
Proof.
  unfold closed, released. world_simpl. now destruct (refcount_ w =? 1).
Qed.

Ltac fields_simpl :=
  unfold keeps, request_present, buffer_bounds, buffer_ok, allocSize;
  unfold read_armed, write_armed, request_prepared, response_buffered,
    after_read;
  world_simpl;
  cbn [mem size mark setMark clear store append data].

Lemma keeps_trans (P : World -> Prop) (a b c : World) :
  keeps P a b -> keeps P b c -> keeps P a c.
Proof. unfold keeps; auto. Qed.

Lemma run_keeps_request (inputs : list Readiness) :
  respects (keeps request_present) (run inputs).
Proof.
  apply (passes_run (keeps request_present) (keeps request_present));
    try (intros; fields_simpl; tauto);
    try apply keeps_trans;
    try (intros; fields_simpl; intros [? ?]; split; congruence).
  - intros a b H; exact H.
  - intros w _. unfold keeps, request_present.
    destruct (closed_fields w) as (E1 & E2 & _). now rewrite E1, E2.
  - intros w _. unfold keeps, request_present.
    destruct (released_fields w) as (E1 & E2 & _). now rewrite E1, E2.
  - intros w n w' _ H. exact H.
  - intros w n w' _ H. exact H.
Qed.

Lemma length_stored (bs : list byte) (b : Buffer) :
  (length bs <= length (mem b))%nat ->
  length (bs ++ skipn (length bs) (mem b)) = length (mem b).
Proof. intros H. rewrite length_app, length_skipn. lia. Qed.

Lemma length_appended (bs : list byte) (b : Buffer) :
  (length (mem b) <= length (bs ++ skipn (length bs) (mem b)))%nat /\
  (length bs <= length (bs ++ skipn (length bs) (mem b)))%nat.
Proof. rewrite length_app, length_skipn. lia. Qed.

Lemma run_keeps_buffer (inputs : list Readiness) :
  respects (keeps buffer_bounds) (run inputs).
Proof.
  apply (passes_run (keeps buffer_bounds) (keeps buffer_bounds));
    try (intros; fields_simpl; tauto);
    try apply keeps_trans.
  - intros a b H; exact H.
  - intros len w Hlt. fields_simpl. lia.
  - intros w. fields_simpl. lia.
  - intros bs w Hlen. fields_simpl. unfold allocSize in Hlen.
    rewrite length_stored by exact Hlen. tauto.
  - intros w _. unfold keeps, buffer_bounds.
    destruct (closed_fields w) as (_ & _ & E1 & E2). now rewrite E1, E2.
  - intros resp cb w. fields_simpl.
    unfold data. cbn [clear size mem firstn app Nat.add].
    pose proof (length_appended (generate (ext w) resp) (buf_ w)). lia.
  - intros w _. unfold keeps, buffer_bounds.
    destruct (released_fields w) as (_ & _ & E1 & E2). now rewrite E1, E2.
  - intros w n w' _ H. exact H.
  - intros w n w' _ H. exact H.
Qed.

Lemma lifetime_request e hf (inputs : list Readiness) (w : World) :
  final_world (lifetime e hf inputs) = Some w -> request_present w.
Proof.
  unfold lifetime. rewrite start_returns. intros H.
  apply (respects_final (keeps request_present) (run inputs) _ _
           (run_keeps_request inputs) H).
  split; discriminate.
Qed.

Lemma lifetime_buffer e hf (inputs : list Readiness) (w : World) :
  final_world (lifetime e hf inputs) = Some w -> buffer_bounds w.
Proof.
  unfold lifetime. rewrite start_returns. intros H.
  apply (respects_final (keeps buffer_bounds) (run inputs) _ _
           (run_keeps_buffer inputs) H).
  unfold buffer_bounds, buffer_ok, read_armed, request_prepared,
    new_HTTPConnection.
  world_simpl. cbn [reserve new_Buffer mark size].
  pose proof (allocSize_reserve (kMinBufferSize e) new_Buffer). lia.
Qed.

Lemma parser_action_request (a : ParserAction) (w : World)
    (r : HTTPRequest) :
  freed w = false -> cur_request_ w = Some r ->
  request_action a = true ->
  parser_action a w
  = Ret tt (parsed (state_after [a] (parser_ w)) (fill a r) w).
Proof.
  intros Hf Hr Ha. unfold parsed.
  open_world w.
  destruct a; try discriminate Ha;
    unfold parser_action, on_cur_request, bind, this, update;
    world_simpl; reflexivity.
Qed.

Lemma header_request_action (a : ParserAction) :
  header_action a = true -> request_action a = true.
Proof. now destruct a. Qed.

Lemma header_request_actions (po : list ParserAction) :
  forallb header_action po = true -> forallb request_action po = true.
Proof.
  induction po as [|a po IH]; [reflexivity|]. cbn [forallb].
  intros H. apply andb_prop in H as [Ha Hpo].
  now rewrite (header_request_action a Ha), IH.
Qed.

(** X7: In every state a started connection is left in, the current request
    and the read-completion callback are set: [finishResponse] and the
    parser callbacks the constructor registered, which go through
    [cur_request_] unchecked, find it, and return. *)
Theorem request_always_present e hf (inputs : list Readiness) (w : World) :
  final_world (lifetime e hf inputs) = Some w ->
  (exists r, cur_request_ w = Some r) /\
  (exists cb, on_read_completed_cb_ w = Some cb) /\
  (freed w = false ->
   (exists w', finishResponse w = Ret tt w') /\
   (forall a, request_action a = true ->
      exists w', parser_action a w = Ret tt w')).
Proof.
  intros H. destruct (lifetime_request e hf inputs w H) as [Hr Hcb].
  destruct (cur_request_ w) as [r|] eqn:Er; [|contradiction].
  destruct (on_read_completed_cb_ w) as [cb|] eqn:Ecb; [|contradiction].
  split; [now exists r|]. split; [now exists cb|].
  intros Hf. split.
  - unfold finishResponse, bind, this. rewrite Hf, Er.
    destruct (keepalive (ext w) r).
    + rewrite nextRequest_returns by exact Hf. eexists; reflexivity.
    + rewrite close_returns by exact Hf. eexists; reflexivity.
  - intros a Ha. rewrite (parser_action_request a w r Hf Er Ha).
    eexists; reflexivity.
Qed.

Lemma request_always_present_witness :
  exists w r,
    final_world (lifetime (Scenario.collaborators true) Scenario.handler
                   Scenario.slow_transport) = Some w /\
    cur_request_ w = Some r.
Proof.
  assert (H : exists w,
            final_world (lifetime (Scenario.collaborators true)
                           Scenario.handler Scenario.slow_transport)
            = Some w)
    by (eexists; vm_compute; reflexivity).
  destruct H as [w H].
  destruct (request_always_present _ _ _ w H) as ([r Hr] & _).
  exists w, r. split; assumption.
Defined.

(** X8: The buffer [read] and [write] share stays in order in every state a
    started connection is left in: the mark is within the size and the
    size within the capacity, so the length [write] computes for the
    unsent region is that of the region; and the capacity never falls
    below [kMinBufferSize], so a transport that delivers at most that
    many bytes per read never overruns the buffer. *)
Theorem buffer_stays_in_bounds e hf (inputs : list Readiness) (w : World) :
  final_world (lifetime e hf inputs) = Some w ->
  (mark (buf_ w) <= size (buf_ w))%nat /\
  (size (buf_ w) <= allocSize (buf_ w))%nat /\
  (kMinBufferSize (ext w) <= allocSize (buf_ w))%nat /\
  length (unsent (buf_ w)) = (size (buf_ w) - mark (buf_ w))%nat /\
  (forall bs,
     freed w = false ->
     (length bs <= kMinBufferSize (ext w))%nat ->
     conn_read (ReadBytes bs) w = Ret (length bs) (after_read bs w)).
Proof.
  intros H. destruct (lifetime_buffer e hf inputs w H) as [Hok Hmin].
  pose proof (length_unsent (buf_ w) Hok) as Hlen.
  destruct Hok as [Hm Hs].
  repeat split; try assumption.
  intros bs Hf Hbs. apply conn_read_returns; [exact Hf|lia].
Qed.

Lemma buffer_stays_in_bounds_witness :
  exists w,
    final_world (lifetime (Scenario.collaborators true) Scenario.handler
                   Scenario.slow_transport) = Some w /\
    (mark (buf_ w) <= size (buf_ w))%nat /\
    (64 <= allocSize (buf_ w))%nat.
Proof.
  assert (H : exists w,
            final_world (lifetime (Scenario.collaborators true)
                           Scenario.handler Scenario.slow_transport)
            = Some w /\ kMinBufferSize (ext w) = 64%nat)
    by (eexists; split; vm_compute; reflexivity).
  destruct H as (w & H & Hk).
  destruct (buffer_stays_in_bounds _ _ _ w H) as (Hm & _ & Hmin & _).
  exists w. rewrite Hk in Hmin. repeat split; assumption.
Defined.

(** ** The parser callbacks and [dispatchRequest] *)

Lemma parser_actions_request (po : list ParserAction) :
  forall (w : World) (r : HTTPRequest),
    freed w = false -> cur_request_ w = Some r ->
    forallb request_action po = true ->
    parser_actions po w
    = Ret tt (parsed (state_after po (parser_ w)) (assemble po r) w).
Proof.
  induction po as [|a po IH]; intros w r Hf Hr Hh.
  - unfold parsed. open_world w. reflexivity.
  - cbn [forallb] in Hh. apply andb_prop in Hh as [Ha Hh].
    cbn [parser_actions]. unfold bind at 1.
    rewrite (parser_action_request a w r Hf Hr Ha).
    rewrite (IH _ (fill a r)); [|exact Hf|reflexivity|exact Hh].
    unfold parsed. world_simpl. reflexivity.
Qed.

Lemma parser_actions_app (p1 p2 : list ParserAction) (w : World) :
  parser_actions (p1 ++ p2) w
  = (parser_actions p1 ;; parser_actions p2) w.
Proof.
  revert w. induction p1 as [|a p1 IH]; intros w; [reflexivity|].
  cbn [app parser_actions]. unfold bind.
  destruct (parser_action a w) as [[] w1|e w1|]; [|reflexivity..].
  apply IH.
Qed.

Lemma dispatchRequest_runs (w : World) :
  freed w = false ->
  dispatchRequest w
  = run_script (handler_factory_ w (cur_request_ w))
      (with_trace (trace w ++ [EvHandleHTTPRequest])
         (with_cur_handler_
            (Some (handler_factory_ w (cur_request_ w))) w)).
Proof.
  intros Hf. unfold dispatchRequest, bind, this, update, emit.
  rewrite Hf. world_simpl. rewrite Hf.
  now destruct (run_script _ _).
Qed.

Lemma assemble_app (p1 p2 : list ParserAction) (r : HTTPRequest) :
  assemble (p1 ++ p2) r = assemble p2 (assemble p1 r).
Proof. apply fold_left_app. Qed.

Lemma state_after_app (p1 p2 : list ParserAction) (s : kParserState) :
  state_after (p1 ++ p2) s = state_after p2 (state_after p1 s).
Proof. apply fold_left_app. Qed.

Lemma assemble_headers (hs : list (string * string)) (r : HTTPRequest) :
  assemble (map (fun h => POnHeader (fst h) (snd h)) hs) r
  = {| req_method := req_method r; req_uri := req_uri r;
       req_version := req_version r;
       req_headers := req_headers r ++ hs |}.
Proof.
  revert r. induction hs as [|[k v] hs IH]; intros r.
  - cbn. rewrite app_nil_r. now destruct r.
  - cbn [map assemble fold_left fill fst snd].
    change (fold_left (fun r a => fill a r) ?po ?x) with (assemble po x).
    rewrite IH. cbn. now rewrite <- app_assoc.
Qed.

Lemma parser_actions_dispatch (hpo rest : list ParserAction) (w : World)
    (r : HTTPRequest) :
  freed w = false ->
  cur_request_ w = Some r ->
  forallb request_action hpo = true ->
  parser_actions (hpo ++ POnHeadersComplete :: rest) w
  = (run_script (handler_factory_ w (Some (assemble hpo r))) ;;
     parser_actions rest)
      (with_trace (trace w ++ [EvHandleHTTPRequest])
         (with_cur_handler_
            (Some (handler_factory_ w (Some (assemble hpo r))))
            (parsed (state_after hpo (parser_ w)) (assemble hpo r) w))).
Proof.
  intros Hf Hr Hh.
  rewrite parser_actions_app. unfold bind at 1.
  rewrite (parser_actions_request hpo w r Hf Hr Hh).
  cbn [parser_actions parser_action]. unfold bind at 1.
  rewrite dispatchRequest_runs by exact Hf.
  reflexivity.
Qed.

(** X9: The handler is made for the request as the parser callbacks have
    filled it in so far: when the parser, after request callbacks and
    state changes, signals that the headers are complete, [dispatchRequest] asks
    the factory for a handler for just that request, keeps it as the
    current handler and runs it, before the parser goes on.  For a request
    line followed by headers that is the request with that method, URI and
    version and the headers in the order of their arrival. *)
Theorem handler_gets_parsed_request
    (hpo rest : list ParserAction) (w : World) (r : HTTPRequest) :
  freed w = false ->
  cur_request_ w = Some r ->
  forallb request_action hpo = true ->
  let request := assemble hpo r in
  let handler := handler_factory_ w (Some request) in
  parser_actions (hpo ++ POnHeadersComplete :: rest) w
  = (run_script handler ;; parser_actions rest)
      (with_trace (trace w ++ [EvHandleHTTPRequest])
         (with_cur_handler_ (Some handler)
            (parsed (state_after hpo (parser_ w)) request w))) /\
  (forall m u v hs,
     assemble (POnMethod m :: POnURI u :: POnVersion v
               :: map (fun h => POnHeader (fst h) (snd h)) hs)
       new_HTTPRequest
     = {| req_method := Some m; req_uri := u; req_version := v;
          req_headers := hs |}).
Proof.
  intros Hf Hr Hh request handler. split.
  - now apply parser_actions_dispatch.
  - intros m u v hs.
    change (assemble (POnMethod m :: POnURI u :: POnVersion v :: ?po) ?x)
      with (assemble po (setVersion v (setURI u (setMethod m x)))).
    rewrite assemble_headers. reflexivity.
Qed.

Lemma handler_gets_parsed_request_witness :
  exists w,
    parser_actions
      ([POnMethod "GET"; POnURI "/x"; POnVersion "HTTP/1.1";
        POnHeader "Host" "a"] ++ [POnHeadersComplete])
      (Scenario.started true)
    = Ret tt w /\
    cur_request_ w
    = Some {| req_method := Some "GET"; req_uri := "/x";
              req_version := "HTTP/1.1"; req_headers := [("Host", "a")] |} /\
    cur_handler_ w = Some (Scenario.handler (cur_request_ w)).
Proof.
  destruct (handler_gets_parsed_request
              [POnMethod "GET"; POnURI "/x"; POnVersion "HTTP/1.1";
               POnHeader "Host" "a"] []
              (Scenario.started true) new_HTTPRequest
              eq_refl eq_refl eq_refl) as [Hrun _].
  eexists. split.
  - rewrite Hrun. vm_compute. reflexivity.
  - split; reflexivity.
Defined.

(** ** A request that arrives in pieces *)

Lemma parser_parse_header (bs : list byte) (po : list ParserAction)
    (w : World) (r : HTTPRequest) :
  freed w = false -> cur_request_ w = Some r ->
  forallb header_action po = true ->
  parser_parse bs po w
  = Ret tt (parsed (state_after po (parser_ w)) (assemble po r)
              (with_trace (trace w ++ [EvParserParse bs]) w)).
Proof.
  intros Hf Hr Hh. unfold parser_parse, bind, this, emit. rewrite Hf.
  rewrite (parser_actions_request po _ r);
    [reflexivity|exact Hf|exact Hr|now apply header_request_actions].
Qed.

Lemma state_after_header (po : list ParserAction) (s : kParserState) :
  forallb header_action po = true ->
  state_lt s S_BODY = true ->
  state_lt (state_after po s) S_BODY = true.
Proof.
  revert s. induction po as [|a po IH]; intros s Hh Hs; [exact Hs|].
  cbn [forallb] in Hh. apply andb_prop in Hh as [Ha Hh].
  cbn [state_after fold_left]. apply IH; [exact Hh|].
  destruct a; try exact Hs; try discriminate Ha. exact Ha.
Qed.

Lemma read_header_piece (bs : list byte) (po : list ParserAction)
    (w : World) (r : HTTPRequest) :
  freed w = false ->
  0 < refcount_ w < refcount_modulus ->
  on_read_completed_cb_ w = Some HeaderPhaseCb ->
  cur_request_ w = Some r ->
  state_lt (parser_ w) S_BODY = true ->
  bs <> [] -> (length bs <= allocSize (buf_ w))%nat ->
  forallb header_action po = true ->
  read (ReadBytes bs) po w
  = Ret tt
      (with_scheduler_
         {| readable := S (readable (scheduler_ w));
            writable := writable (scheduler_ w) |}
         (piece_read bs po r w)).
Proof.
  intros Hf Hrc Hcb Hr Hs Hne Hlen Hh.
  rewrite (read_parsed bs po w
             (parsed (state_after po (parser_ w)) (assemble po r)
                (with_trace (trace (after_read bs w) ++ [EvParserParse bs])
                   (after_read bs w)))); try assumption.
  - rewrite read_completion_header.
    + unfold piece_read, parsed, after_read. world_simpl.
      rewrite <- !app_assoc. reflexivity.
    + exact Hf.
    + exact Hrc.
    + exact Hcb.
    + now apply state_after_header.
  - exact (parser_parse_header bs po (after_read bs w) r Hf Hr Hh).
Qed.

Lemma step_header_piece (bs : list byte) (po : list ParserAction)
    (w : World) (r : HTTPRequest) :
  freed w = false ->
  0 < refcount_ w < refcount_modulus ->
  (0 < readable (scheduler_ w))%nat ->
  on_read_completed_cb_ w = Some HeaderPhaseCb ->
  cur_request_ w = Some r ->
  state_lt (parser_ w) S_BODY = true ->
  header_piece w (bs, po) ->
  step (Readable (ReadBytes bs) po) w = Ret tt (piece_read bs po r w).
Proof.
  intros Hf Hrc Hrd Hcb Hr Hs (Hne & Hlen & Hh). cbn [fst snd] in *.
  unfold step.
  destruct (scheduler_ w) as [[|n] wr] eqn:Hsch; cbn in Hrd; [lia|].
  cbn [readable writable].
  rewrite (read_header_piece bs po _ r); try assumption.
  unfold piece_read, parsed. open_world w. reflexivity.
Qed.

Lemma header_piece_next (bs : list byte) (po : list ParserAction)
    (r : HTTPRequest) (w : World) (p : list byte * list ParserAction) :
  (length bs <= allocSize (buf_ w))%nat ->
  header_piece w p -> header_piece (piece_read bs po r w) p.
Proof.
  intros Hlen (Hne & Hfit & Hh). repeat split; try assumption.
  unfold piece_read, parsed, allocSize in *. world_simpl. cbn [store mem].
  now rewrite length_stored.
Qed.

(** X10: A request head that arrives in any number of pieces, each parsed
    within the header phase: every [read] fills the request in further and
    arms the next read, so that the request and the parser state in the
    end are those of all the parser callbacks in sequence, however they
    were spread over the reads, while the count, the scheduler and the
    transport are as before: one [incRef] and one [decRef] per piece,
    nothing closed, nothing freed, no handler made yet. *)
Theorem headers_in_pieces (pieces : list (list byte * list ParserAction)) :
  forall (w : World) (r : HTTPRequest),
    freed w = false ->
    0 < refcount_ w < refcount_modulus ->
    (0 < readable (scheduler_ w))%nat ->
    on_read_completed_cb_ w = Some HeaderPhaseCb ->
    cur_request_ w = Some r ->
    state_lt (parser_ w) S_BODY = true ->
    Forall (header_piece w) pieces ->
    exists w' evs,
      run (reads pieces) w = Ret tt w' /\
      cur_request_ w' = Some (assemble (concat (map snd pieces)) r) /\
      parser_ w' = state_after (concat (map snd pieces)) (parser_ w) /\
      state_lt (parser_ w') S_BODY = true /\
      on_read_completed_cb_ w' = Some HeaderPhaseCb /\
      refcount_ w' = refcount_ w /\ freed w' = false /\
      scheduler_ w' = scheduler_ w /\ conn_ w' = conn_ w /\
      cur_handler_ w' = cur_handler_ w /\
      trace w' = trace w ++ evs /\
      count is_read_completed evs = length pieces /\
      count is_incRef evs = length pieces /\
      count is_decRef evs = length pieces /\
      count is_transport_close evs = 0%nat /\
      count is_delete evs = 0%nat.
Proof.
  induction pieces as [|[bs po] pieces IH];
    intros w r Hf Hrc Hrd Hcb Hr Hs Hall.
  - exists w, []. rewrite app_nil_r. repeat split; assumption.
  - inversion Hall as [|p ps Hp Hps]; subst p ps.
    pose proof Hp as (Hne & Hlen & Hh). cbn [fst snd] in Hne, Hlen, Hh.
    pose (w1 := piece_read bs po r w).
    destruct (IH w1 (assemble po r)) as (w' & evs & Hrun & Hreq & Hst & Hlt
      & Hcb' & Hrc' & Hf' & Hsch & Hconn & Hh' & Htr & Hc1 & Hc2 & Hc3
      & Hc4 & Hc5); try assumption; try reflexivity.
    + now apply state_after_header.
    + eapply Forall_impl; [|exact Hps].
      intros p. now apply header_piece_next.
    + exists w',
        ([EvTransportRead bs; EvParserParse bs; EvReadCompleted;
          EvIncRef; EvRunOnReadable;
          EvDecRef ((refcount_ w + 1) mod refcount_modulus)] ++ evs).
      split.
      * cbn [reads map run fst snd]. unfold bind at 1.
        rewrite (step_header_piece bs po w r); assumption.
      * cbn [map concat snd]. rewrite assemble_app, state_after_app.
        subst w1. unfold piece_read, parsed in *. world_simpl.
        repeat split; try assumption.
        -- now rewrite Htr, <- app_assoc.
        -- rewrite count_app, Hc1. reflexivity.
        -- rewrite count_app, Hc2. reflexivity.
        -- rewrite count_app, Hc3. reflexivity.
Qed.

Lemma headers_in_pieces_witness :
  exists w',
    run (reads
           [(list_byte_of_string "GET /x HTTP/1.1",
             [PState S_URI; POnMethod "GET"; PState S_VERSION; POnURI "/x";
              PState S_HEADER; POnVersion "HTTP/1.1"]);
            (Scenario.crlf ++ list_byte_of_string "Host: a" ++ Scenario.crlf,
             [POnHeader "Host" "a"])])
      (Scenario.started true)
    = Ret tt w' /\
    cur_request_ w'
    = Some {| req_method := Some "GET"; req_uri := "/x";
              req_version := "HTTP/1.1"; req_headers := [("Host", "a")] |} /\
    refcount_ w' = 2 /\
    readable (scheduler_ w') = 1%nat.
Proof.
  assert (Hall : Forall (header_piece (Scenario.started true))
            [(list_byte_of_string "GET /x HTTP/1.1",
              [PState S_URI; POnMethod "GET"; PState S_VERSION; POnURI "/x";
               PState S_HEADER; POnVersion "HTTP/1.1"]);
             (Scenario.crlf ++ list_byte_of_string "Host: a" ++ Scenario.crlf,
              [POnHeader "Host" "a"])]).
  { repeat constructor; try discriminate; vm_compute; lia. }
  destruct (headers_in_pieces _ (Scenario.started true) new_HTTPRequest
              eq_refl (conj eq_refl eq_refl) (le_n 1) eq_refl eq_refl
              eq_refl Hall)
    as (w' & evs & Hrun & Hreq & _ & _ & _ & Hrc & _ & Hsch & _).
  exists w'. split; [exact Hrun|]. split; [exact Hreq|].
  split; [exact Hrc|]. now rewrite Hsch.
Defined.

(** ** Exceptions that pass through [read] and [write] *)

Lemma parser_parse_dispatch (bs : list byte) (hpo rest : list ParserAction)
    (w : World) (r : HTTPRequest) :
  freed w = false ->
  cur_request_ w = Some r ->
  forallb request_action hpo = true ->
  parser_parse bs (hpo ++ POnHeadersComplete :: rest) (after_read bs w)
  = (run_script (handler_factory_ w (Some (assemble hpo r))) ;;
     parser_actions rest) (dispatching bs hpo r w).
Proof.
  intros Hf Hr Hh. unfold parser_parse, bind at 1 2, this, emit.
  cbn [after_read freed with_trace with_buf_]. rewrite Hf.
  rewrite (parser_actions_dispatch hpo rest _ r);
    [|exact Hf|exact Hr|exact Hh].
  unfold dispatching, parsed, after_read. world_simpl.
  rewrite <- !app_assoc. reflexivity.
Qed.

(** X11: An exception that leaves the request handler passes through
    [dispatchRequest] and the parser into [read]: a [fnord::Exception] is
    taken for a parse error, so [read] closes the connection and returns
    without entering the read-completion callback; any other exception
    leaves [read] as well, with nothing closed or released. *)
Theorem handler_exception_closes
    (bs : list byte) (hpo rest : list ParserAction) (w w2 : World)
    (r : HTTPRequest) (e : exn) :
  freed w = false ->
  cur_request_ w = Some r ->
  bs <> [] -> (length bs <= allocSize (buf_ w))%nat ->
  forallb request_action hpo = true ->
  run_script (handler_factory_ w (Some (assemble hpo r)))
    (dispatching bs hpo r w) = Throw e w2 ->
  match e with
  | Exception _ =>
      read (ReadBytes bs) (hpo ++ POnHeadersComplete :: rest) w = close w2 /\
      (freed w2 = false ->
       exists w',
         read (ReadBytes bs) (hpo ++ POnHeadersComplete :: rest) w
         = Ret tt w' /\
         conn_ w' = Closed /\
         trace w' = trace w2 ++ EvTransportClose :: EvDecRef (refcount_ w2)
                      :: (if refcount_ w2 =? 1 then [EvDelete] else []) /\
         count is_read_completed (trace w')
         = count is_read_completed (trace w))
  | std_exception _ =>
      read (ReadBytes bs) (hpo ++ POnHeadersComplete :: rest) w = Throw e w2
  end.
Proof.
  intros Hf Hr Hne Hlen Hh Hrun.
  assert (Hparse :
    parser_parse bs (hpo ++ POnHeadersComplete :: rest) (after_read bs w)
    = Throw e w2).
  { rewrite (parser_parse_dispatch bs hpo rest w r Hf Hr Hh).
    unfold bind. now rewrite Hrun. }
  destruct e as [t|what].
  - assert (Hclose :
      read (ReadBytes bs) (hpo ++ POnHeadersComplete :: rest) w = close w2).
    { apply read_fails_close; [exact Hf|].
      now apply (parse_error bs _ w t w2). }
    split; [exact Hclose|].
    intros Hf2. exists (closed w2).
    rewrite Hclose, close_returns by exact Hf2.
    split; [reflexivity|]. split; [apply closed_conn|].
    split; [apply closed_trace|].
    destruct (respects_final _ _ _ _
                (run_script_quiet (handler_factory_ w (Some (assemble hpo r))))
                (f_equal final_world Hrun)) as (evs & Ht & Hq).
    rewrite closed_trace, Ht. unfold dispatching. world_simpl.
    rewrite !count_app.
    destruct (quiet_counts evs Hq) as [Hrc _]. rewrite Hrc.
    destruct (refcount_ w2 =? 1); rewrite !count_cons; cbn; lia.
  - now apply read_parse_throws.
Qed.

Lemma handler_exception_closes_witness :
  exists w',
    read (ReadBytes Scenario.request_bytes)
      (Scenario.head_parse ++ POnHeadersComplete :: [PState S_DONE])
      (Scenario.started_with Scenario.failing_handler)
    = Ret tt w' /\
    conn_ w' = Closed /\
    count is_read_completed (trace w') = 0%nat.
Proof.
  pose (w := Scenario.started_with Scenario.failing_handler).
  assert (Hlen : (length Scenario.request_bytes <= allocSize (buf_ w))%nat)
    by (vm_compute; lia).
  assert (Hne : Scenario.request_bytes <> []) by discriminate.
  destruct (proj2 (handler_exception_closes Scenario.request_bytes
                     Scenario.head_parse [PState S_DONE] w
                     (dispatching Scenario.request_bytes Scenario.head_parse
                        new_HTTPRequest w)
                     new_HTTPRequest (Exception kOtherError)
                     eq_refl eq_refl Hne Hlen eq_refl eq_refl) eq_refl)
    as (w' & Hrun & Hconn & _ & Hcount).
  exists w'. split; [exact Hrun|]. split; [exact Hconn|].
  rewrite Hcount. reflexivity.
Defined.

(** X12: An exception that leaves the write-completion callback is not caught
    by [write]: it leaves [write] at once.  The buffer has been cleared by
    then, and the [decRef] at the end of [write] is not reached: among the
    events of this [write] itself there is none. *)
Theorem completion_exception_escapes
    (tw : TransportWrite) (w w2 : World) (len : nat) (cb : Script)
    (e : exn) :
  freed w = false ->
  tw (unsent (buf_ w)) = WriteAccepts len ->
  (size (buf_ w) <= mark (buf_ w) + len)%nat ->
  on_write_completed_cb_ w = Some cb ->
  run_script cb
    (with_trace (trace (fully_written len w) ++ [EvWriteCompleted])
       (fully_written len w)) = Throw e w2 ->
  write tw w = Throw e w2 /\
  exists evs,
    trace w2 = trace w ++ evs /\
    count is_decRef (outside_callback false evs) = 0%nat /\
    count is_write_completed evs = 1%nat.
Proof.
  intros Hf Htw Hge Hcb Hrun.
  split.
  - rewrite (write_full tw w len Hf Htw Hge).
    rewrite (write_completion_callback _ cb) by (try exact Hf; exact Hcb).
    unfold bind at 1, emit at 1. unfold bind at 1. now rewrite Hrun.
  - destruct (respects_final _ _ _ _ (run_script_quiet cb)
                (f_equal final_world Hrun)) as (evs & Ht & Hq).
    unfold fully_written in Ht; world_simpl.
    exists ([EvTransportWrite (unsent (buf_ w)) len; EvWriteCompleted]
            ++ evs).
    split; [now rewrite Ht, <- !app_assoc|].
    split.
    + cbn [app outside_callback].
      rewrite <- (app_nil_r evs), outside_callback_inside by exact Hq.
      reflexivity.
    + rewrite count_app, (proj2 (quiet_counts evs Hq)). reflexivity.
Qed.

Lemma completion_exception_escapes_witness :
  exists w2,
    write (accepts 10)
      (with_on_write_completed_cb_
         (Some (SThrow (Exception kOtherError))) Scenario.response_armed)
    = Throw (Exception kOtherError) w2 /\
    size (buf_ w2) = 0%nat /\ refcount_ w2 = 2.
Proof.
  pose (w := with_on_write_completed_cb_
               (Some (SThrow (Exception kOtherError)))
               Scenario.response_armed).
  assert (Hge : (size (buf_ w) <= mark (buf_ w) + 10)%nat)
    by (vm_compute; lia).
  eexists. split.
  - exact (proj1 (completion_exception_escapes (accepts 10) w _ 10
                    (SThrow (Exception kOtherError)) (Exception kOtherError)
                    eq_refl eq_refl Hge eq_refl eq_refl)).
  - split; reflexivity.
Defined.

(** ** The closure [readRequestBody] stores *)

(** X13: The closure [readRequestBody] stores as read-completion callback
    holds a reference to its parameter [callback], which is gone when
    [readRequestBody] has returned.  So a [read] that parses its bytes and
    then finds that closure installed has no defined behaviour once the
    headers are complete (the closure calls [callback]); before that the
    closure raises [kIllegalStateError], which leaves [read] with its
    [decRef] not reached. *)
Theorem stored_body_callback_dangles
    (bs : list byte) (po : list ParserAction) (w w2 : World) :
  freed w = false ->
  bs <> [] -> (length bs <= allocSize (buf_ w))%nat ->
  parser_parse bs po (after_read bs w) = Ret tt w2 ->
  freed w2 = false ->
  on_read_completed_cb_ w2 = Some ReadBodyChunkCb ->
  read (ReadBytes bs) po w
  = match parser_ w2 with
    | S_BODY | S_DONE => Undefined
    | S_METHOD | S_URI | S_VERSION | S_HEADER =>
        Throw (Exception kIllegalStateError)
          (with_trace (trace w2 ++ [EvReadCompleted]) w2)
    end.
Proof.
  intros Hf Hne Hlen Hp Hf2 Hcb.
  rewrite (read_parsed bs po w w2 Hf Hne Hlen Hp).
  rewrite (read_completion_body_chunk w2 Hf2 Hcb).
  now destruct (parser_ w2).
Qed.

Lemma stored_body_callback_dangles_witness :
  lifetime (Scenario.collaborators false) Scenario.upload_handler
    [Readable (ReadBytes Scenario.request_bytes)
       (Scenario.head_parse ++ [PState S_BODY; POnHeadersComplete])]
  = Undefined.
Proof.
  rewrite lifetime_first. cbn [run]. unfold bind at 1, step.
  cbn [read_armed request_prepared new_HTTPConnection scheduler_
       with_trace with_scheduler_ readable writable].
  match goal with |- context [read ?tr ?po ?w] =>
    assert (Hparse : exists w2,
              parser_parse Scenario.request_bytes po
                (after_read Scenario.request_bytes w) = Ret tt w2 /\
              freed w2 = false /\
              on_read_completed_cb_ w2 = Some ReadBodyChunkCb /\
              parser_ w2 = S_BODY)
      by (eexists; split; [vm_compute; reflexivity|repeat split]);
    destruct Hparse as (w2 & Hp & Hf2 & Hcb & Hs);
    assert (Hlen : (length Scenario.request_bytes <= allocSize (buf_ w))%nat)
      by (vm_compute; lia);
    assert (Hne : Scenario.request_bytes <> []) by discriminate;
    rewrite (stored_body_callback_dangles Scenario.request_bytes po w w2
               eq_refl Hne Hlen Hp Hf2 Hcb)
  end.
  now rewrite Hs.
Defined.

(** ** A response on its way out *)

Lemma response_buffered_ok (resp : HTTPResponse) (cb : option Script)
    (w : World) :
  buffer_ok (buf_ (response_buffered resp cb w)) /\
  mark (buf_ (response_buffered resp cb w)) = 0%nat /\
  data (buf_ (response_buffered resp cb w)) = generate (ext w) resp.
Proof.
  unfold response_buffered, buffer_ok, allocSize, data. world_simpl.
  cbn [append clear mem size mark data firstn app Nat.add].
  pose proof (length_appended (generate (ext w) resp) (buf_ w)) as [_ H].
  repeat split; try lia.
  rewrite firstn_app, firstn_all, Nat.sub_diag. cbn. apply app_nil_r.
Qed.

(** X14: [writeResponse] followed by the writes that flush the buffer, however
    the transport splits them: whatever the buffer held is dropped, the
    bytes handed to the transport are, in order and once each, the
    serialized response, the ready callback is not entered before the last
    of them is taken, and what follows the last write is the ready
    callback the handler passed in, with the buffer empty again. *)
Theorem response_sent_whole
    (resp : HTTPResponse) (ready_callback : option Script)
    (lens : list nat) (w : World) :
  freed w = false ->
  0 < refcount_ w < refcount_modulus - 1 ->
  flushes (length (generate (ext w) resp)) lens = true ->
  exists w1 evs,
    (writeResponse resp ready_callback ;; run (writes lens)) w
    = write_completion w1 /\
    trace w1 = trace w ++ [EvIncRef; EvRunOnWritable] ++ evs /\
    sent evs = generate (ext w) resp /\
    write_lengths evs = lens /\
    count is_write_completed evs = 0%nat /\
    on_write_completed_cb_ w1 = ready_callback /\
    size (buf_ w1) = 0%nat /\ mark (buf_ w1) = 0%nat /\
    refcount_ w1 = refcount_ w + 1 /\ freed w1 = false /\
    writable (scheduler_ w1) = writable (scheduler_ w).
Proof.
  intros Hf Hrc Hfl.
  destruct (response_buffered_ok resp ready_callback w)
    as (Hok & Hmark & Hdata).
  pose (wb := response_buffered resp ready_callback w).
  assert (Hsize : size (buf_ wb) = length (generate (ext w) resp)).
  { subst wb. unfold response_buffered. world_simpl. reflexivity. }
  assert (Hrcb : refcount_ wb = refcount_ w + 1).
  { subst wb. unfold response_buffered. world_simpl.
    unfold refcount_modulus in *. rewrite Z.mod_small; lia. }
  destruct (flush_from lens wb) as (w1 & evs & Hrun & Hbuf & Hf1 & Hr1
    & Hcb & Hwr & Htr & Hsent & Hlens & Hcnt).
  - exact Hf.
  - rewrite Hrcb. lia.
  - exact Hok.
  - subst wb. unfold response_buffered. world_simpl. cbn. lia.
  - fold wb in Hmark. rewrite Hsize, Hmark, Nat.sub_0_r. exact Hfl.
  - exists w1, evs.
    split.
    { unfold bind. rewrite writeResponse_returns by exact Hf. exact Hrun. }
    fold wb in Hmark, Hdata.
    split; [rewrite Htr; subst wb; unfold response_buffered; world_simpl;
            now rewrite <- app_assoc|].
    split; [rewrite Hsent; unfold unsent; now rewrite Hmark, Hdata|].
    split; [exact Hlens|]. split; [exact Hcnt|].
    split; [rewrite Hcb; reflexivity|].
    rewrite Hbuf. split; [reflexivity|]. split; [reflexivity|].
    split; [now rewrite Hr1|]. split; [exact Hf1|].
    rewrite Hwr. subst wb. unfold response_buffered. world_simpl.
    reflexivity.
Qed.

Lemma response_sent_whole_witness :
  exists w1 evs,
    (writeResponse Scenario.response (Some (SFinishResponse SReturn)) ;;
     run (writes [3; 3; 3; 1]%nat)) (Scenario.started false)
    = write_completion w1 /\
    sent evs = Scenario.ten_bytes /\
    write_lengths evs = [3; 3; 3; 1]%nat.
Proof.
  destruct (response_sent_whole Scenario.response
              (Some (SFinishResponse SReturn)) [3; 3; 3; 1]%nat
              (Scenario.started false)
              eq_refl (conj eq_refl eq_refl) eq_refl)
    as (w1 & evs & Hrun & _ & Hsent & Hlens & _).
  exists w1, evs. repeat split; assumption.
Defined.

(** ** A whole exchange *)

Lemma read_answered (bs : list byte) (hpo rest : list ParserAction)
    (resp : HTTPResponse) (cb : option Script) (w : World)
    (r : HTTPRequest) :
  freed w = false ->
  0 < refcount_ w < refcount_modulus ->
  on_read_completed_cb_ w = Some HeaderPhaseCb ->
  cur_request_ w = Some r ->
  bs <> [] -> (length bs <= allocSize (buf_ w))%nat ->
  forallb request_action hpo = true ->
  forallb request_action rest = true ->
  handler_factory_ w (Some (assemble hpo r)) = SWriteResponse resp cb SReturn ->
  state_lt (state_after (hpo ++ rest) (parser_ w)) S_BODY = false ->
  read (ReadBytes bs) (hpo ++ POnHeadersComplete :: rest) w
  = Ret tt (request_answered bs hpo rest resp cb r w).
Proof.
  intros Hf Hrc Hcb Hr Hne Hlen Hh Hrest Hhandler Hstate.
  destruct (incRef_decRef_roundtrip _ Hrc) as [Hne1 Hback].
  pose (wd := response_buffered resp cb (dispatching bs hpo r w)).
  pose (w2 := parsed (state_after rest (parser_ wd))
                (assemble rest (assemble hpo r)) wd).
  assert (Hparse :
    parser_parse bs (hpo ++ POnHeadersComplete :: rest) (after_read bs w)
    = Ret tt w2).
  { rewrite (parser_parse_dispatch bs hpo rest w r Hf Hr Hh).
    rewrite Hhandler. cbn [run_script]. unfold bind at 1 2.
    rewrite writeResponse_returns by exact Hf.
    unfold ret at 1.
    now rewrite (parser_actions_request rest _ (assemble hpo r)). }
  rewrite (read_parsed bs _ w w2 Hf Hne Hlen Hparse).
  rewrite read_completion_past_header.
  - unfold released. subst w2 wd.
    unfold request_answered, response_buffered, dispatching, parsed.
    world_simpl. rewrite Hne1, Hback.
    rewrite assemble_app, state_after_app.
    world_simpl. rewrite <- !app_assoc. reflexivity.
  - exact Hf.
  - exact Hcb.
  - subst w2 wd. unfold parsed, response_buffered, dispatching. world_simpl.
    unfold parsed. world_simpl.
    rewrite state_after_app in Hstate. exact Hstate.
Qed.

(** A flush, with what it leaves alone and what it counts up. *)
Lemma flush_from_frame (lens : list nat) :
  forall w,
    freed w = false ->
    0 < refcount_ w < refcount_modulus ->
    buffer_ok (buf_ w) ->
    (0 < writable (scheduler_ w))%nat ->
    flushes (size (buf_ w) - mark (buf_ w)) lens = true ->
    exists w1 evs,
      run (writes lens) w = write_completion w1 /\
      buf_ w1 = clear (buf_ w) /\
      freed w1 = false /\
      refcount_ w1 = refcount_ w /\
      on_write_completed_cb_ w1 = on_write_completed_cb_ w /\
      writable (scheduler_ w1) = pred (writable (scheduler_ w)) /\
      flush_frame w w1 /\
      trace w1 = trace w ++ evs /\
      sent evs = unsent (buf_ w) /\
      write_lengths evs = lens /\
      count is_write_completed evs = 0%nat /\
      count is_read_completed evs = 0%nat /\
      count is_transport_close evs = 0%nat /\
      count is_delete evs = 0%nat /\
      count is_incRef evs = count is_decRef evs.
Proof.
  induction lens as [|len rest IH]; intros w Hf Hr Hb Hw Hfl;
    [discriminate|].
  destruct rest as [|len' rest].
  - simpl in Hfl. apply andb_prop in Hfl as [Hpos Heq].
    apply Nat.eqb_eq in Heq.
    exists (fully_written len (writable_taken w)),
           [EvTransportWrite (unsent (buf_ w)) len].
    split.
    + cbn [writes map run]. rewrite bind_ret_unit.
      apply step_full; try assumption. lia.
    + unfold fully_written, writable_taken, flush_frame; world_simpl.
      cbn [writable readable].
      repeat split; try assumption.
      unfold sent; cbn [flat_map]. rewrite app_nil_r. apply firstn_all2.
      rewrite length_unsent by assumption. lia.
  - remember (len' :: rest) as more eqn:Hmore.
    assert (Hfl' : (0 <? len)%nat && (len <? size (buf_ w) - mark (buf_ w))%nat
                   && flushes (size (buf_ w) - mark (buf_ w) - len) more
                   = true)
      by (rewrite Hmore in Hfl |- *; exact Hfl).
    apply andb_prop in Hfl' as [H12 Hrest].
    apply andb_prop in H12 as [Hpos Hlt].
    apply Nat.ltb_lt in Hpos. apply Nat.ltb_lt in Hlt.
    destruct Hb as [Hm Hs].
    pose (w2 := with_buf_ (setMark (mark (buf_ w) + len) (buf_ w))
                  (with_trace
                     (trace w ++
                      [EvTransportWrite (unsent (buf_ w)) len;
                       EvIncRef; EvRunOnWritable;
                       EvDecRef ((refcount_ w + 1) mod refcount_modulus)])
                     w)).
    destruct (IH w2) as (w1 & evs & Hrun & Hbuf & Hf1 & Hr1 & Hcb & Hwr
                         & Hfr & Htr & Hsent & Hlens & Hc1 & Hc2 & Hc3
                         & Hc4 & Hc5).
    + exact Hf.
    + exact Hr.
    + split; [cbn; lia | exact Hs].
    + exact Hw.
    + subst w2; world_simpl. cbn [size mark setMark].
      replace (size (buf_ w) - (mark (buf_ w) + len))%nat
        with (size (buf_ w) - mark (buf_ w) - len)%nat by lia.
      exact Hrest.
    + exists w1,
        ([EvTransportWrite (unsent (buf_ w)) len;
          EvIncRef; EvRunOnWritable;
          EvDecRef ((refcount_ w + 1) mod refcount_modulus)] ++ evs).
      split.
      * cbn [writes map run]. unfold bind at 1.
        rewrite step_partial by (try assumption; lia).
        exact Hrun.
      * subst w2; unfold flush_frame in *; world_simpl.
        repeat split; try assumption; try tauto.
        -- now rewrite Htr, <- app_assoc.
        -- cbn [sent flat_map app]. fold (sent evs). rewrite Hsent.
           unfold unsent, data. cbn [mark size mem setMark].
           replace (mark (buf_ w) + len)%nat with (len + mark (buf_ w))%nat
             by lia.
           rewrite <- skipn_skipn. apply firstn_skipn.
        -- cbn [write_lengths flat_map app]. fold (write_lengths evs).
           now rewrite Hlens.
        -- rewrite !count_app, Hc5. reflexivity.
Qed.

Lemma finishResponse_cases (w : World) (rq : HTTPRequest) :
  freed w = false -> cur_request_ w = Some rq ->
  finishResponse w
  = if keepalive (ext w) rq then nextRequest w else close w.
Proof.
  intros Hf Hr. unfold finishResponse, bind, this. rewrite Hf, Hr.
  now destruct (keepalive (ext w) rq).
Qed.

Lemma emit_then {A} (e : Event) (m : M A) (w : World) :
  (emit e ;; m) w = m (with_trace (trace w ++ [e]) w).
Proof. reflexivity. Qed.

Lemma finish_callback_runs (w : World) (rq : HTTPRequest) :
  freed w = false -> cur_request_ w = Some rq ->
  (run_script (SFinishResponse SReturn) ;;
   emit EvWriteCompletedReturn ;;
   _ <- decRef ;;
   ret tt) w
  = (_ <- decRef ;; ret tt)
      (let w4 := if keepalive (ext w) rq
                 then read_armed (request_prepared w)
                 else closed w in
       with_trace (trace w4 ++ [EvWriteCompletedReturn]) w4).
Proof.
  intros Hf Hr. cbn [run_script]. unfold bind at 1.
  rewrite bind_ret_unit, (finishResponse_cases w rq Hf Hr). cbv zeta.
  destruct (keepalive (ext w) rq).
  - rewrite nextRequest_returns by exact Hf. lazy beta iota.
    now rewrite emit_then.
  - rewrite close_returns by exact Hf. lazy beta iota.
    now rewrite emit_then.
Qed.

Lemma write_completion_finish (w : World) (rq : HTTPRequest) :
  freed w = false ->
  on_write_completed_cb_ w = Some (SFinishResponse SReturn) ->
  cur_request_ w = Some rq ->
  write_completion w
  = (_ <- decRef ;; ret tt)
      (let w3 := with_trace (trace w ++ [EvWriteCompleted]) w in
       let w4 := if keepalive (ext w3) rq
                 then read_armed (request_prepared w3)
                 else closed w3 in
       with_trace (trace w4 ++ [EvWriteCompletedReturn]) w4).
Proof.
  intros Hf Hcb Hr.
  rewrite (write_completion_callback w _ Hf Hcb).
  unfold bind at 1, emit at 1. lazy beta iota.
  exact (finish_callback_runs
           (with_trace (trace w ++ [EvWriteCompleted]) w) rq Hf Hr).
Qed.

(** The exchange up to the point where the last write has cleared the
    buffer. *)
Lemma exchange_until_completion
    (bs : list byte) (hpo rest : list ParserAction) (resp : HTTPResponse)
    (cb : option Script) (lens : list nat) (w : World) (r : HTTPRequest) :
  freed w = false ->
  0 < refcount_ w < refcount_modulus - 1 ->
  (0 < readable (scheduler_ w))%nat ->
  on_read_completed_cb_ w = Some HeaderPhaseCb ->
  cur_request_ w = Some r ->
  bs <> [] -> (length bs <= allocSize (buf_ w))%nat ->
  forallb request_action hpo = true ->
  forallb request_action rest = true ->
  state_lt (state_after (hpo ++ rest) (parser_ w)) S_BODY = false ->
  handler_factory_ w (Some (assemble hpo r)) = SWriteResponse resp cb SReturn ->
  flushes (length (generate (ext w) resp)) lens = true ->
  exists w2 evs,
    run (Readable (ReadBytes bs) (hpo ++ POnHeadersComplete :: rest)
         :: writes lens) w
    = write_completion w2 /\
    freed w2 = false /\ refcount_ w2 = refcount_ w /\
    on_write_completed_cb_ w2 = cb /\
    on_read_completed_cb_ w2 = Some HeaderPhaseCb /\
    cur_request_ w2 = Some (assemble (hpo ++ rest) r) /\
    ext w2 = ext w /\ handler_factory_ w2 = handler_factory_ w /\
    conn_ w2 = conn_ w /\
    S (readable (scheduler_ w2)) = readable (scheduler_ w) /\
    writable (scheduler_ w2) = writable (scheduler_ w) /\
    size (buf_ w2) = 0%nat /\ mark (buf_ w2) = 0%nat /\
    (allocSize (buf_ w) <= allocSize (buf_ w2))%nat /\
    trace w2 = trace w ++ evs /\
    sent evs = generate (ext w) resp /\
    count is_incRef evs = count is_decRef evs /\
    count is_transport_close evs = 0%nat /\
    count is_delete evs = 0%nat /\
    count is_write_completed evs = 0%nat.
Proof.
  intros Hf Hrc Hrd Hcb Hr Hne Hlen Hh Hrest Hstate Hhandler Hfl.
  destruct (scheduler_ w) as [[|n] wr] eqn:Hsch; cbn in Hrd; [lia|].
  pose (w0 := with_scheduler_ {| readable := n; writable := wr |} w).
  pose (w1 := request_answered bs hpo rest resp cb r w0).
  assert (Hstep :
    step (Readable (ReadBytes bs) (hpo ++ POnHeadersComplete :: rest)) w
    = Ret tt w1).
  { unfold step. rewrite Hsch. cbn [readable writable].
    apply read_answered; try assumption.
    change (0 < refcount_ w < refcount_modulus).
    unfold refcount_modulus in *. lia. }
  destruct (response_buffered_ok resp cb (dispatching bs hpo r w0))
    as (Hok & Hmark & Hdata).
  assert (Hbuf1 : buf_ w1
                  = buf_ (response_buffered resp cb (dispatching bs hpo r w0)))
    by reflexivity.
  assert (Hsize1 : size (buf_ w1) = length (generate (ext w) resp))
    by reflexivity.
  destruct (flush_from_frame lens w1) as (w2 & evs & Hrun & Hbuf & Hf2 & Hr2
    & Hcb2 & Hwr & Hfr & Htr & Hsent & Hlens & Hc1 & Hc2 & Hc3 & Hc4 & Hc5).
  - exact Hf.
  - unfold refcount_modulus in *. cbn. lia.
  - rewrite Hbuf1. exact Hok.
  - cbn. lia.
  - rewrite Hsize1, Hbuf1, Hmark, Nat.sub_0_r. exact Hfl.
  - destruct Hfr as (He & Hhf & Hconn & Hrd2 & Hp & Hreq & Hh2 & Hrcb).
    exists w2,
      ([EvTransportRead bs; EvParserParse bs; EvHandleHTTPRequest;
        EvIncRef; EvRunOnWritable; EvReadCompleted;
        EvDecRef ((refcount_ w + 1) mod refcount_modulus)] ++ evs).
    split.
    { cbn [run]. unfold bind at 1. rewrite Hstep. exact Hrun. }
    split; [exact Hf2|]. split; [exact Hr2|]. split; [exact Hcb2|].
    split; [rewrite Hrcb; exact Hcb|].
    split; [rewrite Hreq; reflexivity|].
    split; [exact He|]. split; [exact Hhf|]. split; [exact Hconn|].
    split; [rewrite Hrd2; reflexivity|].
    split; [rewrite Hwr; reflexivity|].
    rewrite Hbuf.
    split; [reflexivity|]. split; [reflexivity|].
    split.
    { rewrite Hbuf1. unfold response_buffered, dispatching, parsed, allocSize.
      world_simpl. cbn [clear append mem store size data firstn app Nat.add].
      pose proof (length_appended (generate (ext w) resp)
                    (store bs (buf_ w))) as [H1 _].
      cbn [store mem] in H1.
      unfold allocSize in Hlen. rewrite length_stored in H1 by exact Hlen.
      exact H1. }
    split.
    { rewrite Htr. unfold w1, request_answered, response_buffered,
        dispatching, parsed. world_simpl.
      now rewrite <- !app_assoc. }
    split.
    { cbn [app sent flat_map]. fold (sent evs). rewrite Hsent.
      unfold unsent. rewrite Hbuf1, Hmark, Hdata. reflexivity. }
    rewrite !count_app, Hc1, Hc3, Hc4, Hc5.
    repeat split.
Qed.

Lemma finish_keep_alive (w : World) (rq : HTTPRequest) :
  freed w = false ->
  0 < refcount_ w < refcount_modulus ->
  on_write_completed_cb_ w = Some (SFinishResponse SReturn) ->
  cur_request_ w = Some rq ->
  keepalive (ext w) rq = true ->
  exists w',
    write_completion w = Ret tt w' /\
    freed w' = false /\ refcount_ w' = refcount_ w /\
    readable (scheduler_ w') = S (readable (scheduler_ w)) /\
    writable (scheduler_ w') = writable (scheduler_ w) /\
    conn_ w' = conn_ w /\ ext w' = ext w /\
    handler_factory_ w' = handler_factory_ w /\
    buf_ w' = buf_ w /\
    parser_ w' = S_METHOD /\
    cur_request_ w' = Some new_HTTPRequest /\
    on_read_completed_cb_ w' = Some HeaderPhaseCb /\
    on_write_completed_cb_ w' = None /\
    trace w' = trace w ++
               [EvWriteCompleted; EvParserReset; EvIncRef; EvRunOnReadable;
                EvWriteCompletedReturn;
                EvDecRef ((refcount_ w + 1) mod refcount_modulus)].
Proof.
  intros Hf Hrc Hcb Hr Hka.
  destruct (incRef_decRef_roundtrip _ Hrc) as [Hne Hback].
  rewrite (write_completion_finish w rq Hf Hcb Hr). cbv zeta.
  change (ext (with_trace (trace w ++ [EvWriteCompleted]) w)) with (ext w).
  rewrite Hka.
  eexists. split.
  - unfold bind, ret. rewrite decRef_returns by exact Hf. reflexivity.
  - unfold released, read_armed, request_prepared. world_simpl.
    rewrite Hne. world_simpl. cbn [readable writable].
    rewrite Hback, <- !app_assoc. repeat split; assumption.
Qed.

Lemma finish_close (w : World) (rq : HTTPRequest) :
  freed w = false ->
  1 < refcount_ w < refcount_modulus ->
  on_write_completed_cb_ w = Some (SFinishResponse SReturn) ->
  cur_request_ w = Some rq ->
  keepalive (ext w) rq = false ->
  exists w',
    write_completion w = Ret tt w' /\
    freed w' = (refcount_ w =? 2) /\
    conn_ w' = Closed /\ scheduler_ w' = scheduler_ w /\
    trace w' = trace w ++
               [EvWriteCompleted; EvTransportClose; EvDecRef (refcount_ w);
                EvWriteCompletedReturn; EvDecRef (refcount_ w - 1)]
               ++ (if refcount_ w =? 2 then [EvDelete] else []).
Proof.
  intros Hf Hrc Hcb Hr Hka.
  assert (Hne : (refcount_ w =? 1) = false) by (apply Z.eqb_neq; lia).
  assert (Hback : (refcount_ w - 1) mod refcount_modulus = refcount_ w - 1)
    by (apply Z.mod_small; lia).
  assert (Htwo : (refcount_ w - 1 =? 1) = (refcount_ w =? 2)).
  { destruct (refcount_ w =? 2) eqn:E.
    - apply Z.eqb_eq in E. apply Z.eqb_eq. lia.
    - apply Z.eqb_neq in E. apply Z.eqb_neq. lia. }
  rewrite (write_completion_finish w rq Hf Hcb Hr). cbv zeta.
  change (ext (with_trace (trace w ++ [EvWriteCompleted]) w)) with (ext w).
  rewrite Hka.
  eexists. split.
  - unfold bind, ret. rewrite decRef_returns; [reflexivity|].
    unfold closed, released. world_simpl. rewrite Hne. exact Hf.
  - unfold closed, released. world_simpl. rewrite Hne. world_simpl.
    rewrite Hback, Htwo.
    destruct (refcount_ w =? 2); world_simpl; rewrite <- !app_assoc;
      repeat split; exact Hf.
Qed.

(** One keep-alive exchange, from a connection that waits for a request
    back to one that does. *)
Lemma keep_alive_exchange_once
    (bs : list byte) (hpo rest : list ParserAction) (resp : HTTPResponse)
    (lens : list nat) (w : World) (r : HTTPRequest) :
  freed w = false ->
  0 < refcount_ w < refcount_modulus - 1 ->
  (0 < readable (scheduler_ w))%nat ->
  on_read_completed_cb_ w = Some HeaderPhaseCb ->
  cur_request_ w = Some r ->
  bs <> [] -> (length bs <= allocSize (buf_ w))%nat ->
  forallb request_action hpo = true ->
  forallb request_action rest = true ->
  state_lt (state_after (hpo ++ rest) (parser_ w)) S_BODY = false ->
  handler_factory_ w (Some (assemble hpo r))
  = SWriteResponse resp (Some (SFinishResponse SReturn)) SReturn ->
  flushes (length (generate (ext w) resp)) lens = true ->
  keepalive (ext w) (assemble (hpo ++ rest) r) = true ->
  exists w' evs,
    run (Readable (ReadBytes bs) (hpo ++ POnHeadersComplete :: rest)
         :: writes lens) w
    = Ret tt w' /\
    freed w' = false /\ refcount_ w' = refcount_ w /\
    scheduler_ w' = scheduler_ w /\ conn_ w' = conn_ w /\
    ext w' = ext w /\ handler_factory_ w' = handler_factory_ w /\
    parser_ w' = S_METHOD /\
    cur_request_ w' = Some new_HTTPRequest /\
    on_read_completed_cb_ w' = Some HeaderPhaseCb /\
    on_write_completed_cb_ w' = None /\
    size (buf_ w') = 0%nat /\ mark (buf_ w') = 0%nat /\
    (allocSize (buf_ w) <= allocSize (buf_ w'))%nat /\
    trace w' = trace w ++ evs /\
    sent evs = generate (ext w) resp /\
    count is_incRef evs = count is_decRef evs /\
    count is_transport_close evs = 0%nat /\
    count is_delete evs = 0%nat /\
    count is_write_completed evs = 1%nat.
Proof.
  intros Hf Hrc Hrd Hcb Hr Hne Hlen Hh Hrest Hstate Hhandler Hfl Hka.
  destruct (exchange_until_completion bs hpo rest resp
              (Some (SFinishResponse SReturn)) lens w r)
    as (w2 & evs & Hrun & Hf2 & Hrc2 & Hwcb & Hrcb & Hreq & He & Hhf
        & Hconn & Hrd2 & Hwr2 & Hsize & Hmark & Halloc & Htr & Hsent
        & Hc1 & Hc2 & Hc3 & Hc4);
    try assumption.
  destruct (finish_keep_alive w2 (assemble (hpo ++ rest) r))
    as (w' & Hfin & Hf' & Hrc' & Hrd' & Hwr' & Hconn' & He' & Hhf' & Hbuf'
        & Hp' & Hreq' & Hrcb' & Hwcb' & Htr'); try assumption.
  - rewrite Hrc2. unfold refcount_modulus in *. lia.
  - now rewrite He.
  - exists w',
      (evs ++ [EvWriteCompleted; EvParserReset; EvIncRef; EvRunOnReadable;
               EvWriteCompletedReturn;
               EvDecRef ((refcount_ w2 + 1) mod refcount_modulus)]).
    split; [now rewrite Hrun|].
    split; [exact Hf'|]. split; [now rewrite Hrc'|].
    split.
    { destruct (scheduler_ w') as [a b], (scheduler_ w) as [c d],
        (scheduler_ w2) as [e f]. cbn [readable writable] in *.
      f_equal; lia. }
    split; [now rewrite Hconn'|]. split; [now rewrite He'|].
    split; [now rewrite Hhf'|].
    split; [exact Hp'|]. split; [exact Hreq'|]. split; [exact Hrcb'|].
    split; [exact Hwcb'|].
    rewrite Hbuf'.
    split; [exact Hsize|]. split; [exact Hmark|]. split; [exact Halloc|].
    split; [now rewrite Htr', Htr, <- app_assoc|].
    split.
    { unfold sent in *. rewrite flat_map_app, Hsent. cbn.
      apply app_nil_r. }
    rewrite !count_app, Hc1, Hc2, Hc3, Hc4, !count_cons.
    cbn. repeat split; lia.
Qed.

Lemma run_app (a b : list Readiness) (w : World) :
  run (a ++ b) w = (run a ;; run b) w.
Proof.
  revert w. induction a as [|i a IH]; intros w; [reflexivity|].
  cbn [app run]. unfold bind.
  destruct (step i w) as [[] w1|e w1|]; [|reflexivity..].
  apply IH.
Qed.

Lemma kept_alive_next (w w' : World) (x : Exchange) :
  ext w' = ext w -> handler_factory_ w' = handler_factory_ w ->
  (allocSize (buf_ w) <= allocSize (buf_ w'))%nat ->
  kept_alive w x -> kept_alive w' x.
Proof.
  intros He Hhf Ha (H1 & H2 & H3 & H4 & H5 & H6 & H7 & H8).
  unfold kept_alive. rewrite He, Hhf.
  repeat split; try assumption. lia.
Qed.

(** X15: Any number of exchanges on a connection that is kept alive: each
    request is read (its head parsed, the handler made for it and run),
    the handler answers at once with [writeResponse] and finishes the
    response when it is flushed, and the request asks to keep the
    connection.  Whatever the requests, the responses and the way the
    transport splits the writes, the connection is afterwards back where
    it was: alive and waiting for a request, with the same count and the
    same callbacks registered, the transport untouched, the buffer no
    smaller; on the way the transport took the serialized responses, each
    whole and in the order of the requests, nothing was closed or freed,
    every [incRef] has met its [decRef], and each ready callback was
    entered once. *)
Theorem keep_alive_exchanges (xs : list Exchange) :
  forall w : World,
    idle w ->
    Forall (kept_alive w) xs ->
    exists w' evs,
      run (flat_map exchange xs) w = Ret tt w' /\
      idle w' /\
      refcount_ w' = refcount_ w /\
      scheduler_ w' = scheduler_ w /\ conn_ w' = conn_ w /\
      ext w' = ext w /\ handler_factory_ w' = handler_factory_ w /\
      (allocSize (buf_ w) <= allocSize (buf_ w'))%nat /\
      trace w' = trace w ++ evs /\
      sent evs = flat_map (fun x => generate (ext w) (x_resp x)) xs /\
      count is_incRef evs = count is_decRef evs /\
      count is_transport_close evs = 0%nat /\
      count is_delete evs = 0%nat /\
      count is_write_completed evs = length xs.
Proof.
  induction xs as [|x xs IH]; intros w Hidle Hall.
  - exists w, []. rewrite app_nil_r. repeat split; try apply Hidle; lia.
  - inversion Hall as [|x' xs' Hx Hxs]; subst x' xs'.
    destruct Hidle as (Hf & Hrc & Hrd & Hcb & Hr & Hp).
    destruct Hx as (H1 & H2 & H3 & H4 & H5 & H6 & H7 & H8).
    destruct (keep_alive_exchange_once (x_bytes x) (x_head x) (x_rest x)
                (x_resp x) (x_lens x) w new_HTTPRequest)
      as (w1 & evs1 & Hrun1 & Hf1 & Hrc1 & Hsch1 & Hconn1 & He1 & Hhf1
          & Hp1 & Hr1 & Hcb1 & Hwcb1 & Hsize1 & Hmark1 & Halloc1 & Htr1
          & Hsent1 & Hc1 & Hc2 & Hc3 & Hc4);
      try assumption.
    { now rewrite Hp. }
    destruct (IH w1) as (w' & evs & Hrun & Hidle' & Hrc' & Hsch' & Hconn'
        & He' & Hhf' & Halloc' & Htr' & Hsent' & Hd1 & Hd2 & Hd3 & Hd4).
    + unfold idle. rewrite Hrc1, Hsch1. repeat split; try assumption; lia.
    + eapply Forall_impl; [|exact Hxs].
      intros y. now apply kept_alive_next.
    + exists w', (evs1 ++ evs).
      split.
      { cbn [flat_map]. rewrite run_app. unfold bind.
        fold (exchange x). unfold exchange at 1. rewrite Hrun1. exact Hrun. }
      split; [exact Hidle'|].
      split; [now rewrite Hrc'|]. split; [now rewrite Hsch'|].
      split; [now rewrite Hconn'|]. split; [now rewrite He'|].
      split; [now rewrite Hhf'|]. split; [lia|].
      split; [now rewrite Htr', Htr1, <- app_assoc|].
      split.
      { unfold sent in *. rewrite flat_map_app, Hsent1, Hsent'.
        cbn [flat_map]. now rewrite He1. }
      rewrite !count_app, Hc1, Hc2, Hc3, Hc4, Hd1, Hd2, Hd3, Hd4.
      cbn [length]. repeat split; lia.
Qed.

Lemma keep_alive_exchanges_witness :
  exists w',
    run (flat_map exchange [Scenario.get_x; Scenario.get_x])
      (Scenario.started true)
    = Ret tt w' /\
    refcount_ w' = 2 /\ freed w' = false /\
    scheduler_ w' = scheduler_ (Scenario.started true) /\
    sent (trace w') = Scenario.ten_bytes ++ Scenario.ten_bytes.
Proof.
  assert (Hidle : idle (Scenario.started true)).
  { unfold idle. repeat split; try reflexivity. apply le_n. }
  assert (Hk : kept_alive (Scenario.started true) Scenario.get_x).
  { unfold kept_alive. repeat split; try reflexivity; try discriminate.
    vm_compute. lia. }
  destruct (keep_alive_exchanges [Scenario.get_x; Scenario.get_x]
              (Scenario.started true) Hidle
              (Forall_cons _ Hk (Forall_cons _ Hk (Forall_nil _))))
    as (w' & evs & Hrun & Hidle' & Hrc & Hsch & _ & _ & _ & _ & Htr
        & Hsent & _).
  exists w'. split; [exact Hrun|]. split; [exact Hrc|].
  split; [apply Hidle'|]. split; [exact Hsch|].
  rewrite Htr. unfold sent in *. rewrite flat_map_app, Hsent. reflexivity.
Defined.

(** X16: A whole exchange that ends the connection: the request is read
    (its head parsed, the handler made for it and run), the handler
    answers at once with [writeResponse] and finishes the response when it
    is flushed, and the request does not ask to keep the connection.  When
    the response is flushed [finishResponse] closes the transport, once;
    the connection has then released two references more than it took
    during the exchange, the one of the read that ran and its own, and a
    connection that held just these two (as [start] leaves it) is
    deallocated, at the last [decRef] of the last [write], after the whole
    response was taken by the transport. *)
Theorem closing_exchange
    (bs : list byte) (hpo rest : list ParserAction) (resp : HTTPResponse)
    (lens : list nat) (w : World) (r : HTTPRequest) :
  freed w = false ->
  1 < refcount_ w < refcount_modulus - 1 ->
  (0 < readable (scheduler_ w))%nat ->
  on_read_completed_cb_ w = Some HeaderPhaseCb ->
  cur_request_ w = Some r ->
  bs <> [] -> (length bs <= allocSize (buf_ w))%nat ->
  forallb request_action hpo = true ->
  forallb request_action rest = true ->
  state_lt (state_after (hpo ++ rest) (parser_ w)) S_BODY = false ->
  handler_factory_ w (Some (assemble hpo r))
  = SWriteResponse resp (Some (SFinishResponse SReturn)) SReturn ->
  flushes (length (generate (ext w) resp)) lens = true ->
  keepalive (ext w) (assemble (hpo ++ rest) r) = false ->
  exists w' evs,
    run (Readable (ReadBytes bs) (hpo ++ POnHeadersComplete :: rest)
         :: writes lens) w
    = Ret tt w' /\
    freed w' = (refcount_ w =? 2) /\
    conn_ w' = Closed /\
    S (readable (scheduler_ w')) = readable (scheduler_ w) /\
    writable (scheduler_ w') = writable (scheduler_ w) /\
    trace w' = trace w ++ evs /\
    sent evs = generate (ext w) resp /\
    count is_transport_close evs = 1%nat /\
    count is_decRef evs = (count is_incRef evs + 2)%nat /\
    count is_delete evs = (if (refcount_ w =? 2)%Z then 1 else 0)%nat /\
    exists before,
      evs = before ++ EvDecRef (refcount_ w - 1)
              :: (if refcount_ w =? 2 then [EvDelete] else []).
Proof.
  intros Hf Hrc Hrd Hcb Hr Hne Hlen Hh Hrest Hstate Hhandler Hfl Hka.
  destruct (exchange_until_completion bs hpo rest resp
              (Some (SFinishResponse SReturn)) lens w r)
    as (w2 & evs & Hrun & Hf2 & Hrc2 & Hwcb & Hrcb & Hreq & He & Hhf
        & Hconn & Hrd2 & Hwr2 & Hsize & Hmark & Halloc & Htr & Hsent
        & Hc1 & Hc2 & Hc3 & Hc4);
    try assumption; try lia.
  destruct (finish_close w2 (assemble (hpo ++ rest) r))
    as (w' & Hfin & Hf' & Hconn' & Hsch' & Htr'); try assumption.
  - rewrite Hrc2. unfold refcount_modulus in *. lia.
  - now rewrite He.
  - rewrite Hrc2 in *.
    exists w',
      (evs ++ [EvWriteCompleted; EvTransportClose; EvDecRef (refcount_ w);
               EvWriteCompletedReturn; EvDecRef (refcount_ w - 1)]
           ++ (if refcount_ w =? 2 then [EvDelete] else [])).
    split; [now rewrite Hrun|].
    split; [exact Hf'|]. split; [exact Hconn'|].
    rewrite Hsch'.
    split; [exact Hrd2|]. split; [exact Hwr2|].
    split; [now rewrite Htr', Htr, <- app_assoc|].
    split.
    { unfold sent in *. rewrite flat_map_app, Hsent.
      destruct (refcount_ w =? 2); cbn; apply app_nil_r. }
    split; [|split; [|split]].
    + rewrite !count_app, Hc2.
      destruct (refcount_ w =? 2); rewrite !count_cons; cbn; lia.
    + rewrite !count_app, Hc1.
      destruct (refcount_ w =? 2); rewrite !count_cons; cbn; lia.
    + rewrite !count_app, Hc3.
      destruct (refcount_ w =? 2); rewrite !count_cons; cbn; lia.
    + exists (evs ++ [EvWriteCompleted; EvTransportClose;
                      EvDecRef (refcount_ w); EvWriteCompletedReturn]).
      rewrite <- !app_assoc. reflexivity.
Qed.

Lemma closing_exchange_witness :
  exists w',
    run (Readable (ReadBytes Scenario.request_bytes)
           ((Scenario.head_parse ++ [PState S_BODY])
            ++ POnHeadersComplete :: [PState S_DONE])
         :: writes [4; 4; 2]%nat) (Scenario.started false)
    = Ret tt w' /\
    freed w' = true /\ conn_ w' = Closed /\
    sent (trace w') = Scenario.ten_bytes.
Proof.
  assert (Hlen : (length Scenario.request_bytes
                  <= allocSize (buf_ (Scenario.started false)))%nat)
    by (vm_compute; lia).
  assert (Hne : Scenario.request_bytes <> []) by discriminate.
  destruct (closing_exchange Scenario.request_bytes
              (Scenario.head_parse ++ [PState S_BODY]) [PState S_DONE]
              Scenario.response [4; 4; 2]%nat (Scenario.started false)
              new_HTTPRequest
              eq_refl (conj eq_refl eq_refl) (le_n 1) eq_refl eq_refl
              Hne Hlen eq_refl eq_refl eq_refl eq_refl eq_refl eq_refl)
    as (w' & evs & Hrun & Hf & Hconn & _ & _ & Htr & Hsent & _).
  exists w'. split; [exact Hrun|]. split; [exact Hf|].
  split; [exact Hconn|].
  rewrite Htr. unfold sent in *. rewrite flat_map_app, Hsent. reflexivity.
Defined.

(** ** Writes that fail, and writes that stall *)

Lemma unsent_request_answered (bs : list byte) (hpo rest : list ParserAction)
    (resp : HTTPResponse) (cb : option Script) (r : HTTPRequest)
    (w : World) :
  unsent (buf_ (request_answered bs hpo rest resp cb r w))
  = generate (ext w) resp.
Proof.
  destruct (response_buffered_ok resp cb (dispatching bs hpo r w))
    as (_ & Hmark & Hdata).
  unfold unsent.
  change (buf_ (request_answered bs hpo rest resp cb r w))
    with (buf_ (response_buffered resp cb (dispatching bs hpo r w))).
  now rewrite Hmark, Hdata.
Qed.

Lemma request_answered_fields (bs : list byte) (hpo rest : list ParserAction)
    (resp : HTTPResponse) (cb : option Script) (r : HTTPRequest)
    (w : World) :
  freed (request_answered bs hpo rest resp cb r w) = freed w /\
  refcount_ (request_answered bs hpo rest resp cb r w) = refcount_ w /\
  conn_ (request_answered bs hpo rest resp cb r w) = conn_ w /\
  scheduler_ (request_answered bs hpo rest resp cb r w)
  = {| readable := readable (scheduler_ w);
       writable := S (writable (scheduler_ w)) |} /\
  trace (request_answered bs hpo rest resp cb r w)
  = trace w ++
    [EvTransportRead bs; EvParserParse bs; EvHandleHTTPRequest;
     EvIncRef; EvRunOnWritable; EvReadCompleted;
     EvDecRef ((refcount_ w + 1) mod refcount_modulus)].
Proof.
  unfold request_answered, response_buffered, dispatching, parsed.
  world_simpl. rewrite <- !app_assoc. repeat split.
Qed.

Lemma step_write_fails (tw : TransportWrite) (t : kExceptionType)
    (w : World) (n : nat) :
  freed w = false ->
  writable (scheduler_ w) = S n ->
  tw (unsent (buf_ w)) = WriteFails (Exception t) ->
  step (Writable tw) w
  = Ret tt
      (closed
         (with_trace (trace w ++ [EvTransportWriteFailed (unsent (buf_ w))])
            (with_scheduler_
               {| readable := readable (scheduler_ w); writable := n |} w))).
Proof.
  intros Hf Hn Htw. unfold step. rewrite Hn.
  rewrite (write_transport_error tw t); [|exact Hf|exact Htw].
  apply close_returns. exact Hf.
Qed.

Lemma closed_second_last (w : World) :
  freed w = false -> refcount_ w = 2 ->
  freed (closed w) = false /\ refcount_ (closed w) = 1 /\
  conn_ (closed w) = Closed /\ scheduler_ (closed w) = scheduler_ w /\
  trace (closed w) = trace w ++ [EvTransportClose; EvDecRef 2].
Proof.
  intros Hf Hrc.
  split; [|split; [|split; [apply closed_conn|split;
    [apply closed_scheduler|rewrite closed_trace, Hrc; reflexivity]]]].
  - unfold closed, released. world_simpl. now rewrite Hrc.
  - unfold closed, released. world_simpl. now rewrite Hrc.
Qed.

(** The two notifications of an exchange whose first write fails. *)
Lemma failed_write_steps
    (bs : list byte) (hpo rest : list ParserAction) (resp : HTTPResponse)
    (cb : option Script) (tw : TransportWrite) (t : kExceptionType)
    (w : World) (r : HTTPRequest) :
  freed w = false ->
  refcount_ w = 2 ->
  scheduler_ w = {| readable := 1; writable := 0 |} ->
  on_read_completed_cb_ w = Some HeaderPhaseCb ->
  cur_request_ w = Some r ->
  bs <> [] -> (length bs <= allocSize (buf_ w))%nat ->
  forallb request_action hpo = true ->
  forallb request_action rest = true ->
  state_lt (state_after (hpo ++ rest) (parser_ w)) S_BODY = false ->
  handler_factory_ w (Some (assemble hpo r)) = SWriteResponse resp cb SReturn ->
  tw (generate (ext w) resp) = WriteFails (Exception t) ->
  exists w1,
    step (Readable (ReadBytes bs) (hpo ++ POnHeadersComplete :: rest)) w
    = Ret tt w1 /\
    step (Writable tw) w1
    = Ret tt
        (closed
           (with_trace
              (trace w1 ++ [EvTransportWriteFailed (generate (ext w) resp)])
              (with_scheduler_ {| readable := 0; writable := 0 |} w1))) /\
    freed w1 = false /\ refcount_ w1 = 2 /\
    trace w1
    = trace w ++
      [EvTransportRead bs; EvParserParse bs; EvHandleHTTPRequest;
       EvIncRef; EvRunOnWritable; EvReadCompleted; EvDecRef 3].
Proof.
  intros Hf Hrc Hsch Hcb Hr Hne Hlen Hh Hrest Hstate Hhandler Htw.
  assert (Hstep1 :
    step (Readable (ReadBytes bs) (hpo ++ POnHeadersComplete :: rest)) w
    = Ret tt (request_answered bs hpo rest resp cb r
                (with_scheduler_ {| readable := 0; writable := 0 |} w))).
  { unfold step. rewrite Hsch. cbn [readable writable].
    apply read_answered; try assumption.
    change (0 < refcount_ w < refcount_modulus). rewrite Hrc.
    split; reflexivity. }
  destruct (request_answered_fields bs hpo rest resp cb r
              (with_scheduler_ {| readable := 0; writable := 0 |} w))
    as (Hf1 & Hrc1 & Hconn1 & Hsch1 & Htr1).
  pose proof (unsent_request_answered bs hpo rest resp cb r
                (with_scheduler_ {| readable := 0; writable := 0 |} w))
    as Hu1.
  remember (request_answered bs hpo rest resp cb r
              (with_scheduler_ {| readable := 0; writable := 0 |} w))
    as w1 eqn:Ew1.
  world_simpl. cbn [readable writable] in Hsch1.
  rewrite Hrc in Hrc1, Htr1. rewrite Hf in Hf1.
  change ((2 + 1) mod refcount_modulus) with 3 in Htr1.
  assert (Hstep2 := step_write_fails tw t w1 0).
  rewrite Hsch1, Hu1 in Hstep2. cbn [readable writable] in Hstep2.
  specialize (Hstep2 Hf1 eq_refl Htw).
  exists w1. repeat split; assumption.
Qed.

(** X17: When the transport fails on the first write of a response, the
    connection is closed and never deallocated: on a connection as
    [start] leaves it, whose request was read and answered with
    [writeResponse], [write] closes the transport and returns through
    [close] without its own [decRef]; the count stays at 1 with nothing
    scheduled, the ready callback is never entered, and no later
    notification changes that. *)
Theorem failed_write_is_never_freed
    (bs : list byte) (hpo rest : list ParserAction) (resp : HTTPResponse)
    (cb : option Script) (tw : TransportWrite) (t : kExceptionType)
    (w : World) (r : HTTPRequest) :
  freed w = false ->
  refcount_ w = 2 ->
  scheduler_ w = {| readable := 1; writable := 0 |} ->
  on_read_completed_cb_ w = Some HeaderPhaseCb ->
  cur_request_ w = Some r ->
  bs <> [] -> (length bs <= allocSize (buf_ w))%nat ->
  forallb request_action hpo = true ->
  forallb request_action rest = true ->
  state_lt (state_after (hpo ++ rest) (parser_ w)) S_BODY = false ->
  handler_factory_ w (Some (assemble hpo r)) = SWriteResponse resp cb SReturn ->
  tw (generate (ext w) resp) = WriteFails (Exception t) ->
  exists w',
    run [Readable (ReadBytes bs) (hpo ++ POnHeadersComplete :: rest);
         Writable tw] w
    = Ret tt w' /\
    freed w' = false /\ refcount_ w' = 1 /\ conn_ w' = Closed /\
    pending w' = 0%nat /\
    trace w' = trace w ++
               [EvTransportRead bs; EvParserParse bs; EvHandleHTTPRequest;
                EvIncRef; EvRunOnWritable; EvReadCompleted; EvDecRef 3;
                EvTransportWriteFailed (generate (ext w) resp);
                EvTransportClose; EvDecRef 2] /\
    forall more, run more w' = Ret tt w'.
Proof.
  intros Hf Hrc Hsch Hcb Hr Hne Hlen Hh Hrest Hstate Hhandler Htw.
  destruct (failed_write_steps bs hpo rest resp cb tw t w r)
    as (w1 & Hstep1 & Hstep2 & Hf1 & Hrc1 & Htr1); try assumption.
  destruct (closed_second_last
              (with_trace
                 (trace w1 ++ [EvTransportWriteFailed (generate (ext w) resp)])
                 (with_scheduler_ {| readable := 0; writable := 0 |} w1))
              Hf1 Hrc1) as (Hf2 & Hrc2 & Hconn2 & Hsch2 & Htr2).
  eexists. split.
  - cbn [run]. unfold bind at 1. rewrite Hstep1.
    unfold bind at 1. rewrite Hstep2. reflexivity.
  - split; [exact Hf2|]. split; [exact Hrc2|]. split; [exact Hconn2|].
    split; [unfold pending; rewrite Hsch2; reflexivity|].
    split.
    + rewrite Htr2. cbn [trace with_trace]. rewrite Htr1, <- !app_assoc.
      reflexivity.
    + intros more. apply run_nothing_pending.
      unfold pending. rewrite Hsch2. reflexivity.
Qed.

Lemma failed_write_is_never_freed_witness :
  exists w',
    run [Readable (ReadBytes Scenario.request_bytes)
           ((Scenario.head_parse ++ [PState S_BODY])
            ++ POnHeadersComplete :: [PState S_DONE]);
         Writable (fun _ => WriteFails (Exception kTransportError))]
      (Scenario.started false)
    = Ret tt w' /\
    freed w' = false /\ refcount_ w' = 1 /\ conn_ w' = Closed.
Proof.
  assert (Hlen : (length Scenario.request_bytes
                  <= allocSize (buf_ (Scenario.started false)))%nat)
    by (vm_compute; lia).
  assert (Hne : Scenario.request_bytes <> []) by discriminate.
  destruct (failed_write_is_never_freed Scenario.request_bytes
              (Scenario.head_parse ++ [PState S_BODY]) [PState S_DONE]
              Scenario.response (Some (SFinishResponse SReturn))
              (fun _ => WriteFails (Exception kTransportError))
              kTransportError (Scenario.started false) new_HTTPRequest
              eq_refl eq_refl eq_refl eq_refl eq_refl
              Hne Hlen eq_refl eq_refl eq_refl eq_refl eq_refl)
    as (w' & Hrun & Hf & Hrc & Hconn & _).
  exists w'. repeat split; assumption.
Defined.

(** X18: A write of which the transport takes nothing, while bytes are
    left, is neither an error nor the end of the response: [write] leaves
    the mark where it is and arms the next write.  However often that
    happens, the connection stays as it is (same mark and contents, same
    count, same callbacks registered, nothing closed), nothing is sent
    and the ready callback is not entered. *)
Theorem stalled_write_retries (n : nat) :
  forall w : World,
    freed w = false ->
    0 < refcount_ w < refcount_modulus ->
    (0 < writable (scheduler_ w))%nat ->
    (mark (buf_ w) < size (buf_ w))%nat ->
    exists w' evs,
      run (writes (repeat 0%nat n)) w = Ret tt w' /\
      mark (buf_ w') = mark (buf_ w) /\
      size (buf_ w') = size (buf_ w) /\
      data (buf_ w') = data (buf_ w) /\
      refcount_ w' = refcount_ w /\ freed w' = false /\
      scheduler_ w' = scheduler_ w /\ conn_ w' = conn_ w /\
      on_write_completed_cb_ w' = on_write_completed_cb_ w /\
      trace w' = trace w ++ evs /\
      write_lengths evs = repeat 0%nat n /\
      sent evs = [] /\
      count is_write_completed evs = 0%nat /\
      count is_transport_close evs = 0%nat /\
      count is_incRef evs = n /\ count is_decRef evs = n.
Proof.
  induction n as [|n IH]; intros w Hf Hrc Hwr Hlt.
  - exists w, []. rewrite app_nil_r. repeat split; assumption.
  - pose (w1 := with_buf_ (setMark (mark (buf_ w) + 0) (buf_ w))
                  (with_trace
                     (trace w ++
                      [EvTransportWrite (unsent (buf_ w)) 0;
                       EvIncRef; EvRunOnWritable;
                       EvDecRef ((refcount_ w + 1) mod refcount_modulus)])
                     w)).
    destruct (IH w1) as (w' & evs & Hrun & Hm & Hs & Hd & Hr & Hf' & Hsch
        & Hconn & Hcb & Htr & Hl & Hsent & Hc1 & Hc2 & Hc3 & Hc4);
      try assumption.
    { subst w1. world_simpl. cbn [mark size setMark]. lia. }
    exists w',
      ([EvTransportWrite (unsent (buf_ w)) 0; EvIncRef; EvRunOnWritable;
        EvDecRef ((refcount_ w + 1) mod refcount_modulus)] ++ evs).
    split.
    { cbn [repeat writes map run]. unfold bind at 1.
      rewrite step_partial by (try assumption; lia). exact Hrun. }
    subst w1. world_simpl. cbn [mark size setMark data mem] in *.
    rewrite Nat.add_0_r in Hm.
    repeat split; try assumption.
    + now rewrite Htr, <- app_assoc.
    + cbn [write_lengths flat_map app repeat]. fold (write_lengths evs).
      now rewrite Hl.
    + rewrite !count_app, Hc3. reflexivity.
    + rewrite !count_app, Hc4. reflexivity.
Qed.

Lemma stalled_write_retries_witness :
  exists w',
    run (writes (repeat 0%nat 3)) Scenario.response_armed = Ret tt w' /\
    mark (buf_ w') = 0%nat /\
    count is_write_completed (trace w') = 0%nat.
Proof.
  destruct (stalled_write_retries 3 Scenario.response_armed
              eq_refl (conj eq_refl eq_refl) (le_n 1))
    as (w' & evs & Hrun & Hm & _ & _ & _ & _ & _ & _ & _ & Htr & _ & _
        & Hc & _).
  - vm_compute. lia.
  - exists w'. split; [exact Hrun|]. split; [exact Hm|].
    rewrite Htr, count_app, Hc. reflexivity.
Defined.

(** ** C7: the transport-error path of [write] *)

Lemma closed_live (w : World) :
  freed w = false ->
  1 < refcount_ w < refcount_modulus ->
  freed (closed w) = false /\ refcount_ (closed w) = refcount_ w - 1 /\
  trace (closed w) = trace w ++ [EvTransportClose; EvDecRef (refcount_ w)].
Proof.
  intros Hf Hrc.
  assert (Hne : (refcount_ w =? 1) = false) by (apply Z.eqb_neq; lia).
  split; [|split].
  - unfold closed, released. world_simpl. now rewrite Hne.
  - unfold closed, released. world_simpl. rewrite Hne. world_simpl.
    apply Z.mod_small. lia.
  - rewrite closed_trace, Hne. reflexivity.
Qed.

Lemma write_closing_completion (len : nat) (w : World) (rq : HTTPRequest) :
  freed w = false ->
  1 < refcount_ w < refcount_modulus ->
  (size (buf_ w) <= mark (buf_ w) + len)%nat ->
  on_write_completed_cb_ w = Some (SFinishResponse SReturn) ->
  cur_request_ w = Some rq ->
  keepalive (ext w) rq = false ->
  exists w2,
    write (accepts len) w = Ret tt w2 /\
    trace w2
    = trace w ++
      [EvTransportWrite (unsent (buf_ w)) len; EvWriteCompleted;
       EvTransportClose; EvDecRef (refcount_ w);
       EvWriteCompletedReturn; EvDecRef (refcount_ w - 1)]
      ++ (if refcount_ w =? 2 then [EvDelete] else []) /\
    conn_ w2 = Closed /\
    freed w2 = (refcount_ w =? 2).
Proof.
  intros Hf Hrc Hge Hcb Hr Hka.
  destruct (finish_close (fully_written len w) rq)
    as (w2 & Hrun & Hf2 & Hconn2 & _ & Htr2); try assumption.
  exists w2. split.
  - rewrite (write_full (accepts len) w len Hf eq_refl Hge). exact Hrun.
  - split; [|split; assumption].
    rewrite Htr2. unfold fully_written. world_simpl.
    rewrite <- !app_assoc. reflexivity.
Qed.

(** C7: on the transport-error path [write] returns straight after
    [close] and never reaches the [decRef] at its end.  The one [decRef]
    of that path is the one inside [close], which [close] performs
    whoever calls it: had the transport taken the bytes and the
    completion callback closed the connection ([finishResponse] without
    keep-alive), that [decRef] of [close] would have been followed by the
    one of [write].  So after the failed [write] the count is one higher
    than after a [write] during which the connection is closed by the
    callback: with count 2 the latter deallocates the object, the former
    leaves it closed with count 1, and with nothing else scheduled no
    later notification deallocates it. *)
Theorem write_error_skips_decRef
    (tw : TransportWrite) (t : kExceptionType) (w : World) :
  freed w = false ->
  1 < refcount_ w < refcount_modulus ->
  tw (unsent (buf_ w)) = WriteFails (Exception t) ->
  (exists w',
     write tw w = Ret tt w' /\
     close (with_trace
              (trace w ++ [EvTransportWriteFailed (unsent (buf_ w))]) w)
     = Ret tt w' /\
     trace w' = trace w ++
                [EvTransportWriteFailed (unsent (buf_ w));
                 EvTransportClose; EvDecRef (refcount_ w)] /\
     conn_ w' = Closed /\
     refcount_ w' = refcount_ w - 1 /\
     freed w' = false /\
     scheduler_ w' = scheduler_ w /\
     (pending w = 0%nat -> forall more, run more w' = Ret tt w')) /\
  (forall len rq,
     (size (buf_ w) <= mark (buf_ w) + len)%nat ->
     on_write_completed_cb_ w = Some (SFinishResponse SReturn) ->
     cur_request_ w = Some rq ->
     keepalive (ext w) rq = false ->
     exists w2,
       write (accepts len) w = Ret tt w2 /\
       trace w2 = trace w ++
                  [EvTransportWrite (unsent (buf_ w)) len; EvWriteCompleted;
                   EvTransportClose; EvDecRef (refcount_ w);
                   EvWriteCompletedReturn; EvDecRef (refcount_ w - 1)]
                  ++ (if refcount_ w =? 2 then [EvDelete] else []) /\
       conn_ w2 = Closed /\
       freed w2 = (refcount_ w =? 2)).
Proof.
  intros Hf Hrc Htw. split.
  - pose (wf := with_trace
                  (trace w ++ [EvTransportWriteFailed (unsent (buf_ w))]) w).
    destruct (closed_live wf Hf Hrc) as (Hf' & Hrc' & Htr').
    exists (closed wf).
    split; [rewrite (write_transport_error tw t w Hf Htw);
            apply close_returns; exact Hf|].
    split; [apply close_returns; exact Hf|].
    split; [rewrite Htr'; unfold wf; world_simpl;
            rewrite <- app_assoc; reflexivity|].
    split; [apply closed_conn|].
    split; [exact Hrc'|].
    split; [exact Hf'|].
    split; [exact (closed_scheduler wf)|].
    intros Hp more. apply run_nothing_pending.
    unfold pending. rewrite (closed_scheduler wf). exact Hp.
  - intros len rq Hge Hcb Hr Hka.
    exact (write_closing_completion len w rq Hf Hrc Hge Hcb Hr Hka).
Qed.

Lemma write_error_skips_decRef_witness :
  (exists w',
     write (fun _ => WriteFails (Exception kTransportError))
       (writable_taken Scenario.response_armed) = Ret tt w' /\
     trace w' = trace (writable_taken Scenario.response_armed) ++
                [EvTransportWriteFailed Scenario.ten_bytes;
                 EvTransportClose; EvDecRef 2] /\
     conn_ w' = Closed /\ refcount_ w' = 1 /\ freed w' = false /\
     forall more, run more w' = Ret tt w') /\
  (exists w2,
     write (accepts 10) (writable_taken Scenario.response_armed)
     = Ret tt w2 /\
     conn_ w2 = Closed /\ freed w2 = true).
Proof.
  assert (Hrc : 1 < refcount_ (writable_taken Scenario.response_armed)
                  < refcount_modulus) by (vm_compute; split; reflexivity).
  destruct (write_error_skips_decRef
              (fun _ => WriteFails (Exception kTransportError))
              kTransportError (writable_taken Scenario.response_armed)
              eq_refl Hrc eq_refl)
    as ((w' & Hrun & _ & Htr & Hconn & Hrc' & Hf' & _ & Hleak) & Hother).
  split.
  - exists w'. split; [exact Hrun|]. split; [exact Htr|].
    split; [exact Hconn|]. split; [exact Hrc'|]. split; [exact Hf'|].
    apply Hleak. reflexivity.
  - assert (Hge : (size (buf_ (writable_taken Scenario.response_armed))
                   <= mark (buf_ (writable_taken Scenario.response_armed))
                      + 10)%nat) by (vm_compute; lia).
    destruct (Hother 10%nat _ Hge eq_refl eq_refl eq_refl)
      as (w2 & Hrun2 & _ & Hconn2 & Hf2).
    exists w2. split; [exact Hrun2|]. split; [exact Hconn2|exact Hf2].
Defined.
